(** * Gorilla double-delta chunk codec (src/gorilla.c): shallow embedding.

    Machine integers are mathematical integers with the wrap-around of the
    C types written out: [u64], [u32] and [u8] reduce modulo the width,
    [i64] re-centres a value in the signed 64-bit range.  A double is
    handled only through its raw 64-bit pattern (the [u] member of
    [union64bits]); the code never performs floating-point arithmetic on
    it, it only copies and XORs the pattern. *)

From Stdlib Require Import ZArith List Bool Lia.
Import ListNotations.
Local Open Scope Z_scope.

(** ** Machine arithmetic *)

Definition u64 (z : Z) : Z := z mod 2 ^ 64.
Definition u32 (z : Z) : Z := z mod 2 ^ 32.
Definition u8 (z : Z) : Z := z mod 2 ^ 8.
Definition i64 (z : Z) : Z := (z + 2 ^ 63) mod 2 ^ 64 - 2 ^ 63.

Definition BIN_NUM_VALUES : Z := 64.
Definition BINW : Z := BIN_NUM_VALUES.

Definition DOUBLE_LEADING : Z := 5.
Definition DOUBLE_BLOCK_SIZE : Z := 6.
Definition DOUBLE_BLOCK_ADJUST : Z := 1.

Definition CMPR_L1 : Z := 5.
Definition CMPR_L2 : Z := 8.
Definition CMPR_L3 : Z := 11.
Definition CMPR_L4 : Z := 15.
Definition CMPR_L5 : Z := 32.

(** [BIT(bit)]: 2^bit, and 0 when the shift would leave the word. *)
Definition BIT (bit : Z) : Z :=
  if 63 <? bit then 0 else Z.shiftl 1 bit.

(** [MASK(bits)]: the [bits] least significant bits turned on. *)
Definition MASK (bits : Z) : Z := u64 (BIT bits - 1).

(** [LSB(x, bits)]: clears everything from position [bits] upwards. *)
Definition LSB (x bits : Z) : Z := Z.land x (MASK bits).

(** [int2bin(x, l)]: the int64 [x] is converted to u64 and cut to [l] bits. *)
Definition int2bin (x l : Z) : Z := LSB (u64 x) l.

(** [bin2int(bin, l)]: [l - 1] is computed in int and handed to [BIT] as a
    u64; the subtraction [(int64_t)bin - BIT(l)] is carried out in u64 and
    returned as int64. *)
Definition bin2int (bin l : Z) : Z :=
  let pos := Z.land bin (BIT (u64 (l - 1))) =? 0 in
  if pos then i64 bin else i64 (u64 (i64 bin - BIT l)).

Definition Bin_MaxVal (nbits : Z) : Z := i64 (u64 (BIT (u64 (nbits - 1)) - 1)).
Definition Bin_MinVal (nbits : Z) : Z := i64 (u64 (- BIT (u64 (nbits - 1)))).

Definition localbit (bit : Z) : Z := bit mod BINW.

Definition Bin_InRange (x nbits : Z) : bool :=
  (Bin_MinVal nbits <=? x) && (x <=? Bin_MaxVal nbits).

(** ** Bit buffer

    [chunk->data] is a pointer to 64-bit bins; the buffer is modelled as the
    memory it points to, a map from bin index to the 64-bit word stored
    there.  Global bit [g] is bit [g mod 64] of bin [g / 64]. *)

Definition bins_t : Type := Z -> Z.

Definition bins_set (bins : bins_t) (k w : Z) : bins_t :=
  fun j => if j =? k then w else bins j.

Definition Bins_bitoff (bins : bins_t) (bit : Z) : bool :=
  Z.land (bins (bit / BINW)) (BIT (localbit bit)) =? 0.

Definition Bins_biton (bins : bins_t) (bit : Z) : bool :=
  negb (Bins_bitoff bins bit).

(** [appendBits(bins, &bit, data, dataLen)]: returns the updated bins and
    the advanced cursor.  [dataLen] is a u_int8_t parameter; the left
    shifts are u64 shifts and drop what leaves the word. *)
Definition appendBits (bins : bins_t) (bit data dataLen : Z) : bins_t * Z :=
  let dataLen := u8 dataLen in
  let k := bit / BINW in
  let lbit := localbit bit in
  let available := BINW - lbit in
  if dataLen <=? available then
    (bins_set bins k (Z.lor (bins k) (u64 (Z.shiftl (LSB data dataLen) lbit))),
     u64 (bit + dataLen))
  else
    let bins1 := bins_set bins k (Z.lor (bins k) (u64 (Z.shiftl data lbit))) in
    (bins_set bins1 (k + 1)
       (Z.lor (bins1 (k + 1)) (LSB (Z.shiftr data available) lbit)),
     u64 (bit + dataLen)).

(** [readBits(bins, &bit, dataLen)]: returns the bits read and the advanced
    cursor. *)
Definition readBits (bins : bins_t) (bit dataLen : Z) : Z * Z :=
  let dataLen := u8 dataLen in
  let k := bit / BINW in
  let lbit := localbit bit in
  let available := BINW - lbit in
  if dataLen <=? available then
    (LSB (Z.shiftr (bins k) lbit) dataLen, u64 (bit + dataLen))
  else
    let left := u8 (dataLen - available) in
    let bin := LSB (Z.shiftr (bins k) lbit) available in
    (Z.lor bin (u64 (Z.shiftl (LSB (bins (k + 1)) left) available)),
     u64 (bit + dataLen)).

(** The value of global bit [g] of the buffer. *)
Definition getbit (bins : bins_t) (g : Z) : bool :=
  Z.testbit (bins (g / 64)) (g mod 64).

(** ** Chunk and iterator *)

Inductive ChunkResult : Type := CR_OK | CR_ERR | CR_END.

Definition ChunkResult_eqb (a b : ChunkResult) : bool :=
  match a, b with
  | CR_OK, CR_OK | CR_ERR, CR_ERR | CR_END, CR_END => true
  | _, _ => false
  end.

(** Modelled from the spec: gorilla.h, which declares [CompressedChunk] and
    [Compressed_Iterator], is not part of the sources; the fields and their
    types are those of the spec's data model (sections 3 and 6) and of the
    uses in gorilla.c.  Doubles are kept as their raw 64-bit pattern.
    [trace] is a ghost field: it records every [appendBits] call made on the
    chunk's buffer as (cursor, data, dataLen), most recent first, and is
    never read by the code. *)
Record CompressedChunk : Type := mkChunk {
  size : Z;
  numSamples : Z;
  baseTimestamp : Z;
  baseValue : Z;
  data : bins_t;
  idx : Z;
  prevTimestamp : Z;
  prevTimestampDelta : Z;
  prevValue : Z;
  prevLeading : Z;
  prevTrailing : Z;
  trace : list (Z * Z * Z)
}.

Record Compressed_Iterator : Type := mkIter {
  it_idx : Z;
  it_count : Z;
  it_prevTS : Z;
  it_prevDelta : Z;
  it_prevValue : Z;
  it_prevLeading : Z;
  it_prevTrailing : Z
}.

(** [appendBits(chunk->data, &chunk->idx, data, dataLen)] as the encoder
    calls it, with the call recorded in the ghost trace. *)
Definition chunk_appendBits (c : CompressedChunk) (d dataLen : Z)
  : CompressedChunk :=
  let '(bins', bit') := appendBits (data c) (idx c) d dataLen in
  mkChunk (size c) (numSamples c) (baseTimestamp c) (baseValue c)
          bins' bit'
          (prevTimestamp c) (prevTimestampDelta c) (prevValue c)
          (prevLeading c) (prevTrailing c)
          ((idx c, d, dataLen) :: trace c).

Definition set_timestamp_state (c : CompressedChunk) (ts delta : Z)
  : CompressedChunk :=
  mkChunk (size c) (numSamples c) (baseTimestamp c) (baseValue c)
          (data c) (idx c) ts delta (prevValue c)
          (prevLeading c) (prevTrailing c) (trace c).

Definition set_prevValue (c : CompressedChunk) (v : Z) : CompressedChunk :=
  mkChunk (size c) (numSamples c) (baseTimestamp c) (baseValue c)
          (data c) (idx c) (prevTimestamp c) (prevTimestampDelta c) v
          (prevLeading c) (prevTrailing c) (trace c).

Definition set_window (c : CompressedChunk) (l t : Z) : CompressedChunk :=
  mkChunk (size c) (numSamples c) (baseTimestamp c) (baseValue c)
          (data c) (idx c) (prevTimestamp c) (prevTimestampDelta c)
          (prevValue c) l t (trace c).

Definition set_idx (c : CompressedChunk) (i : Z) : CompressedChunk :=
  mkChunk (size c) (numSamples c) (baseTimestamp c) (baseValue c)
          (data c) i (prevTimestamp c) (prevTimestampDelta c)
          (prevValue c) (prevLeading c) (prevTrailing c) (trace c).

Definition set_numSamples (c : CompressedChunk) (n : Z) : CompressedChunk :=
  mkChunk (size c) n (baseTimestamp c) (baseValue c)
          (data c) (idx c) (prevTimestamp c) (prevTimestampDelta c)
          (prevValue c) (prevLeading c) (prevTrailing c) (trace c).

Definition set_first_sample (c : CompressedChunk) (ts v : Z)
  : CompressedChunk :=
  mkChunk (size c) (numSamples c) ts v
          (data c) (idx c) ts 0 v
          (prevLeading c) (prevTrailing c) (trace c).

(** [isSpaceAvailable(chunk, size)]: the requested size is a u_int8_t. *)
Definition isSpaceAvailable (c : CompressedChunk) (sz : Z) : bool :=
  let available := u64 (size c * 8 - idx c) in
  u8 sz <=? available.

(** The [CHECKSPACE] macro: leave the function with [CR_ERR] when the space
    is missing, go on with [k] otherwise. *)
Definition CHECKSPACE (c : CompressedChunk) (x : Z)
    (k : ChunkResult * CompressedChunk) : ChunkResult * CompressedChunk :=
  if negb (isSpaceAvailable c x) then (CR_ERR, c) else k.

(** Modelled from the spec: [__builtin_clzll] and [__builtin_ctzll] are
    compiler intrinsics; on a non-zero 64-bit word they count the zero bits
    above the highest set bit and below the lowest set bit. *)
Definition LeadingZeros64 (x : Z) : Z := 63 - Z.log2 x.

Fixpoint pos_ctz (p : positive) : Z :=
  match p with
  | xO q => 1 + pos_ctz q
  | _ => 0
  end.

Definition TrailingZeros64 (x : Z) : Z :=
  match x with
  | Zpos p => pos_ctz p
  | _ => 64
  end.

(** *** Append

    The [assert] calls of the source are preconditions: nothing is returned
    where one fails.  They are not part of the functions below; a statement
    that says what a call returns for inputs that are not themselves the
    result of a returned call carries them as hypotheses
    ([prevTimestamp c <= timestamp], [prevLeading c + prevTrailing c <= 64]). *)

Definition appendInteger (c : CompressedChunk) (timestamp : Z)
  : ChunkResult * CompressedChunk :=
  let curDelta := u64 (timestamp - prevTimestamp c) in
  let doubleDelta := i64 (u64 (curDelta - prevTimestampDelta c)) in
  let finish (c' : CompressedChunk) :=
    (CR_OK, set_timestamp_state c' timestamp (i64 curDelta)) in
  if doubleDelta =? 0 then
    CHECKSPACE c (1 + 1)
      (finish (chunk_appendBits c 0 1))
  else if Bin_InRange doubleDelta CMPR_L1 then
    CHECKSPACE c (2 + CMPR_L1 + 1)
      (finish (chunk_appendBits (chunk_appendBits c 1 2)
                 (int2bin doubleDelta CMPR_L1) CMPR_L1))
  else if Bin_InRange doubleDelta CMPR_L2 then
    CHECKSPACE c (3 + CMPR_L2 + 1)
      (finish (chunk_appendBits (chunk_appendBits c 3 3)
                 (int2bin doubleDelta CMPR_L2) CMPR_L2))
  else if Bin_InRange doubleDelta CMPR_L3 then
    CHECKSPACE c (4 + CMPR_L3 + 1)
      (finish (chunk_appendBits (chunk_appendBits c 7 4)
                 (int2bin doubleDelta CMPR_L3) CMPR_L3))
  else if Bin_InRange doubleDelta CMPR_L4 then
    CHECKSPACE c (5 + CMPR_L4 + 1)
      (finish (chunk_appendBits (chunk_appendBits c 15 5)
                 (int2bin doubleDelta CMPR_L4) CMPR_L4))
  else if Bin_InRange doubleDelta CMPR_L5 then
    CHECKSPACE c (6 + CMPR_L5 + 1)
      (finish (chunk_appendBits (chunk_appendBits c 31 6)
                 (int2bin doubleDelta CMPR_L5) CMPR_L5))
  else
    CHECKSPACE c (6 + 64 + 1)
      (finish (chunk_appendBits (chunk_appendBits c 63 6)
                 (u64 doubleDelta) 64)).

Definition appendFloat (c : CompressedChunk) (value : Z)
  : ChunkResult * CompressedChunk :=
  let xorWithPrevious := Z.lxor value (prevValue c) in
  if xorWithPrevious =? 0 then
    (CR_OK, chunk_appendBits c 0 1)
  else
    let c1 := chunk_appendBits c 1 1 in
    let leading := LeadingZeros64 xorWithPrevious in
    let trailing := TrailingZeros64 xorWithPrevious in
    let leading := if 31 <? leading then 31 else leading in
    let prevLeading_ := prevLeading c1 in
    let prevTrailing_ := prevTrailing c1 in
    let blockSize := u8 (BINW - leading - trailing) in
    let expectedSize := u32 (DOUBLE_LEADING + DOUBLE_BLOCK_SIZE + blockSize) in
    let prevBlockInfoSize := u8 (BINW - prevLeading_ - prevTrailing_) in
    if (prevLeading c1 <=? leading) && (prevTrailing c1 <=? trailing) &&
       (prevBlockInfoSize <? expectedSize) then
      CHECKSPACE c1 (prevBlockInfoSize + 1)
        (let c2 := chunk_appendBits c1 0 1 in
         let c3 := chunk_appendBits c2
                     (Z.shiftr xorWithPrevious prevTrailing_)
                     prevBlockInfoSize in
         (CR_OK, set_prevValue c3 value))
    else
      CHECKSPACE c1 (expectedSize + 1)
        (let c2 := chunk_appendBits c1 1 1 in
         let c3 := chunk_appendBits c2 leading DOUBLE_LEADING in
         let c4 := chunk_appendBits c3 (u64 (blockSize - DOUBLE_BLOCK_ADJUST))
                     DOUBLE_BLOCK_SIZE in
         let c5 := chunk_appendBits c4 (Z.shiftr xorWithPrevious trailing)
                     blockSize in
         (CR_OK, set_prevValue (set_window c5 (u8 leading) (u8 trailing)) value)).

Definition Compressed_Append (c : CompressedChunk) (timestamp value : Z)
  : ChunkResult * CompressedChunk :=
  if numSamples c =? 0 then
    (CR_OK, set_numSamples (set_first_sample c timestamp value)
              (u64 (numSamples c + 1)))
  else
    let idx_ := idx c in
    let prevTimestamp_ := prevTimestamp c in
    let prevTimestampDelta_ := prevTimestampDelta c in
    let rollback (c' : CompressedChunk) :=
      (CR_END,
       set_timestamp_state (set_idx c' idx_) prevTimestamp_ prevTimestampDelta_) in
    let '(r1, c1) := appendInteger c timestamp in
    if negb (ChunkResult_eqb r1 CR_OK) then rollback c1
    else
      let '(r2, c2) := appendFloat c1 value in
      if negb (ChunkResult_eqb r2 CR_OK) then rollback c2
      else (CR_OK, set_numSamples c2 (u64 (numSamples c2 + 1))).

(** *** Read *)

Definition set_it_idx (it : Compressed_Iterator) (i : Z) : Compressed_Iterator :=
  mkIter i (it_count it) (it_prevTS it) (it_prevDelta it) (it_prevValue it)
         (it_prevLeading it) (it_prevTrailing it).

(** [readInteger(iter)] on the bins of the iterator's chunk: the decoded
    timestamp and the updated iterator.  Every prefix probe reads the bit
    under the cursor and then advances the cursor, whatever it finds. *)
Definition readInteger (bins : bins_t) (it : Compressed_Iterator)
  : Z * Compressed_Iterator :=
  let rd (bit w : Z) : Z * Z :=
    let '(b, bit') := readBits bins bit w in (bin2int b w, bit') in
  let b0 := it_idx it in
  let b1 := u64 (b0 + 1) in
  let b2 := u64 (b1 + 1) in
  let b3 := u64 (b2 + 1) in
  let b4 := u64 (b3 + 1) in
  let b5 := u64 (b4 + 1) in
  let b6 := u64 (b5 + 1) in
  let '(dd, bit) :=
    if Bins_bitoff bins b0 then (0, b1)
    else if Bins_bitoff bins b1 then rd b2 CMPR_L1
    else if Bins_bitoff bins b2 then rd b3 CMPR_L2
    else if Bins_bitoff bins b3 then rd b4 CMPR_L3
    else if Bins_bitoff bins b4 then rd b5 CMPR_L4
    else if Bins_bitoff bins b5 then rd b6 CMPR_L5
    else let '(b, bit') := readBits bins b6 64 in (i64 b, bit') in
  let prevDelta := i64 (it_prevDelta it + dd) in
  let prevTS := u64 (it_prevTS it + prevDelta) in
  (prevTS,
   mkIter bit (it_count it) prevTS prevDelta (it_prevValue it)
          (it_prevLeading it) (it_prevTrailing it)).

Definition readFloat (bins : bins_t) (it : Compressed_Iterator)
  : Z * Compressed_Iterator :=
  let i0 := it_idx it in
  let i1 := u64 (i0 + 1) in
  if Bins_bitoff bins i0 then
    (it_prevValue it, set_it_idx it i1)
  else
    let usePreviousBlockInfo := Bins_bitoff bins i1 in
    let i2 := u64 (i1 + 1) in
    if usePreviousBlockInfo then
      let prevBlockInfo := u8 (BINW - it_prevLeading it - it_prevTrailing it) in
      let '(x, i3) := readBits bins i2 prevBlockInfo in
      let xorValue := u64 (Z.shiftl x (it_prevTrailing it)) in
      let rv := Z.lxor xorValue (it_prevValue it) in
      (rv, mkIter i3 (it_count it) (it_prevTS it) (it_prevDelta it) rv
                  (it_prevLeading it) (it_prevTrailing it))
    else
      let '(leading, i3) := readBits bins i2 DOUBLE_LEADING in
      let '(bs, i4) := readBits bins i3 DOUBLE_BLOCK_SIZE in
      let blocksize := u64 (bs + DOUBLE_BLOCK_ADJUST) in
      let trailing := u64 (BINW - leading - blocksize) in
      let '(x, i5) := readBits bins i4 blocksize in
      let xorValue := u64 (Z.shiftl x trailing) in
      let rv := Z.lxor xorValue (it_prevValue it) in
      (rv, mkIter i5 (it_count it) (it_prevTS it) (it_prevDelta it) rv
                  (u8 leading) (u8 trailing)).

(** [Compressed_ReadNext(iter, &timestamp, &value)]: the out-parameters are
    written only on [CR_OK]; they are returned as an option. *)
Definition Compressed_ReadNext (c : CompressedChunk) (it : Compressed_Iterator)
  : ChunkResult * option (Z * Z) * Compressed_Iterator :=
  if numSamples c <=? it_count it then (CR_END, None, it)
  else if it_count it =? 0 then
    (CR_OK, Some (baseTimestamp c, baseValue c),
     mkIter (it_idx it) (u64 (it_count it + 1)) (it_prevTS it) (it_prevDelta it)
            (it_prevValue it) (it_prevLeading it) (it_prevTrailing it))
  else
    let '(ts, it1) := readInteger (data c) it in
    let it1 := mkIter (it_idx it1) (it_count it1) ts (it_prevDelta it1)
                      (it_prevValue it1) (it_prevLeading it1)
                      (it_prevTrailing it1) in
    let '(v, it2) := readFloat (data c) it1 in
    (CR_OK, Some (ts, v),
     mkIter (it_idx it2) (u64 (it_count it2 + 1)) (it_prevTS it2)
            (it_prevDelta it2) v (it_prevLeading it2) (it_prevTrailing it2)).

(** *** Construction and drivers *)

(** Modelled from the spec: the chunk constructor is not part of the
    sources; section 6 asks for a chunk of capacity [C] bytes whose buffer
    is zero-initialized, and section 3 has [numSamples = 0] and [idx = 0]. *)
Definition Compressed_NewChunk (C : Z) : CompressedChunk :=
  mkChunk C 0 0 0 (fun _ => 0) 0 0 0 0 0 0 [].

(** Modelled from the spec: the iterator constructor is not part of the
    sources; section 3 creates the iterator at sample 0 with the cursor at
    bit 0 and the rolling state derived from the chunk's [baseTimestamp]
    and [baseValue], section 6 has [count = 0] and [idx = 0]; the window
    starts like that of a zero-initialized chunk. *)
Definition Compressed_NewChunkIterator (c : CompressedChunk)
  : Compressed_Iterator :=
  mkIter 0 0 (baseTimestamp c) 0 (baseValue c) 0 0.

(** Appends the samples in order; [None] as soon as one append does not
    return [CR_OK]. *)
Fixpoint append_all (c : CompressedChunk) (l : list (Z * Z))
  : option CompressedChunk :=
  match l with
  | [] => Some c
  | (ts, v) :: l' =>
      match Compressed_Append c ts v with
      | (CR_OK, c') => append_all c' l'
      | _ => None
      end
  end.

(** Calls [Compressed_ReadNext] up to [n] times and collects the samples it
    emits, stopping at the first result that is not [CR_OK]. *)
Fixpoint read_n (c : CompressedChunk) (it : Compressed_Iterator) (n : nat)
  : list (Z * Z) * Compressed_Iterator :=
  match n with
  | O => ([], it)
  | S n' =>
      match Compressed_ReadNext c it with
      | (CR_OK, Some s, it') =>
          let '(l, it'') := read_n c it' n' in (s :: l, it'')
      | (_, _, it') => ([], it')
      end
  end.

(** ** Specification vocabulary *)

(** Bits [g, g + n) of the buffer spell the low [n] bits of [d]. *)
Definition holds (B : bins_t) (g d n : Z) : Prop :=
  forall i, 0 <= i < n -> getbit B (g + i) = Z.testbit d i.

(** No bit at or beyond [g] is set. *)
Definition clean (B : bins_t) (g : Z) : Prop :=
  forall p, g <= p -> getbit B p = false.

(** A piece is a (data, length) pair handed to [appendBits]. *)
Definition piece_ok (pc : Z * Z) : Prop :=
  0 <= snd pc <= 64 /\ 0 <= fst pc < 2 ^ snd pc.

Fixpoint total (ps : list (Z * Z)) : Z :=
  match ps with
  | [] => 0
  | (_, n) :: r => n + total r
  end.

(** The pieces lie one after the other in the buffer, starting at [g]. *)
Fixpoint layout (B : bins_t) (g : Z) (ps : list (Z * Z)) : Prop :=
  match ps with
  | [] => True
  | (d, n) :: r => holds B g d n /\ layout B (g + n) r
  end.

(** Successive [appendBits] calls on a chunk. *)
Fixpoint emits (c : CompressedChunk) (ps : list (Z * Z)) : CompressedChunk :=
  match ps with
  | [] => c
  | (d, n) :: r => emits (chunk_appendBits c d n) r
  end.

(** The trace entries of successive calls starting at cursor [g], oldest
    first. *)
Fixpoint entries (g : Z) (ps : list (Z * Z)) : list (Z * Z * Z) :=
  match ps with
  | [] => []
  | (d, n) :: r => (g, d, n) :: entries (g + n) r
  end.

(** The fields of a chunk that [appendBits] never touches. *)
Definition same_header (c c' : CompressedChunk) : Prop :=
  size c' = size c /\ numSamples c' = numSamples c /\
  baseTimestamp c' = baseTimestamp c /\ baseValue c' = baseValue c /\
  prevTimestamp c' = prevTimestamp c /\
  prevTimestampDelta c' = prevTimestampDelta c /\
  prevValue c' = prevValue c /\
  prevLeading c' = prevLeading c /\ prevTrailing c' = prevTrailing c.

(** The delta-of-delta [appendInteger] computes for a timestamp. *)
Definition curDelta_of (c : CompressedChunk) (timestamp : Z) : Z :=
  u64 (timestamp - prevTimestamp c).

Definition doubleDelta_of (c : CompressedChunk) (timestamp : Z) : Z :=
  i64 (u64 (curDelta_of c timestamp - prevTimestampDelta c)).

(** The pieces [appendInteger] hands to [appendBits] for a delta-of-delta,
    read off its branches. *)
Definition int_code (dd : Z) : list (Z * Z) :=
  if dd =? 0 then [(0, 1)]
  else if Bin_InRange dd CMPR_L1 then [(1, 2); (int2bin dd CMPR_L1, CMPR_L1)]
  else if Bin_InRange dd CMPR_L2 then [(3, 3); (int2bin dd CMPR_L2, CMPR_L2)]
  else if Bin_InRange dd CMPR_L3 then [(7, 4); (int2bin dd CMPR_L3, CMPR_L3)]
  else if Bin_InRange dd CMPR_L4 then [(15, 5); (int2bin dd CMPR_L4, CMPR_L4)]
  else if Bin_InRange dd CMPR_L5 then [(31, 6); (int2bin dd CMPR_L5, CMPR_L5)]
  else [(63, 6); (u64 dd, 64)].

(** The window [appendFloat] computes for a non-zero XOR. *)
Definition leading_of (x : Z) : Z :=
  let leading := LeadingZeros64 x in
  if 31 <? leading then 31 else leading.

Definition trailing_of (x : Z) : Z := TrailingZeros64 x.

Definition blockSize_of (x : Z) : Z :=
  u8 (BINW - leading_of x - trailing_of x).

Definition expectedSize_of (x : Z) : Z :=
  u32 (DOUBLE_LEADING + DOUBLE_BLOCK_SIZE + blockSize_of x).

Definition prevBlockInfoSize_of (pl pt : Z) : Z := u8 (BINW - pl - pt).

(** The test of [appendFloat] that selects the reuse branch. *)
Definition reuse_test (pl pt x : Z) : bool :=
  (pl <=? leading_of x) && (pt <=? trailing_of x) &&
  (prevBlockInfoSize_of pl pt <? expectedSize_of x).

(** The pieces [appendFloat] hands to [appendBits] when every space check
    passes, read off its branches. *)
Definition float_code (pl pt x : Z) : list (Z * Z) :=
  if x =? 0 then [(0, 1)]
  else if reuse_test pl pt x then
    [(1, 1); (0, 1); (Z.shiftr x pt, prevBlockInfoSize_of pl pt)]
  else
    [(1, 1); (1, 1); (leading_of x, DOUBLE_LEADING);
     (u64 (blockSize_of x - DOUBLE_BLOCK_ADJUST), DOUBLE_BLOCK_SIZE);
     (Z.shiftr x (trailing_of x), blockSize_of x)].

(** The invariant of the data model (section 3): the cursor stays within
    the capacity, capacity in bits fits a u64, the rolling state holds
    64-bit patterns and a window. *)
Definition chunk_inv (c : CompressedChunk) : Prop :=
  0 <= idx c <= size c * 8 /\ size c * 8 < 2 ^ 64 /\
  0 <= prevValue c < 2 ^ 64 /\
  0 <= prevLeading c /\ 0 <= prevTrailing c.

(** The rolling state [appendFloat] leaves behind on success, applied to
    the chunk [e] that holds the emitted bits. *)
Definition float_post (c : CompressedChunk) (v : Z) (e : CompressedChunk)
  : CompressedChunk :=
  let x := Z.lxor v (prevValue c) in
  if x =? 0 then e
  else if reuse_test (prevLeading c) (prevTrailing c) x then set_prevValue e v
  else set_prevValue (set_window e (u8 (leading_of x)) (u8 (trailing_of x))) v.

(** The chunk [appendInteger] leaves behind on success. *)
Definition int_post (c : CompressedChunk) (ts : Z) : CompressedChunk :=
  set_timestamp_state (emits c (int_code (doubleDelta_of c ts)))
    ts (i64 (curDelta_of c ts)).

(** The rollback of [Compressed_Append] applied to the chunk [c'] reached
    from [c]. *)
Definition rollback (c c' : CompressedChunk) : CompressedChunk :=
  set_timestamp_state (set_idx c' (idx c)) (prevTimestamp c)
    (prevTimestampDelta c).

(** A recorded [appendBits] call that starts at or after [lo], ends at or
    before [hi], and whose data fits its length. *)
Definition write_within (lo hi : Z) (e : Z * Z * Z) : Prop :=
  let '(g, d, n) := e in
  lo <= g /\ 1 <= n /\ g + n <= hi /\ 0 <= d < 2 ^ n.

(** An 8-byte chunk that holds the single sample (0, 0.0). *)
Definition one_sample_chunk : CompressedChunk :=
  snd (Compressed_Append (Compressed_NewChunk 8) 0 0).

(** The chunk left behind by the append of (1, all-ones pattern) to
    [one_sample_chunk], which does not fit. *)
Definition failed_chunk : CompressedChunk :=
  snd (Compressed_Append one_sample_chunk 1 (2 ^ 64 - 1)).

(** ** The prefix table of the integer codec, as the specification gives it

    Rows are (prefix value, prefix length, payload width), in the order of
    the table of section 4.2; the prefix value is the prefix read as a
    binary numeral, written least significant bit first. *)
Definition prefix_table : list (Z * Z * Z) :=
  [(0, 1, 0); (1, 2, 5); (3, 3, 8); (7, 4, 11); (15, 5, 15); (31, 6, 32);
   (63, 6, 64)].

(** The signed range of a row: {0} for width 0, [-2^(w-1), 2^(w-1) - 1]
    otherwise. *)
Definition in_row (w dd : Z) : bool :=
  if w =? 0 then dd =? 0
  else (- 2 ^ (w - 1) <=? dd) && (dd <=? 2 ^ (w - 1) - 1).

(** What a row prescribes for a delta-of-delta: the prefix, then the low
    [w] bits of the two's-complement representation. *)
Definition row_code (row : Z * Z * Z) (dd : Z) : list (Z * Z) :=
  let '(pv, pl, w) := row in
  if w =? 0 then [(pv, pl)] else [(pv, pl); (dd mod 2 ^ w, w)].

(** ** The two encodings of a non-zero XOR, as the specification gives them

    After the flag bit 1 that says the value changed: reuse costs one bit
    plus the previous block width, a new window one bit plus 5 + 6 bits plus
    the block width of the XOR. *)
Definition reuse_bits (pl pt : Z) : Z := 1 + (64 - pl - pt).

Definition new_bits (x : Z) : Z := 1 + 5 + 6 + (64 - leading_of x - trailing_of x).

Definition reuse_code (pl pt x : Z) : list (Z * Z) :=
  [(1, 1); (0, 1); (Z.shiftr x pt, 64 - pl - pt)].

(** The reuse branch was taken by the value encoding that led from [c] to
    [c']: the calls recorded are those of the reuse encoding. *)
Definition wrote_reuse (c c' : CompressedChunk) (x : Z) : Prop :=
  trace c' =
  rev (entries (idx c) (reuse_code (prevLeading c) (prevTrailing c) x)) ++ trace c.

(** A 128-byte chunk that holds the single sample (0, 0.0). *)
Definition one_sample_chunk128 : CompressedChunk :=
  snd (Compressed_Append (Compressed_NewChunk 128) 0 0).

(** The 64-bit pattern of the double 5.0. *)
Definition bits_5_0 : Z := 0x4014000000000000.

(** The samples of scenario S2. *)
Definition s2_samples : list (Z * Z) :=
  [(1000, bits_5_0); (1010, bits_5_0); (1020, bits_5_0)].

(** The cursor after each append of a list of samples to a chunk, while
    the appends return [CR_OK]. *)
Fixpoint idx_after_each (c : CompressedChunk) (l : list (Z * Z)) : list Z :=
  match l with
  | [] => []
  | (ts, v) :: l' =>
      match Compressed_Append c ts v with
      | (CR_OK, c') => idx c' :: idx_after_each c' l'
      | _ => []
      end
  end.

(** Everything a fresh iterator on the chunk yields: the samples of up to
    [n] calls, and the result of one more call. *)
Definition iterate (c : CompressedChunk) (n : nat)
  : list (Z * Z) * ChunkResult :=
  let '(l, it) := read_n c (Compressed_NewChunkIterator c) n in
  (l, fst (fst (Compressed_ReadNext c it))).

(** An iterator created on the empty 128-byte chunk, and the chunk after
    the append of (1000, 5.0) that follows. *)
Definition early_iterator : Compressed_Iterator :=
  Compressed_NewChunkIterator (Compressed_NewChunk 128).

Definition chunk_1000 : CompressedChunk :=
  snd (Compressed_Append (Compressed_NewChunk 128) 1000 bits_5_0).

(** The window [appendFloat] leaves behind for a XOR [x], starting from
    the window [(pl, pt)]. *)
Definition window_after (pl pt x : Z) : Z * Z :=
  if x =? 0 then (pl, pt)
  else if reuse_test pl pt x then (pl, pt)
  else (u8 (leading_of x), u8 (trailing_of x)).

(** ** Vocabulary of the round trip *)

(** The iterator has read exactly what the chunk has encoded: its cursor and
    rolling state are those of the encoder. *)
Definition sync (c : CompressedChunk) (it : Compressed_Iterator) : Prop :=
  it_idx it = idx c /\ it_count it = numSamples c /\
  it_prevTS it = prevTimestamp c /\ it_prevDelta it = prevTimestampDelta c /\
  it_prevValue it = prevValue c /\
  it_prevLeading it = prevLeading c /\ it_prevTrailing it = prevTrailing c.

(** The invariant of a chunk that holds at least one sample and whose
    buffer was zero-initialized: nothing is set at or beyond the cursor, and
    every sample after the first has cost at least two bits. *)
Definition enc_inv (c : CompressedChunk) : Prop :=
  chunk_inv c /\ clean (data c) (idx c) /\ 1 <= numSamples c /\
  2 * (numSamples c - 1) <= idx c.

(** A sample is a 64-bit timestamp and a 64-bit pattern. *)
Definition sample_ok (s : Z * Z) : Prop :=
  0 <= fst s < 2 ^ 64 /\ 0 <= snd s < 2 ^ 64.

(** Timestamps that never go back. *)
Fixpoint nondecreasing (l : list Z) : Prop :=
  match l with
  | a :: (b :: _) as r => a <= b /\ nondecreasing r
  | _ => True
  end.

(** The chunk of scenario S2, after its three appends. *)
Definition s2_chunk : CompressedChunk :=
  match append_all (Compressed_NewChunk 128) s2_samples with
  | Some c => c
  | None => Compressed_NewChunk 128
  end.

(** ** Facts about the machine arithmetic *)

Lemma u64_range z : 0 <= u64 z < 2 ^ 64.
Proof. unfold u64. apply Z.mod_pos_bound. lia. Qed.

Lemma u64_small z : 0 <= z < 2 ^ 64 -> u64 z = z.
Proof. intros H. unfold u64. apply Z.mod_small. exact H. Qed.

Lemma i64_range z : - 2 ^ 63 <= i64 z < 2 ^ 63.
Proof.
  unfold i64. pose proof (Z.mod_pos_bound (z + 2 ^ 63) (2 ^ 64)). lia.
Qed.

Lemma i64_small z : - 2 ^ 63 <= z < 2 ^ 63 -> i64 z = z.
Proof. intros H. unfold i64. rewrite Z.mod_small; lia. Qed.

Lemma i64_u64 z : i64 (u64 z) = i64 z.
Proof.
  unfold i64, u64.
  rewrite Zplus_mod_idemp_l. reflexivity.
Qed.

Lemma u64_i64 z : u64 (i64 z) = u64 z.
Proof.
  unfold i64, u64.
  rewrite <- Zminus_mod_idemp_l.
  rewrite Z.mod_mod by lia.
  rewrite Zminus_mod_idemp_l.
  replace (z + 2 ^ 63 - 2 ^ 63) with z by lia. reflexivity.
Qed.

Lemma i64_congr a b : u64 a = u64 b -> i64 a = i64 b.
Proof. intros H. rewrite <- (i64_u64 a), <- (i64_u64 b), H. reflexivity. Qed.

Lemma u64_add_l a b : u64 (u64 a + b) = u64 (a + b).
Proof. unfold u64. apply Zplus_mod_idemp_l. Qed.

Lemma u64_add_r a b : u64 (a + u64 b) = u64 (a + b).
Proof. unfold u64. apply Zplus_mod_idemp_r. Qed.

Lemma u64_sub_l a b : u64 (u64 a - b) = u64 (a - b).
Proof. unfold u64. apply Zminus_mod_idemp_l. Qed.

Lemma u64_sub_r a b : u64 (a - u64 b) = u64 (a - b).
Proof. unfold u64. apply Zminus_mod_idemp_r. Qed.

Lemma BIT_pow2 n : 0 <= n <= 63 -> BIT n = 2 ^ n.
Proof.
  intros H. unfold BIT.
  destruct (63 <? n) eqn:E; [apply Z.ltb_lt in E; lia |].
  rewrite Z.shiftl_1_l. reflexivity.
Qed.

Lemma BIT_high n : 63 < n -> BIT n = 0.
Proof.
  intros H. unfold BIT. apply Z.ltb_lt in H. rewrite H. reflexivity.
Qed.

Lemma pow2_le_64 n : 0 <= n <= 64 -> 0 < 2 ^ n <= 2 ^ 64.
Proof.
  intros H. split; [apply Z.pow_pos_nonneg; lia |].
  apply Z.pow_le_mono_r; lia.
Qed.

Lemma MASK_ones n : 0 <= n <= 64 -> MASK n = Z.ones n.
Proof.
  intros H. unfold MASK. rewrite Z.ones_equiv.
  destruct (Z.eq_dec n 64) as [-> | Hn].
  - rewrite BIT_high by lia. reflexivity.
  - rewrite BIT_pow2 by lia.
    assert (0 < 2 ^ n < 2 ^ 64).
    { split; [apply Z.pow_pos_nonneg; lia |].
      apply Z.pow_lt_mono_r; lia. }
    rewrite u64_small; lia.
Qed.

Lemma LSB_mod x n : 0 <= n <= 64 -> LSB x n = x mod 2 ^ n.
Proof.
  intros H. unfold LSB. rewrite MASK_ones by exact H.
  apply Z.land_ones. lia.
Qed.

Lemma LSB_small x n : 0 <= n <= 64 -> 0 <= x < 2 ^ n -> LSB x n = x.
Proof. intros H Hx. rewrite LSB_mod by exact H. apply Z.mod_small. exact Hx. Qed.

Lemma LSB_range x n : 0 <= n <= 64 -> 0 <= LSB x n < 2 ^ n.
Proof.
  intros H. rewrite LSB_mod by exact H.
  apply Z.mod_pos_bound. apply Z.pow_pos_nonneg; lia.
Qed.

Lemma Bin_MaxVal_eq w : 1 <= w <= 64 -> Bin_MaxVal w = 2 ^ (w - 1) - 1.
Proof.
  intros H. unfold Bin_MaxVal.
  rewrite (u64_small (w - 1)) by lia.
  rewrite BIT_pow2 by lia.
  assert (0 < 2 ^ (w - 1) <= 2 ^ 63).
  { split; [apply Z.pow_pos_nonneg; lia | apply Z.pow_le_mono_r; lia]. }
  rewrite i64_u64. apply i64_small. lia.
Qed.

Lemma Bin_MinVal_eq w : 1 <= w <= 64 -> Bin_MinVal w = - 2 ^ (w - 1).
Proof.
  intros H. unfold Bin_MinVal.
  rewrite (u64_small (w - 1)) by lia.
  rewrite BIT_pow2 by lia.
  assert (0 < 2 ^ (w - 1) <= 2 ^ 63).
  { split; [apply Z.pow_pos_nonneg; lia | apply Z.pow_le_mono_r; lia]. }
  rewrite i64_u64. apply i64_small. lia.
Qed.

Lemma Bin_InRange_iff x w :
  1 <= w <= 64 ->
  Bin_InRange x w = true <-> - 2 ^ (w - 1) <= x <= 2 ^ (w - 1) - 1.
Proof.
  intros H. unfold Bin_InRange.
  rewrite Bin_MaxVal_eq, Bin_MinVal_eq by exact H.
  rewrite andb_true_iff, !Z.leb_le. reflexivity.
Qed.

(** Sign extension undoes the truncation on the signed range of the width. *)
Lemma bin2int_int2bin x w :
  1 <= w <= 63 ->
  - 2 ^ (w - 1) <= x <= 2 ^ (w - 1) - 1 ->
  bin2int (int2bin x w) w = x.
Proof.
  intros Hw Hx.
  assert (Hp : 0 < 2 ^ (w - 1) <= 2 ^ 62).
  { split; [apply Z.pow_pos_nonneg; lia | apply Z.pow_le_mono_r; lia]. }
  assert (Hpw : 2 ^ w = 2 * 2 ^ (w - 1)).
  { replace w with (1 + (w - 1)) at 1 by lia.
    rewrite Z.pow_add_r by lia. reflexivity. }
  unfold bin2int, int2bin.
  rewrite (u64_small (w - 1)) by lia.
  rewrite (BIT_pow2 (w - 1)), (BIT_pow2 w) by lia.
  rewrite LSB_mod by lia.
  assert (Hmm : u64 x mod 2 ^ w = x mod 2 ^ w).
  { unfold u64.
    replace (2 ^ 64) with (2 ^ w * 2 ^ (64 - w))
      by (rewrite <- Z.pow_add_r by lia; f_equal; lia).
    rewrite Z.rem_mul_r by lia.
    rewrite Z.mul_comm, Z_mod_plus_full.
    apply Z.mod_mod. lia. }
  rewrite Hmm.
  destruct (Z_lt_le_dec x 0) as [Hneg | Hpos].
  - assert (Hm : x mod 2 ^ w = x + 2 ^ w).
    { symmetry. apply Z.mod_unique with (q := -1); lia. }
    rewrite Hm.
    assert (Hb : Z.testbit (x + 2 ^ w) (w - 1) = true).
    { rewrite Z.testbit_true by lia.
      replace (x + 2 ^ w) with ((x + 2 ^ (w - 1)) + 1 * 2 ^ (w - 1)) by lia.
      rewrite Z.div_add by lia.
      rewrite Z.div_small by lia. reflexivity. }
    assert (Hl : Z.land (x + 2 ^ w) (2 ^ (w - 1)) <> 0).
    { intros E.
      assert (Z.testbit (Z.land (x + 2 ^ w) (2 ^ (w - 1))) (w - 1) = true).
      { rewrite Z.land_spec, Hb, Z.pow2_bits_true by lia. reflexivity. }
      rewrite E, Z.bits_0 in H. discriminate. }
    apply Z.eqb_neq in Hl. rewrite Hl.
    rewrite i64_u64.
    rewrite (i64_small (x + 2 ^ w)) by lia.
    replace (x + 2 ^ w - 2 ^ w) with x by lia.
    apply i64_small. lia.
  - rewrite Z.mod_small by lia.
    assert (Hl : Z.land x (2 ^ (w - 1)) = 0).
    { apply Z.bits_inj'. intros n Hn. rewrite Z.land_spec, Z.bits_0.
      destruct (Z.eq_dec n (w - 1)) as [-> | Hne].
      - assert (Z.testbit x (w - 1) = false).
        { apply Z.testbit_false; [lia |].
          rewrite Z.div_small by lia. reflexivity. }
        rewrite H. reflexivity.
      - rewrite Z.pow2_bits_false by lia. apply andb_false_r. }
    rewrite Hl. simpl. apply i64_small. lia.
Qed.

(** C8. For each bucket width w of the integer codec (5, 8, 11, 15, 32) and
    every delta-of-delta in the signed range of that width, decoding the low
    w bits written by [int2bin] with the sign extension of [bin2int] gives
    the delta-of-delta back. *)
Theorem C8_bin2int_int2bin_roundtrip (w dd : Z) :
  In w [CMPR_L1; CMPR_L2; CMPR_L3; CMPR_L4; CMPR_L5] ->
  - 2 ^ (w - 1) <= dd <= 2 ^ (w - 1) - 1 ->
  bin2int (int2bin dd w) w = dd.
Proof.
  intros Hin Hr. apply bin2int_int2bin; [| exact Hr].
  unfold CMPR_L1, CMPR_L2, CMPR_L3, CMPR_L4, CMPR_L5 in Hin.
  simpl in Hin. lia.
Qed.

Lemma C8_witness :
  In 8 [CMPR_L1; CMPR_L2; CMPR_L3; CMPR_L4; CMPR_L5] /\
  - 2 ^ (8 - 1) <= -7 <= 2 ^ (8 - 1) - 1 /\
  bin2int (int2bin (-7) 8) 8 = -7.
Proof.
  assert (Hin : In 8 [CMPR_L1; CMPR_L2; CMPR_L3; CMPR_L4; CMPR_L5]).
  { right. left. reflexivity. }
  assert (Hr : - 2 ^ (8 - 1) <= -7 <= 2 ^ (8 - 1) - 1) by (simpl; lia).
  split; [exact Hin | split; [exact Hr |]].
  exact (C8_bin2int_int2bin_roundtrip 8 (-7) Hin Hr).
Defined.

(** ** Facts about the bit buffer *)

Lemma u8_small z : 0 <= z < 256 -> u8 z = z.
Proof. intros H. unfold u8. apply Z.mod_small. simpl. lia. Qed.

Lemma testbit_u64_low x m : 0 <= m < 64 -> Z.testbit (u64 x) m = Z.testbit x m.
Proof. intros H. unfold u64. apply Z.mod_pow2_bits_low. lia. Qed.

Lemma testbit_u64_high x m : 64 <= m -> Z.testbit (u64 x) m = false.
Proof. intros H. unfold u64. apply Z.mod_pow2_bits_high. lia. Qed.

Lemma testbit_small d n i : 0 <= n -> 0 <= d < 2 ^ n -> n <= i -> Z.testbit d i = false.
Proof.
  intros Hn Hd Hi.
  rewrite <- (Z.mod_small d (2 ^ n)) by exact Hd.
  apply Z.mod_pow2_bits_high. lia.
Qed.

Lemma testbit_LSB x n i :
  0 <= n <= 64 -> 0 <= i ->
  Z.testbit (LSB x n) i = (i <? n) && Z.testbit x i.
Proof.
  intros Hn Hi. rewrite LSB_mod by exact Hn.
  destruct (i <? n) eqn:E.
  - apply Z.ltb_lt in E. cbn [fst snd andb orb negb]. apply Z.mod_pow2_bits_low. lia.
  - apply Z.ltb_ge in E. cbn [fst snd andb orb negb]. apply Z.mod_pow2_bits_high. lia.
Qed.

Lemma divmod64 k r : 0 <= r < 64 -> (64 * k + r) / 64 = k /\ (64 * k + r) mod 64 = r.
Proof.
  intros H. split.
  - symmetry. apply Z.div_unique with (r := r); lia.
  - symmetry. apply Z.mod_unique with (q := k); lia.
Qed.

Lemma split64 g : g = 64 * (g / 64) + g mod 64 /\ 0 <= g mod 64 < 64.
Proof.
  split; [apply Z.div_mod; lia | apply Z.mod_pos_bound; lia].
Qed.

Lemma getbit_at B k r : 0 <= r < 64 -> getbit B (64 * k + r) = Z.testbit (B k) r.
Proof.
  intros H. unfold getbit. destruct (divmod64 k r H) as [-> ->]. reflexivity.
Qed.

Lemma bins_set_same B k w : bins_set B k w k = w.
Proof. unfold bins_set. rewrite Z.eqb_refl. reflexivity. Qed.

Lemma bins_set_other B k w j : j <> k -> bins_set B k w j = B j.
Proof. intros H. unfold bins_set. apply Z.eqb_neq in H. rewrite H. reflexivity. Qed.

Lemma Bins_bitoff_getbit B g : Bins_bitoff B g = negb (getbit B g).
Proof.
  unfold Bins_bitoff, getbit, localbit, BINW, BIN_NUM_VALUES.
  destruct (split64 g) as [_ Hr].
  set (w := B (g / 64)). set (m := g mod 64) in *.
  rewrite BIT_pow2 by lia.
  destruct (Z.testbit w m) eqn:E; cbn [fst snd andb orb negb].
  - apply Z.eqb_neq. intros H.
    assert (Ht : Z.testbit (Z.land w (2 ^ m)) m = true).
    { rewrite Z.land_spec, E, Z.pow2_bits_true by lia. reflexivity. }
    rewrite H, Z.bits_0 in Ht. discriminate.
  - apply Z.eqb_eq. apply Z.bits_inj'. intros n Hn.
    rewrite Z.land_spec, Z.bits_0.
    destruct (Z.eq_dec n m) as [-> | Hne].
    + rewrite E. reflexivity.
    + rewrite Z.pow2_bits_false by lia. apply andb_false_r.
Qed.

Lemma appendBits_cursor B g d n :
  0 <= n <= 64 -> 0 <= g -> g + n < 2 ^ 64 ->
  snd (appendBits B g d n) = g + n.
Proof.
  intros Hn Hg Hb. unfold appendBits.
  rewrite (u8_small n) by lia.
  destruct (n <=? BINW - localbit g); cbn [fst snd andb orb negb]; apply u64_small; lia.
Qed.

Lemma readBits_cursor B g n :
  0 <= n <= 64 -> 0 <= g -> g + n < 2 ^ 64 ->
  snd (readBits B g n) = g + n.
Proof.
  intros Hn Hg Hb. unfold readBits.
  rewrite (u8_small n) by lia.
  destruct (n <=? BINW - localbit g); cbn [fst snd andb orb negb]; apply u64_small; lia.
Qed.

(** Bits below the cursor survive an append, whatever is appended. *)
Lemma appendBits_below B g d n p :
  0 <= p < g ->
  getbit (fst (appendBits B g d n)) p = getbit B p.
Proof.
  intros Hp. unfold appendBits, localbit, BINW, BIN_NUM_VALUES.
  destruct (split64 g) as [Eg Hg]. destruct (split64 p) as [Ep Hpm].
  set (k := g / 64) in *. set (lbit := g mod 64) in *.
  assert (Hk : p / 64 <= k) by lia.
  assert (Hlow : forall x, p / 64 = k ->
            Z.testbit (Z.lor (B k) (u64 (Z.shiftl x lbit))) (p mod 64)
            = Z.testbit (B k) (p mod 64)).
  { intros x Hq. rewrite Z.lor_spec, testbit_u64_low by lia.
    rewrite Z.shiftl_spec by lia.
    rewrite (Z.testbit_neg_r x) by lia. apply orb_false_r. }
  destruct (u8 n <=? 64 - lbit); cbn [fst snd andb orb negb]; unfold getbit.
  - destruct (Z.eq_dec (p / 64) k) as [Hq | Hq].
    + rewrite Hq, bins_set_same. apply Hlow. exact Hq.
    + rewrite bins_set_other by exact Hq. reflexivity.
  - rewrite (bins_set_other _ (k + 1)) by lia.
    destruct (Z.eq_dec (p / 64) k) as [Hq | Hq].
    + rewrite Hq, bins_set_same. apply Hlow. exact Hq.
    + rewrite bins_set_other by exact Hq. reflexivity.
Qed.

(** An append of a value that fits its length ORs exactly that value into
    the buffer at the cursor. *)
Lemma appendBits_getbit B g d n p :
  0 <= g -> 0 <= n <= 64 -> 0 <= d < 2 ^ n -> 0 <= p ->
  getbit (fst (appendBits B g d n)) p = getbit B p || Z.testbit d (p - g).
Proof.
  intros Hg0 Hn Hd Hp0.
  destruct (Z_lt_le_dec p g) as [Hlt | Hge].
  { rewrite appendBits_below by lia.
    rewrite (Z.testbit_neg_r d) by lia. symmetry. apply orb_false_r. }
  unfold appendBits, localbit, BINW, BIN_NUM_VALUES.
  rewrite (u8_small n) by lia.
  destruct (split64 g) as [Eg Hg]. destruct (split64 p) as [Ep Hpm].
  set (k := g / 64) in *. set (lbit := g mod 64) in *.
  set (q := p / 64) in *. set (m := p mod 64) in *.
  assert (Hq : k <= q) by lia.
  destruct (n <=? 64 - lbit) eqn:E; cbn [fst snd andb orb negb]; unfold getbit; fold q; fold m.
  - apply Z.leb_le in E.
    rewrite LSB_small by lia.
    destruct (Z.eq_dec q k) as [Hqk | Hqk].
    + rewrite Hqk, bins_set_same, Z.lor_spec, testbit_u64_low by lia.
      rewrite Z.shiftl_spec by lia. do 2 f_equal. lia.
    + rewrite bins_set_other by exact Hqk.
      rewrite (testbit_small d n) by lia. symmetry. apply orb_false_r.
  - apply Z.leb_gt in E.
    assert (Hsr : 0 <= Z.shiftr d (64 - lbit) < 2 ^ lbit).
    { rewrite Z.shiftr_div_pow2 by lia. split.
      - apply Z.div_pos; [lia | apply Z.pow_pos_nonneg; lia].
      - apply Z.div_lt_upper_bound; [apply Z.pow_pos_nonneg; lia |].
        rewrite <- Z.pow_add_r by lia.
        replace (64 - lbit + lbit) with 64 by lia.
        assert (2 ^ n <= 2 ^ 64) by (apply Z.pow_le_mono_r; lia). lia. }
    rewrite LSB_small by lia.
    destruct (Z.eq_dec q (k + 1)) as [Hq1 | Hq1].
    + rewrite Hq1, bins_set_same, bins_set_other by lia.
      rewrite Z.lor_spec, Z.shiftr_spec by lia. do 2 f_equal. lia.
    + rewrite bins_set_other by exact Hq1.
      destruct (Z.eq_dec q k) as [Hqk | Hqk].
      * rewrite Hqk, bins_set_same, Z.lor_spec, testbit_u64_low by lia.
        rewrite Z.shiftl_spec by lia. do 2 f_equal. lia.
      * rewrite bins_set_other by exact Hqk.
        rewrite (testbit_small d n) by lia. symmetry. apply orb_false_r.
Qed.

(** The bits read are the buffer bits from the cursor on, and nothing
    above the requested length. *)
Lemma readBits_testbit B g n i :
  0 <= g -> 0 <= n <= 64 -> 0 <= i ->
  Z.testbit (fst (readBits B g n)) i = (i <? n) && getbit B (g + i).
Proof.
  intros Hg0 Hn Hi.
  unfold readBits, localbit, BINW, BIN_NUM_VALUES.
  rewrite (u8_small n) by lia.
  destruct (split64 g) as [Eg Hg].
  set (k := g / 64) in *. set (lbit := g mod 64) in *.
  destruct (n <=? 64 - lbit) eqn:E; cbn [fst snd andb orb negb].
  - apply Z.leb_le in E. rewrite testbit_LSB by lia.
    destruct (i <? n) eqn:Ei; cbn [fst snd andb orb negb]; [| reflexivity].
    apply Z.ltb_lt in Ei. rewrite Z.shiftr_spec by lia.
    rewrite Eg. replace (64 * k + lbit + i) with (64 * k + (i + lbit)) by lia.
    rewrite getbit_at by lia. reflexivity.
  - apply Z.leb_gt in E.
    rewrite (u8_small (n - (64 - lbit))) by lia.
    rewrite Z.lor_spec, testbit_LSB by lia.
    destruct (Z_lt_le_dec i (64 - lbit)) as [Hlo | Hhi].
    + assert (E1 : (i <? 64 - lbit) = true) by (apply Z.ltb_lt; lia).
      assert (E2 : (i <? n) = true) by (apply Z.ltb_lt; lia).
      rewrite E1, E2, testbit_u64_low by lia.
      rewrite Z.shiftl_spec by lia.
      rewrite (Z.testbit_neg_r _ (i - (64 - lbit))) by lia.
      rewrite orb_false_r. cbn [fst snd andb orb negb]. rewrite Z.shiftr_spec by lia.
      rewrite Eg. replace (64 * k + lbit + i) with (64 * k + (i + lbit)) by lia.
      rewrite getbit_at by lia. reflexivity.
    + assert (E1 : (i <? 64 - lbit) = false) by (apply Z.ltb_ge; lia).
      rewrite E1. cbn [fst snd andb orb negb].
      destruct (Z_lt_le_dec i 64) as [H64 | H64].
      * rewrite testbit_u64_low by lia. rewrite Z.shiftl_spec by lia.
        rewrite testbit_LSB by lia.
        replace (i - (64 - lbit) <? n - (64 - lbit)) with (i <? n).
        2:{ destruct (i <? n) eqn:Ei; symmetry;
            [apply Z.ltb_lt; apply Z.ltb_lt in Ei | apply Z.ltb_ge; apply Z.ltb_ge in Ei]; lia. }
        f_equal. rewrite Eg.
        replace (64 * k + lbit + i) with (64 * (k + 1) + (i - (64 - lbit))) by lia.
        rewrite getbit_at by lia. reflexivity.
      * rewrite testbit_u64_high by lia.
        assert (E2 : (i <? n) = false) by (apply Z.ltb_ge; lia).
        rewrite E2. reflexivity.
Qed.

Lemma readBits_range B g n :
  0 <= g -> 0 <= n <= 64 -> 0 <= fst (readBits B g n) < 2 ^ n.
Proof.
  intros Hg Hn.
  assert (Hnn : 0 <= fst (readBits B g n)).
  { apply Z.bits_iff_nonneg_ex. exists 64. intros m Hm.
    rewrite readBits_testbit by lia.
    assert (E : (m <? n) = false) by (apply Z.ltb_ge; lia).
    rewrite E. reflexivity. }
  split; [exact Hnn |].
  destruct (Z.eq_dec (fst (readBits B g n)) 0) as [-> | Hne].
  - apply Z.pow_pos_nonneg; lia.
  - apply Z.log2_lt_pow2; [lia |].
    destruct (Z_lt_le_dec (Z.log2 (fst (readBits B g n))) n) as [Hl | Hl]; [exact Hl |].
    exfalso.
    assert (Hb : Z.testbit (fst (readBits B g n)) (Z.log2 (fst (readBits B g n))) = true)
      by (apply Z.bit_log2; lia).
    rewrite readBits_testbit in Hb by lia.
    assert (E : (Z.log2 (fst (readBits B g n)) <? n) = false) by (apply Z.ltb_ge; lia).
    rewrite E in Hb. discriminate.
Qed.

Lemma readBits_holds B g d n :
  0 <= g -> 0 <= n <= 64 -> 0 <= d < 2 ^ n -> holds B g d n ->
  fst (readBits B g n) = d.
Proof.
  intros Hg Hn Hd Hh. apply Z.bits_inj'. intros i Hi.
  rewrite readBits_testbit by lia.
  destruct (i <? n) eqn:E; cbn [fst snd andb orb negb].
  - apply Z.ltb_lt in E. apply Hh. lia.
  - apply Z.ltb_ge in E. symmetry. apply (testbit_small d n); lia.
Qed.

(** ** Leading and trailing zeros *)

Lemma LeadingZeros64_range x :
  0 < x < 2 ^ 64 -> 0 <= LeadingZeros64 x <= 63.
Proof.
  intros H. unfold LeadingZeros64.
  assert (0 <= Z.log2 x) by apply Z.log2_nonneg.
  assert (Z.log2 x < 64) by (apply Z.log2_lt_pow2; lia).
  lia.
Qed.

Lemma LeadingZeros64_bound x :
  0 < x < 2 ^ 64 -> x < 2 ^ (64 - LeadingZeros64 x).
Proof.
  intros H. unfold LeadingZeros64.
  replace (64 - (63 - Z.log2 x)) with (Z.succ (Z.log2 x)) by lia.
  apply Z.log2_spec. lia.
Qed.

Lemma pos_ctz_nonneg p : 0 <= pos_ctz p.
Proof. induction p; cbn [pos_ctz]; lia. Qed.

Lemma pos_ctz_low p i : 0 <= i < pos_ctz p -> Z.testbit (Zpos p) i = false.
Proof.
  revert i. induction p as [p IH | p IH |]; intros i Hi; cbn [pos_ctz] in Hi; try lia.
  destruct (Z.eq_dec i 0) as [-> | Hne]; [reflexivity |].
  replace i with (Z.succ (i - 1)) by lia.
  change (Zpos p~0) with (2 * Zpos p).
  rewrite Z.testbit_even_succ by lia. apply IH. lia.
Qed.

Lemma pos_ctz_set p : Z.testbit (Zpos p) (pos_ctz p) = true.
Proof.
  induction p as [p IH | p IH |]; cbn [pos_ctz]; try reflexivity.
  replace (1 + pos_ctz p) with (Z.succ (pos_ctz p)) by lia.
  change (Zpos p~0) with (2 * Zpos p).
  rewrite Z.testbit_even_succ by apply pos_ctz_nonneg. exact IH.
Qed.

Lemma TrailingZeros64_low x i :
  0 < x -> 0 <= i < TrailingZeros64 x -> Z.testbit x i = false.
Proof.
  intros Hx Hi. destruct x as [| p | p]; try lia.
  apply pos_ctz_low. exact Hi.
Qed.

Lemma TrailingZeros64_range x :
  0 < x -> 0 <= TrailingZeros64 x <= Z.log2 x.
Proof.
  intros Hx. destruct x as [| p | p]; try lia.
  split; [apply pos_ctz_nonneg |].
  destruct (Z_lt_le_dec (Z.log2 (Zpos p)) (pos_ctz p)) as [Hlt | Hle]; [| exact Hle].
  exfalso.
  assert (Hb : Z.testbit (Zpos p) (pos_ctz p) = true) by apply pos_ctz_set.
  rewrite Z.bits_above_log2 in Hb by lia. discriminate.
Qed.

(** Shifting out at most the trailing zeros loses nothing. *)
Lemma shift_back x t :
  0 < x -> 0 <= t <= TrailingZeros64 x -> Z.shiftl (Z.shiftr x t) t = x.
Proof.
  intros Hx Ht. apply Z.bits_inj'. intros i Hi.
  rewrite Z.shiftl_spec by lia.
  destruct (Z_lt_le_dec i t) as [Hlt | Hge].
  - rewrite Z.testbit_neg_r by lia. symmetry.
    apply TrailingZeros64_low; lia.
  - rewrite Z.shiftr_spec by lia. f_equal. lia.
Qed.

Lemma shiftr_bound x t k :
  0 <= t -> 0 <= k -> 0 <= x < 2 ^ (k + t) -> 0 <= Z.shiftr x t < 2 ^ k.
Proof.
  intros Ht Hk Hx. rewrite Z.shiftr_div_pow2 by lia.
  assert (0 < 2 ^ t) by (apply Z.pow_pos_nonneg; lia).
  split; [apply Z.div_pos; lia |].
  apply Z.div_lt_upper_bound; [lia |].
  rewrite <- Z.pow_add_r by lia. rewrite Z.add_comm. lia.
Qed.

Lemma lxor_u64 a b : 0 <= a < 2 ^ 64 -> 0 <= b < 2 ^ 64 -> 0 <= Z.lxor a b < 2 ^ 64.
Proof.
  intros Ha Hb.
  assert (Hnn : 0 <= Z.lxor a b) by (apply Z.lxor_nonneg; lia).
  split; [exact Hnn |].
  destruct (Z.eq_dec (Z.lxor a b) 0) as [-> | Hne]; [lia |].
  apply Z.log2_lt_pow2; [lia |].
  assert (Hl := Z.log2_lxor a b (proj1 Ha) (proj1 Hb)).
  assert (Z.log2 a < 64).
  { destruct (Z.eq_dec a 0) as [-> | ?]; [simpl; lia | apply Z.log2_lt_pow2; lia]. }
  assert (Z.log2 b < 64).
  { destruct (Z.eq_dec b 0) as [-> | ?]; [simpl; lia | apply Z.log2_lt_pow2; lia]. }
  lia.
Qed.

Lemma lxor_cancel a b : Z.lxor (Z.lxor a b) b = a.
Proof. rewrite Z.lxor_assoc, Z.lxor_nilpotent. apply Z.lxor_0_r. Qed.

(** ** Facts about appends on a chunk *)

Lemma data_cab c d n :
  data (chunk_appendBits c d n) = fst (appendBits (data c) (idx c) d n).
Proof. unfold chunk_appendBits. destruct (appendBits _ _ _ _). reflexivity. Qed.

Lemma idx_cab c d n :
  idx (chunk_appendBits c d n) = snd (appendBits (data c) (idx c) d n).
Proof. unfold chunk_appendBits. destruct (appendBits _ _ _ _). reflexivity. Qed.

Lemma trace_cab c d n :
  trace (chunk_appendBits c d n) = (idx c, d, n) :: trace c.
Proof. unfold chunk_appendBits. destruct (appendBits _ _ _ _). reflexivity. Qed.

Lemma header_cab c d n : same_header c (chunk_appendBits c d n).
Proof.
  unfold chunk_appendBits, same_header. destruct (appendBits _ _ _ _).
  simpl. repeat split.
Qed.

Lemma same_header_refl c : same_header c c.
Proof. unfold same_header. repeat split. Qed.

Lemma same_header_trans a b c :
  same_header a b -> same_header b c -> same_header a c.
Proof.
  unfold same_header.
  intros (?&?&?&?&?&?&?&?&?) (?&?&?&?&?&?&?&?&?).
  repeat split; congruence.
Qed.

Lemma total_nonneg ps : Forall piece_ok ps -> 0 <= total ps.
Proof.
  induction 1 as [| [d n] r [Hn _] _ IH]; simpl in *; lia.
Qed.

(** What a run of well-formed appends does to a chunk. *)
Lemma emits_spec ps : forall c,
  0 <= idx c -> Forall piece_ok ps -> idx c + total ps < 2 ^ 64 ->
  idx (emits c ps) = idx c + total ps /\
  trace (emits c ps) = rev (entries (idx c) ps) ++ trace c /\
  same_header c (emits c ps) /\
  (forall p, 0 <= p < idx c -> getbit (data (emits c ps)) p = getbit (data c) p) /\
  (forall p, idx c + total ps <= p ->
             getbit (data (emits c ps)) p = getbit (data c) p) /\
  (clean (data c) (idx c) -> layout (data (emits c ps)) (idx c) ps).
Proof.
  induction ps as [| [d n] r IH]; intros c Hi Hok Hb.
  - simpl. rewrite Z.add_0_r.
    repeat split; auto using same_header_refl.
  - inversion Hok as [| ? ? Hp Hr]; subst.
    destruct Hp as [Hn Hd]. simpl in Hn, Hd.
    assert (Htr := total_nonneg r Hr).
    simpl total in *. simpl emits.
    set (c1 := chunk_appendBits c d n).
    assert (Hi1 : idx c1 = idx c + n).
    { unfold c1. rewrite idx_cab. apply appendBits_cursor; lia. }
    assert (Hg1 : forall p, 0 <= p ->
              getbit (data c1) p = getbit (data c) p || Z.testbit d (p - idx c)).
    { intros p Hp. unfold c1. rewrite data_cab. apply appendBits_getbit; lia. }
    destruct (IH c1) as (I1 & I2 & I3 & I4 & I5 & I6); [lia | exact Hr | lia |].
    split; [lia |]. split.
    { rewrite I2. unfold c1 at 2. rewrite trace_cab, Hi1. simpl entries.
      simpl rev. rewrite <- app_assoc. reflexivity. }
    split.
    { eapply same_header_trans; [apply header_cab | exact I3]. }
    split.
    { intros p Hp. rewrite I4 by lia. rewrite Hg1 by lia.
      rewrite (Z.testbit_neg_r d) by lia. apply orb_false_r. }
    split.
    { intros p Hp. rewrite I5 by lia. rewrite Hg1 by lia.
      rewrite (testbit_small d n) by lia. apply orb_false_r. }
    intros Hc. simpl layout. split.
    + intros i Hi'. rewrite I4 by lia. rewrite Hg1 by lia.
      rewrite Hc by lia. simpl. f_equal. lia.
    + rewrite <- Hi1. apply I6.
      intros p Hp. rewrite Hg1 by lia. rewrite Hc by lia.
      rewrite (testbit_small d n) by lia. reflexivity.
Qed.

Lemma layout_transfer ps : forall B B' g,
  Forall piece_ok ps ->
  (forall p, g <= p < g + total ps -> getbit B' p = getbit B p) ->
  layout B g ps -> layout B' g ps.
Proof.
  induction ps as [| [d n] r IH]; intros B B' g Hok Hag Hl; [exact I |].
  inversion Hok as [| ? ? Hp Hr]; subst. destruct Hp as [Hn _]. simpl in Hn.
  assert (Htr := total_nonneg r Hr).
  simpl in *. destruct Hl as [Hh Hl]. split.
  - intros i Hi. rewrite Hag by lia. apply Hh. exact Hi.
  - apply (IH B); [exact Hr | | exact Hl].
    intros p Hp. apply Hag. lia.
Qed.

(** ** The encoder, branch by branch *)

Lemma appendInteger_eq c ts :
  appendInteger c ts =
  CHECKSPACE c (total (int_code (doubleDelta_of c ts)) + 1)
    (CR_OK, set_timestamp_state (emits c (int_code (doubleDelta_of c ts)))
              ts (i64 (curDelta_of c ts))).
Proof.
  unfold appendInteger, int_code.
  fold (curDelta_of c ts). fold (doubleDelta_of c ts).
  destruct (doubleDelta_of c ts =? 0); [reflexivity |].
  destruct (Bin_InRange (doubleDelta_of c ts) CMPR_L1); [reflexivity |].
  destruct (Bin_InRange (doubleDelta_of c ts) CMPR_L2); [reflexivity |].
  destruct (Bin_InRange (doubleDelta_of c ts) CMPR_L3); [reflexivity |].
  destruct (Bin_InRange (doubleDelta_of c ts) CMPR_L4); [reflexivity |].
  destruct (Bin_InRange (doubleDelta_of c ts) CMPR_L5); reflexivity.
Qed.

Lemma appendFloat_zero c v :
  Z.lxor v (prevValue c) = 0 ->
  appendFloat c v = (CR_OK, emits c (float_code (prevLeading c) (prevTrailing c) 0)).
Proof.
  intros H. unfold appendFloat. rewrite H. reflexivity.
Qed.

Lemma appendFloat_reuse c v :
  let x := Z.lxor v (prevValue c) in
  x <> 0 -> reuse_test (prevLeading c) (prevTrailing c) x = true ->
  appendFloat c v =
  CHECKSPACE (chunk_appendBits c 1 1)
    (prevBlockInfoSize_of (prevLeading c) (prevTrailing c) + 1)
    (CR_OK, set_prevValue
              (emits c (float_code (prevLeading c) (prevTrailing c) x)) v).
Proof.
  intros x Hx Hr. unfold appendFloat, float_code. fold x.
  apply Z.eqb_neq in Hx. rewrite Hx.
  destruct (header_cab c 1 1) as (_&_&_&_&_&_&_&Hl&Ht).
  rewrite Hl, Ht.
  fold (leading_of x). fold (trailing_of x). fold (blockSize_of x).
  fold (expectedSize_of x).
  fold (prevBlockInfoSize_of (prevLeading c) (prevTrailing c)).
  fold (reuse_test (prevLeading c) (prevTrailing c) x).
  rewrite Hr. reflexivity.
Qed.

Lemma appendFloat_new c v :
  let x := Z.lxor v (prevValue c) in
  x <> 0 -> reuse_test (prevLeading c) (prevTrailing c) x = false ->
  appendFloat c v =
  CHECKSPACE (chunk_appendBits c 1 1) (expectedSize_of x + 1)
    (CR_OK, set_prevValue
              (set_window
                 (emits c (float_code (prevLeading c) (prevTrailing c) x))
                 (u8 (leading_of x)) (u8 (trailing_of x))) v).
Proof.
  intros x Hx Hr. unfold appendFloat, float_code. fold x.
  apply Z.eqb_neq in Hx. rewrite Hx.
  destruct (header_cab c 1 1) as (_&_&_&_&_&_&_&Hl&Ht).
  rewrite Hl, Ht.
  fold (leading_of x). fold (trailing_of x). fold (blockSize_of x).
  fold (expectedSize_of x).
  fold (prevBlockInfoSize_of (prevLeading c) (prevTrailing c)).
  fold (reuse_test (prevLeading c) (prevTrailing c) x).
  rewrite Hr. reflexivity.
Qed.

(** ** The pieces are well formed *)

Lemma u32_small z : 0 <= z < 2 ^ 32 -> u32 z = z.
Proof. intros H. unfold u32. apply Z.mod_small. exact H. Qed.

Lemma doubleDelta_of_range c ts : - 2 ^ 63 <= doubleDelta_of c ts < 2 ^ 63.
Proof. unfold doubleDelta_of. apply i64_range. Qed.

Lemma int2bin_range x w : 0 <= w <= 64 -> 0 <= int2bin x w < 2 ^ w.
Proof. intros H. unfold int2bin. apply LSB_range. exact H. Qed.

Ltac unfold_consts :=
  unfold CMPR_L1, CMPR_L2, CMPR_L3, CMPR_L4, CMPR_L5, DOUBLE_LEADING,
    DOUBLE_BLOCK_SIZE, DOUBLE_BLOCK_ADJUST, BINW, BIN_NUM_VALUES in *.

Ltac forall_pieces := repeat (first [apply Forall_nil | apply Forall_cons]).

Ltac piece_const := unfold piece_ok; cbn [fst snd]; split; [lia | split; [lia | reflexivity]].

Lemma int_code_ok dd : Forall piece_ok (int_code dd).
Proof.
  assert (Hw : forall w, 0 <= w <= 64 -> piece_ok (int2bin dd w, w)).
  { intros w H. split; cbn [fst snd]; [exact H | apply int2bin_range; exact H]. }
  unfold int_code.
  destruct (dd =? 0).
  { forall_pieces; piece_const. }
  destruct (Bin_InRange dd CMPR_L1).
  { forall_pieces; [piece_const | apply Hw; unfold CMPR_L1; lia]. }
  destruct (Bin_InRange dd CMPR_L2).
  { forall_pieces; [piece_const | apply Hw; unfold CMPR_L2; lia]. }
  destruct (Bin_InRange dd CMPR_L3).
  { forall_pieces; [piece_const | apply Hw; unfold CMPR_L3; lia]. }
  destruct (Bin_InRange dd CMPR_L4).
  { forall_pieces; [piece_const | apply Hw; unfold CMPR_L4; lia]. }
  destruct (Bin_InRange dd CMPR_L5).
  { forall_pieces; [piece_const | apply Hw; unfold CMPR_L5; lia]. }
  forall_pieces; [piece_const |].
  split; cbn [fst snd]; [lia | apply u64_range].
Qed.

Lemma int_code_total dd : 1 <= total (int_code dd) <= 70.
Proof.
  unfold int_code.
  destruct (dd =? 0); [simpl; lia |].
  destruct (Bin_InRange dd CMPR_L1); [simpl; lia |].
  destruct (Bin_InRange dd CMPR_L2); [simpl; lia |].
  destruct (Bin_InRange dd CMPR_L3); [simpl; lia |].
  destruct (Bin_InRange dd CMPR_L4); [simpl; lia |].
  destruct (Bin_InRange dd CMPR_L5); simpl; lia.
Qed.

Lemma window_facts x :
  0 < x < 2 ^ 64 ->
  0 <= leading_of x <= 31 /\ leading_of x <= LeadingZeros64 x /\
  0 <= trailing_of x /\ LeadingZeros64 x + trailing_of x <= 63 /\
  blockSize_of x = 64 - leading_of x - trailing_of x /\
  1 <= blockSize_of x <= 64 /\
  expectedSize_of x = 11 + blockSize_of x.
Proof.
  intros Hx.
  assert (Hl := LeadingZeros64_range x Hx).
  assert (Ht := TrailingZeros64_range x (proj1 Hx)).
  assert (Hl' : 0 <= leading_of x <= 31 /\ leading_of x <= LeadingZeros64 x).
  { unfold leading_of. destruct (31 <? LeadingZeros64 x) eqn:E.
    - apply Z.ltb_lt in E. lia.
    - apply Z.ltb_ge in E. lia. }
  assert (Hs : LeadingZeros64 x + trailing_of x <= 63).
  { unfold trailing_of, LeadingZeros64 in *. lia. }
  assert (Hb : blockSize_of x = 64 - leading_of x - trailing_of x).
  { unfold blockSize_of, BINW, BIN_NUM_VALUES. apply u8_small.
    unfold trailing_of in *. lia. }
  unfold trailing_of in *.
  repeat split; try lia.
  unfold expectedSize_of, DOUBLE_LEADING, DOUBLE_BLOCK_SIZE.
  rewrite u32_small; [lia |].
  assert (2 ^ 32 = 4294967296) by reflexivity. lia.
Qed.

Lemma reuse_facts pl pt x :
  0 < x < 2 ^ 64 -> 0 <= pl -> 0 <= pt ->
  reuse_test pl pt x = true ->
  pl <= leading_of x /\ pt <= trailing_of x /\
  prevBlockInfoSize_of pl pt = 64 - pl - pt /\
  1 <= prevBlockInfoSize_of pl pt <= 64 /\
  64 - pl - pt < 11 + blockSize_of x.
Proof.
  intros Hx Hpl Hpt Hr.
  destruct (window_facts x Hx) as (Hl & Hl' & Ht & Hs & Hb & Hb' & He).
  unfold reuse_test in Hr.
  apply andb_true_iff in Hr. destruct Hr as [Hr H3].
  apply andb_true_iff in Hr. destruct Hr as [H1 H2].
  apply Z.leb_le in H1, H2. apply Z.ltb_lt in H3.
  assert (Hp : prevBlockInfoSize_of pl pt = 64 - pl - pt).
  { unfold prevBlockInfoSize_of, BINW, BIN_NUM_VALUES. apply u8_small. lia. }
  rewrite Hp, He in H3. rewrite Hp. lia.
Qed.

Lemma float_code_ok pl pt x :
  0 <= x < 2 ^ 64 -> 0 <= pl -> 0 <= pt ->
  Forall piece_ok (float_code pl pt x).
Proof.
  intros Hx Hpl Hpt. unfold float_code.
  destruct (x =? 0) eqn:E0.
  { forall_pieces; piece_const. }
  apply Z.eqb_neq in E0.
  assert (Hx' : 0 < x < 2 ^ 64) by lia.
  destruct (window_facts x Hx') as (Hl & Hl' & Ht & Hs & Hb & Hb' & He).
  assert (Hlb := LeadingZeros64_bound x Hx').
  destruct (reuse_test pl pt x) eqn:Er.
  - destruct (reuse_facts pl pt x Hx' Hpl Hpt Er) as (H1 & H2 & Hp & Hp' & _).
    forall_pieces; try piece_const.
    split; cbn [fst snd]; [lia |].
    apply shiftr_bound; try lia.
    split; [lia |].
    eapply Z.lt_le_trans; [exact Hlb |].
    apply Z.pow_le_mono_r; lia.
  - forall_pieces; try piece_const.
    + split; cbn [fst snd]; unfold DOUBLE_LEADING; [lia |].
      assert (2 ^ 5 = 32) by reflexivity. lia.
    + split; cbn [fst snd]; unfold DOUBLE_BLOCK_SIZE, DOUBLE_BLOCK_ADJUST; [lia |].
      assert (2 ^ 6 = 64) by reflexivity.
      rewrite u64_small; lia.
    + split; cbn [fst snd]; [lia |].
      apply shiftr_bound; try lia.
      split; [lia |].
      eapply Z.lt_le_trans; [exact Hlb |].
      apply Z.pow_le_mono_r; lia.
Qed.

Lemma float_code_total pl pt x :
  0 <= x < 2 ^ 64 -> 0 <= pl -> 0 <= pt ->
  total (float_code pl pt x) =
  if x =? 0 then 1
  else if reuse_test pl pt x then 2 + prevBlockInfoSize_of pl pt
  else 13 + blockSize_of x.
Proof.
  intros Hx Hpl Hpt. unfold float_code.
  destruct (x =? 0); [reflexivity |].
  destruct (reuse_test pl pt x); cbn [total];
    unfold DOUBLE_LEADING, DOUBLE_BLOCK_SIZE; lia.
Qed.

(** ** Outcomes of the encoder *)

Lemma isSpaceAvailable_iff c x :
  0 <= idx c <= size c * 8 -> size c * 8 < 2 ^ 64 -> 0 <= x < 256 ->
  isSpaceAvailable c x = true <-> idx c + x <= size c * 8.
Proof.
  intros Hi Hs Hx. unfold isSpaceAvailable.
  rewrite u8_small by lia. rewrite u64_small by lia.
  rewrite Z.leb_le. lia.
Qed.

Lemma isSpaceAvailable_false c x :
  0 <= idx c <= size c * 8 -> size c * 8 < 2 ^ 64 -> 0 <= x < 256 ->
  isSpaceAvailable c x = false <-> size c * 8 < idx c + x.
Proof.
  intros Hi Hs Hx. unfold isSpaceAvailable.
  rewrite u8_small by lia. rewrite u64_small by lia.
  rewrite Z.leb_gt. lia.
Qed.

Lemma appendInteger_cases c ts :
  0 <= idx c <= size c * 8 -> size c * 8 < 2 ^ 64 ->
  (size c * 8 < idx c + total (int_code (doubleDelta_of c ts)) + 1 /\
   appendInteger c ts = (CR_ERR, c)) \/
  (idx c + total (int_code (doubleDelta_of c ts)) + 1 <= size c * 8 /\
   appendInteger c ts = (CR_OK, int_post c ts)).
Proof.
  intros Hi Hs. rewrite appendInteger_eq. unfold CHECKSPACE.
  assert (Ht := int_code_total (doubleDelta_of c ts)).
  destruct (isSpaceAvailable c (total (int_code (doubleDelta_of c ts)) + 1)) eqn:E.
  - right. apply isSpaceAvailable_iff in E; try lia. split; [lia | reflexivity].
  - left. apply isSpaceAvailable_false in E; try lia. split; [lia | reflexivity].
Qed.

Lemma cab11_facts c :
  0 <= idx c -> idx c + 1 < 2 ^ 64 ->
  idx (chunk_appendBits c 1 1) = idx c + 1 /\
  size (chunk_appendBits c 1 1) = size c.
Proof.
  intros Hi Hb. split.
  - rewrite idx_cab. apply appendBits_cursor; lia.
  - destruct (header_cab c 1 1) as (H & _). exact H.
Qed.

Lemma appendFloat_cases c v :
  0 <= idx c -> idx c + 1 <= size c * 8 -> size c * 8 < 2 ^ 64 ->
  0 <= prevValue c < 2 ^ 64 -> 0 <= prevLeading c -> 0 <= prevTrailing c ->
  0 <= v < 2 ^ 64 ->
  let fc := float_code (prevLeading c) (prevTrailing c) (Z.lxor v (prevValue c)) in
  (size c * 8 < idx c + total fc /\ Z.lxor v (prevValue c) <> 0 /\
   appendFloat c v = (CR_ERR, chunk_appendBits c 1 1)) \/
  (idx c + total fc <= size c * 8 /\
   appendFloat c v = (CR_OK, float_post c v (emits c fc))).
Proof.
  intros Hi Hi1 Hs Hpv Hpl Hpt Hv fc.
  assert (Hx := lxor_u64 v (prevValue c) Hv Hpv).
  assert (Htot := float_code_total (prevLeading c) (prevTrailing c) _ Hx Hpl Hpt).
  fold fc in Htot. unfold float_post.
  destruct (Z.lxor v (prevValue c) =? 0) eqn:E0.
  - right. apply Z.eqb_eq in E0. split; [lia |].
    rewrite (appendFloat_zero c v E0). unfold fc. rewrite E0. reflexivity.
  - apply Z.eqb_neq in E0.
    assert (Hx' : 0 < Z.lxor v (prevValue c) < 2 ^ 64) by lia.
    destruct (window_facts _ Hx') as (Hl & Hl' & Ht & Hsum & Hb & Hb' & He).
    destruct (cab11_facts c) as [Hci Hcs]; [lia | lia |].
    destruct (reuse_test (prevLeading c) (prevTrailing c) (Z.lxor v (prevValue c))) eqn:Er.
    + destruct (reuse_facts _ _ _ Hx' Hpl Hpt Er) as (H1 & H2 & Hp & Hp' & _).
      rewrite (appendFloat_reuse c v E0 Er). unfold CHECKSPACE.
      destruct (isSpaceAvailable (chunk_appendBits c 1 1)
                  (prevBlockInfoSize_of (prevLeading c) (prevTrailing c) + 1)) eqn:E.
      * right. apply isSpaceAvailable_iff in E; rewrite ?Hci, ?Hcs; try lia.
        rewrite Hci, Hcs in E. split; [lia | reflexivity].
      * left. apply isSpaceAvailable_false in E; rewrite ?Hci, ?Hcs; try lia.
        rewrite Hci, Hcs in E. split; [lia | split; [exact E0 | reflexivity]].
    + rewrite (appendFloat_new c v E0 Er). unfold CHECKSPACE.
      destruct (isSpaceAvailable (chunk_appendBits c 1 1)
                  (expectedSize_of (Z.lxor v (prevValue c)) + 1)) eqn:E.
      * right. apply isSpaceAvailable_iff in E; rewrite ?Hci, ?Hcs; try lia.
        rewrite Hci, Hcs in E. split; [lia | reflexivity].
      * left. apply isSpaceAvailable_false in E; rewrite ?Hci, ?Hcs; try lia.
        rewrite Hci, Hcs in E. split; [lia | split; [exact E0 | reflexivity]].
Qed.

Lemma int_post_facts c ts :
  0 <= idx c -> idx c + total (int_code (doubleDelta_of c ts)) < 2 ^ 64 ->
  let ic := int_code (doubleDelta_of c ts) in
  idx (int_post c ts) = idx c + total ic /\
  size (int_post c ts) = size c /\
  numSamples (int_post c ts) = numSamples c /\
  baseTimestamp (int_post c ts) = baseTimestamp c /\
  baseValue (int_post c ts) = baseValue c /\
  prevValue (int_post c ts) = prevValue c /\
  prevLeading (int_post c ts) = prevLeading c /\
  prevTrailing (int_post c ts) = prevTrailing c /\
  prevTimestamp (int_post c ts) = ts /\
  prevTimestampDelta (int_post c ts) = i64 (curDelta_of c ts) /\
  data (int_post c ts) = data (emits c ic) /\
  trace (int_post c ts) = rev (entries (idx c) ic) ++ trace c.
Proof.
  intros Hi Hb ic.
  destruct (emits_spec ic c Hi (int_code_ok _) Hb)
    as (I1 & I2 & (?&?&?&?&?&?&?&?&?) & _).
  unfold int_post. fold ic. cbn.
  repeat split; assumption.
Qed.

(** The three ways a non-first [Compressed_Append] can go. *)
Lemma Compressed_Append_cases c ts v :
  chunk_inv c -> 0 <= v < 2 ^ 64 -> numSamples c <> 0 ->
  let ic := int_code (doubleDelta_of c ts) in
  let fc := float_code (prevLeading c) (prevTrailing c) (Z.lxor v (prevValue c)) in
  let c1 := int_post c ts in
  (size c * 8 < idx c + total ic + 1 /\
   Compressed_Append c ts v = (CR_END, rollback c c)) \/
  (idx c + total ic + 1 <= size c * 8 /\
   size c * 8 < idx c + total ic + total fc /\
   Z.lxor v (prevValue c) <> 0 /\
   Compressed_Append c ts v = (CR_END, rollback c (chunk_appendBits c1 1 1))) \/
  (idx c + total ic + total fc <= size c * 8 /\
   Compressed_Append c ts v =
   (CR_OK, set_numSamples (float_post c1 v (emits c1 fc))
             (u64 (numSamples (float_post c1 v (emits c1 fc)) + 1)))).
Proof.
  intros (Hi & Hs & Hpv & Hpl & Hpt) Hv Hn ic fc c1.
  unfold Compressed_Append. apply Z.eqb_neq in Hn. rewrite Hn.
  destruct (appendInteger_cases c ts Hi Hs) as [[Hsp E] | [Hsp E]].
  { left. fold ic in Hsp. split; [exact Hsp |]. rewrite E. reflexivity. }
  right. fold ic in Hsp. rewrite E. cbn [ChunkResult_eqb negb].
  fold c1.
  assert (Hic := int_code_total (doubleDelta_of c ts)). fold ic in Hic.
  destruct (int_post_facts c ts) as (F1&F2&_&_&_&F6&F7&F8&_); [lia | fold ic; lia |].
  fold c1 in F1, F2, F6, F7, F8. fold ic in F1.
  destruct (appendFloat_cases c1 v) as [(Hf & Hx & Ef) | (Hf & Ef)];
    rewrite ?F1, ?F2, ?F6, ?F7, ?F8; try lia.
  - left. rewrite F1, F2, F6, F7, F8 in Hf. fold fc in Hf.
    rewrite F6 in Hx.
    split; [lia | split; [lia | split; [exact Hx |]]].
    rewrite Ef. reflexivity.
  - right. rewrite F1, F2, F6, F7, F8 in Hf. fold fc in Hf.
    split; [lia |]. rewrite Ef. cbn [ChunkResult_eqb negb].
    rewrite F6, F7, F8. reflexivity.
Qed.

Lemma float_post_facts c v e :
  idx (float_post c v e) = idx e /\ data (float_post c v e) = data e /\
  trace (float_post c v e) = trace e /\ size (float_post c v e) = size e /\
  numSamples (float_post c v e) = numSamples e /\
  baseTimestamp (float_post c v e) = baseTimestamp e /\
  baseValue (float_post c v e) = baseValue e /\
  prevTimestamp (float_post c v e) = prevTimestamp e /\
  prevTimestampDelta (float_post c v e) = prevTimestampDelta e.
Proof.
  unfold float_post.
  destruct (Z.lxor v (prevValue c) =? 0); [repeat split |].
  destruct (reuse_test _ _ _); repeat split.
Qed.

Lemma entries_within ps : forall g hi,
  Forall piece_ok ps -> Forall (fun pc => 1 <= snd pc) ps ->
  g + total ps <= hi ->
  Forall (write_within g hi) (entries g ps).
Proof.
  induction ps as [| [d n] r IH]; intros g hi Hok Hpos Hb; [constructor |].
  inversion Hok as [| ? ? [Hn Hd] Hr]; subst.
  inversion Hpos as [| ? ? Hn1 Hr1]; subst.
  cbn [fst snd] in *. assert (Htr := total_nonneg r Hr).
  cbn [total] in Hb. cbn [entries]. constructor.
  - unfold write_within. lia.
  - assert (IH' := IH (g + n) hi Hr Hr1 ltac:(lia)).
    eapply Forall_impl; [| exact IH'].
    intros [[g' d'] n']. unfold write_within. lia.
Qed.

Lemma int_code_pos dd : Forall (fun pc => 1 <= snd pc) (int_code dd).
Proof.
  unfold int_code.
  destruct (dd =? 0); [forall_pieces; cbn [fst snd]; unfold_consts; lia |].
  destruct (Bin_InRange dd CMPR_L1); [forall_pieces; cbn [fst snd]; unfold_consts; lia |].
  destruct (Bin_InRange dd CMPR_L2); [forall_pieces; cbn [fst snd]; unfold_consts; lia |].
  destruct (Bin_InRange dd CMPR_L3); [forall_pieces; cbn [fst snd]; unfold_consts; lia |].
  destruct (Bin_InRange dd CMPR_L4); [forall_pieces; cbn [fst snd]; unfold_consts; lia |].
  destruct (Bin_InRange dd CMPR_L5); forall_pieces; cbn [fst snd]; unfold_consts; lia.
Qed.

Lemma float_code_pos pl pt x :
  0 <= x < 2 ^ 64 -> 0 <= pl -> 0 <= pt ->
  Forall (fun pc => 1 <= snd pc) (float_code pl pt x).
Proof.
  intros Hx Hpl Hpt. unfold float_code.
  destruct (x =? 0) eqn:E0; [forall_pieces; cbn [fst snd]; unfold_consts; lia |].
  apply Z.eqb_neq in E0.
  assert (Hx' : 0 < x < 2 ^ 64) by lia.
  destruct (window_facts x Hx') as (Hl & Hl' & Ht & Hs & Hb & Hb' & He).
  destruct (reuse_test pl pt x) eqn:Er.
  - destruct (reuse_facts pl pt x Hx' Hpl Hpt Er) as (H1 & H2 & Hp & Hp' & _).
    forall_pieces; cbn [fst snd]; lia.
  - forall_pieces; cbn [fst snd];
      unfold DOUBLE_LEADING, DOUBLE_BLOCK_SIZE; lia.
Qed.

Lemma getbit_one_above B p g : g < p -> getbit B p || Z.testbit 1 (p - g) = getbit B p.
Proof.
  intros H. rewrite (testbit_small 1 1) by (simpl; lia). apply orb_false_r.
Qed.

(** ** Failed appends *)

Lemma one_sample_chunk_inv : chunk_inv one_sample_chunk.
Proof. unfold chunk_inv. cbn. lia. Qed.

Lemma failed_append_eq :
  Compressed_Append one_sample_chunk 1 (2 ^ 64 - 1) = (CR_END, failed_chunk).
Proof.
  apply injective_projections; [vm_compute; reflexivity | reflexivity].
Qed.

Lemma first_append_ok c ts v : numSamples c = 0 -> fst (Compressed_Append c ts v) = CR_OK.
Proof.
  intros H. unfold Compressed_Append. rewrite H. reflexivity.
Qed.

(** C2. When [Compressed_Append] returns CR_END on a chunk that satisfies
    the data-model invariant, numSamples, idx, prevTimestamp,
    prevTimestampDelta, prevValue, prevLeading and prevTrailing have their
    pre-call values, and so has every payload bit below the pre-call idx. *)
Theorem C2_failed_append_restores_state (c c' : CompressedChunk) (ts v : Z) :
  chunk_inv c -> 0 <= v < 2 ^ 64 ->
  Compressed_Append c ts v = (CR_END, c') ->
  numSamples c' = numSamples c /\ idx c' = idx c /\
  prevTimestamp c' = prevTimestamp c /\
  prevTimestampDelta c' = prevTimestampDelta c /\
  prevValue c' = prevValue c /\
  prevLeading c' = prevLeading c /\ prevTrailing c' = prevTrailing c /\
  forall p, 0 <= p < idx c -> getbit (data c') p = getbit (data c) p.
Proof.
  intros Hinv Hv E.
  destruct (Z.eq_dec (numSamples c) 0) as [H0 | H0].
  { pose proof (first_append_ok c ts v H0) as F. rewrite E in F. discriminate. }
  pose proof Hinv as Hinv'.
  destruct Hinv as (Hi & Hs & Hpv & Hpl & Hpt).
  assert (Hic := int_code_total (doubleDelta_of c ts)).
  destruct (Compressed_Append_cases c ts v) as [(Hsp & Ec) | [(Hsp & Hsf & Hx & Ec) | (Hsp & Ec)]];
    [exact Hinv' | exact Hv | exact H0 | | |];
    rewrite Ec in E; inversion E; subst c'; clear E.
  - cbn. repeat split; reflexivity.
  - destruct (int_post_facts c ts) as (F1&F2&F3&_&_&F6&F7&F8&_&_&F11&_); [lia | lia |].
    destruct (header_cab (int_post c ts) 1 1) as (G1&G2&_&_&_&_&G7&G8&G9).
    destruct (emits_spec (int_code (doubleDelta_of c ts)) c) as (_&_&_&I4&_);
      [lia | apply int_code_ok | lia |].
    cbn. repeat split; try congruence.
    intros p Hp. rewrite data_cab.
    rewrite appendBits_below by lia.
    rewrite F11. apply I4. exact Hp.
Qed.

Lemma C2_witness :
  chunk_inv one_sample_chunk /\ 0 <= 2 ^ 64 - 1 < 2 ^ 64 /\
  numSamples failed_chunk = numSamples one_sample_chunk /\
  idx failed_chunk = idx one_sample_chunk.
Proof.
  assert (Hv : 0 <= 2 ^ 64 - 1 < 2 ^ 64) by lia.
  split; [exact one_sample_chunk_inv | split; [exact Hv |]].
  destruct (C2_failed_append_restores_state one_sample_chunk failed_chunk 1
              (2 ^ 64 - 1) one_sample_chunk_inv Hv failed_append_eq)
    as (H1 & H2 & _).
  split; [exact H1 | exact H2].
Defined.

(** C3 at the failing input: the append of (1, all-ones) to the 8-byte
    chunk holding (0, 0.0) passes the space check of [appendInteger], which
    writes the 7 timestamp bits; [appendFloat] writes its flag bit and only
    then fails its space check.  [Compressed_Append] returns CR_END with
    idx back at 0, but bits 0, 2 and 7 of the payload stay set (bin 0 is
    0x85), so the buffer at and beyond the pre-call idx has changed. *)
Theorem C3_failed_append_dirties_buffer :
  chunk_inv one_sample_chunk /\
  Compressed_Append one_sample_chunk 1 (2 ^ 64 - 1) = (CR_END, failed_chunk) /\
  idx one_sample_chunk = 0 /\ idx failed_chunk = 0 /\
  data one_sample_chunk 0 = 0 /\ data failed_chunk 0 = 0x85 /\
  getbit (data one_sample_chunk) 0 = false /\
  getbit (data failed_chunk) 0 = true /\
  ~ (forall k, data failed_chunk k = data one_sample_chunk k).
Proof.
  split; [exact one_sample_chunk_inv |].
  split; [exact failed_append_eq |].
  split; [reflexivity |].
  split; [vm_compute; reflexivity |].
  split; [reflexivity |].
  split; [vm_compute; reflexivity |].
  split; [reflexivity |].
  split; [vm_compute; reflexivity |].
  intros H. specialize (H 0). vm_compute in H. discriminate.
Qed.

(** Where a failed append can leave bits behind: only in the range of the
    timestamp encoding and the one flag bit of the value, that is in
    [idx, idx + timestamp bits + 1); every other bit is unchanged, and so is
    the whole buffer when the failure is the space check of
    [appendInteger]. *)
Lemma failed_append_frame (c c' : CompressedChunk) (ts v : Z) :
  chunk_inv c -> 0 <= v < 2 ^ 64 ->
  Compressed_Append c ts v = (CR_END, c') ->
  (forall p, 0 <= p ->
     p < idx c \/ idx c + total (int_code (doubleDelta_of c ts)) + 1 <= p ->
     getbit (data c') p = getbit (data c) p) /\
  (fst (appendInteger c ts) = CR_ERR -> data c' = data c).
Proof.
  intros Hinv Hv E.
  destruct (Z.eq_dec (numSamples c) 0) as [H0 | H0].
  { pose proof (first_append_ok c ts v H0) as F. rewrite E in F. discriminate. }
  pose proof Hinv as Hinv'.
  destruct Hinv as (Hi & Hs & Hpv & Hpl & Hpt).
  assert (Hic := int_code_total (doubleDelta_of c ts)).
  destruct (Compressed_Append_cases c ts v) as [(Hsp & Ec) | [(Hsp & Hsf & Hx & Ec) | (Hsp & Ec)]];
    [exact Hinv' | exact Hv | exact H0 | | |];
    rewrite Ec in E; inversion E; subst c'; clear E.
  - split; reflexivity.
  - destruct (int_post_facts c ts) as (F1&_&_&_&_&_&_&_&_&_&F11&_); [lia | lia |].
    destruct (emits_spec (int_code (doubleDelta_of c ts)) c) as (_&_&_&I4&I5&_);
      [lia | apply int_code_ok | lia |].
    split.
    + intros p Hp0 Hp. cbn. rewrite data_cab.
      rewrite appendBits_getbit; [| lia | lia | simpl; lia | lia].
      rewrite F11, F1.
      destruct Hp as [Hp | Hp].
      * rewrite (Z.testbit_neg_r 1) by lia. rewrite orb_false_r. apply I4. lia.
      * rewrite getbit_one_above by lia. apply I5. lia.
    + intros Hf. exfalso.
      destruct (appendInteger_cases c ts Hi Hs) as [[Hq _] | [_ Eq]]; [lia |].
      rewrite Eq in Hf. discriminate.
Qed.

(** What the bits left behind by a failed append do: the cursor is back at
    0, so the next append ORs its bits into them.  After the failed append
    above, (0, 0.0) is appended with CR_OK, and the chunk then reads back
    as (0, 0.0), (1, 0.0). *)
Lemma append_after_failed_append :
  fst (Compressed_Append failed_chunk 0 0) = CR_OK /\
  iterate (snd (Compressed_Append failed_chunk 0 0)) 2 = ([(0, 0); (1, 0)], CR_END) /\
  iterate (snd (Compressed_Append one_sample_chunk 0 0)) 2 = ([(0, 0); (0, 0)], CR_END).
Proof.
  vm_compute. repeat split; reflexivity.
Qed.

(** C10. On a chunk that satisfies the data-model invariant, every
    [appendBits] call made during [Compressed_Append], whatever the result,
    starts at or after the pre-call idx, writes at least one bit, ends at or
    before 8 * size, and carries data that fits its length: no bit is
    written at or beyond 8 * size. *)
Theorem C10_appends_stay_in_buffer (c : CompressedChunk) (ts v : Z) :
  chunk_inv c -> 0 <= v < 2 ^ 64 ->
  exists new,
    trace (snd (Compressed_Append c ts v)) = new ++ trace c /\
    Forall (write_within (idx c) (size c * 8)) new.
Proof.
  intros Hinv Hv.
  destruct (Z.eq_dec (numSamples c) 0) as [H0 | H0].
  { exists []. split; [| constructor].
    unfold Compressed_Append. rewrite H0. reflexivity. }
  pose proof Hinv as Hinv'.
  destruct Hinv as (Hi & Hs & Hpv & Hpl & Hpt).
  assert (Hic := int_code_total (doubleDelta_of c ts)).
  assert (Hx := lxor_u64 v (prevValue c) Hv Hpv).
  assert (Hfok := float_code_ok _ _ _ Hx Hpl Hpt).
  assert (Hfpos := float_code_pos _ _ _ Hx Hpl Hpt).
  assert (Hft := total_nonneg _ Hfok).
  destruct (Compressed_Append_cases c ts v) as [(Hsp & Ec) | [(Hsp & Hsf & Hx0 & Ec) | (Hsp & Ec)]];
    [exact Hinv' | exact Hv | exact H0 | | |];
    rewrite Ec; cbn [snd].
  - exists []. split; [reflexivity | constructor].
  - destruct (int_post_facts c ts) as (F1&_&_&_&_&_&_&_&_&_&_&F12); [lia | lia |].
    exists ((idx (int_post c ts), 1, 1) :: rev (entries (idx c) (int_code (doubleDelta_of c ts)))).
    split.
    + cbn. rewrite trace_cab, F12. reflexivity.
    + constructor.
      * rewrite F1. unfold write_within. simpl. lia.
      * apply Forall_rev. apply entries_within;
          [apply int_code_ok | apply int_code_pos | lia].
  - destruct (int_post_facts c ts) as (F1&F2&_&_&_&F6&F7&F8&_&_&_&F12); [lia | lia |].
    set (fc := float_code (prevLeading c) (prevTrailing c) (Z.lxor v (prevValue c))) in *.
    destruct (emits_spec fc (int_post c ts)) as (_&I2&_); [lia | exact Hfok | lia |].
    destruct (float_post_facts (int_post c ts) v (emits (int_post c ts) fc))
      as (_&_&P3&_).
    exists (rev (entries (idx (int_post c ts)) fc) ++
            rev (entries (idx c) (int_code (doubleDelta_of c ts)))).
    split.
    + cbn [trace set_numSamples]. rewrite P3, I2, F12. apply app_assoc.
    + apply Forall_app. split; apply Forall_rev.
      * eapply Forall_impl;
          [| apply (entries_within fc (idx (int_post c ts)) (size c * 8));
             [exact Hfok | exact Hfpos | lia]].
        intros [[g d] n]. unfold write_within. lia.
      * apply entries_within; [apply int_code_ok | apply int_code_pos | lia].
Qed.

Lemma C10_witness :
  chunk_inv one_sample_chunk /\ 0 <= 2 ^ 64 - 1 < 2 ^ 64 /\
  exists new,
    trace (snd (Compressed_Append one_sample_chunk 1 (2 ^ 64 - 1)))
    = new ++ trace one_sample_chunk /\
    Forall (write_within (idx one_sample_chunk) (size one_sample_chunk * 8)) new.
Proof.
  assert (Hv : 0 <= 2 ^ 64 - 1 < 2 ^ 64) by lia.
  split; [exact one_sample_chunk_inv | split; [exact Hv |]].
  exact (C10_appends_stay_in_buffer one_sample_chunk 1 (2 ^ 64 - 1)
           one_sample_chunk_inv Hv).
Defined.

(** ** Bit buffer round trip *)

(** For data that fits its length the append is read back unchanged and
    touches nothing outside its range. *)
Lemma appendBits_readBits_fit B g d n :
  0 <= g -> 0 <= n <= 64 -> 0 <= d < 2 ^ n -> g + n < 2 ^ 64 ->
  (forall p, g <= p < g + n -> getbit B p = false) ->
  snd (appendBits B g d n) = g + n /\
  readBits (fst (appendBits B g d n)) g n = (d, g + n) /\
  forall p, 0 <= p -> p < g \/ g + n <= p ->
            getbit (fst (appendBits B g d n)) p = getbit B p.
Proof.
  intros Hg Hn Hd Hb Hz.
  split; [apply appendBits_cursor; lia |]. split.
  - apply injective_projections; cbn [fst snd].
    + apply readBits_holds; try lia.
      intros i Hi. rewrite appendBits_getbit by lia.
      rewrite Hz by lia. cbn [orb]. f_equal. lia.
    + apply readBits_cursor; lia.
  - intros p Hp0 Hp. rewrite appendBits_getbit by lia.
    destruct Hp as [Hp | Hp].
    + rewrite (Z.testbit_neg_r d) by lia. apply orb_false_r.
    + rewrite (testbit_small d n) by lia. apply orb_false_r.
Qed.





(** ** The integer codec and the prefix table *)

Lemma int2bin_mod dd w : 0 <= w <= 64 -> int2bin dd w = dd mod 2 ^ w.
Proof.
  intros Hw. unfold int2bin. rewrite LSB_mod by exact Hw.
  unfold u64.
  replace (2 ^ 64) with (2 ^ w * 2 ^ (64 - w))
    by (rewrite <- Z.pow_add_r by lia; f_equal; lia).
  assert (0 < 2 ^ w) by (apply Z.pow_pos_nonneg; lia).
  assert (0 < 2 ^ (64 - w)) by (apply Z.pow_pos_nonneg; lia).
  rewrite Z.rem_mul_r by lia.
  rewrite Z.mul_comm, Z_mod_plus_full.
  apply Z.mod_mod. lia.
Qed.

Lemma Bin_InRange_in_row dd w :
  1 <= w <= 64 -> Bin_InRange dd w = in_row w dd.
Proof.
  intros Hw. unfold Bin_InRange, in_row.
  rewrite Bin_MaxVal_eq, Bin_MinVal_eq by exact Hw.
  assert (E : (w =? 0) = false) by (apply Z.eqb_neq; lia).
  rewrite E. reflexivity.
Qed.

Ltac in_row_arith :=
  repeat match goal with
  | H : in_row _ _ = true |- _ =>
      unfold in_row in H; cbn in H;
      try (apply andb_true_iff in H; destruct H as [? ?])
  | H : in_row _ _ = false |- _ =>
      unfold in_row in H; cbn in H;
      try (apply andb_false_iff in H)
  end;
  repeat match goal with
  | H : (_ <=? _) = true |- _ => apply Z.leb_le in H
  | H : (_ =? _) = true |- _ => apply Z.eqb_eq in H
  | H : (_ =? _) = false |- _ => apply Z.eqb_neq in H
  | H : (_ <=? _) = false \/ (_ <=? _) = false |- _ =>
      destruct H as [H | H]; apply Z.leb_gt in H
  end.

(** The row the encoder uses: in the table, containing the delta-of-delta,
    of least width among the rows that contain it, with the code the row
    prescribes. *)
Lemma int_code_row dd :
  - 2 ^ 63 <= dd < 2 ^ 63 ->
  exists pv pl w,
    In (pv, pl, w) prefix_table /\ in_row w dd = true /\
    (forall pv' pl' w', In (pv', pl', w') prefix_table ->
                        in_row w' dd = true -> w <= w') /\
    int_code dd = row_code (pv, pl, w) dd /\
    total (int_code dd) = (if w =? 0 then 1 else pl + w).
Proof.
  intros Hdd. unfold int_code.
  destruct (dd =? 0) eqn:E0.
  { exists 0, 1, 0. split; [simpl; auto |]. split; [exact E0 |].
    split; [| split; reflexivity].
    intros pv' pl' w' Hin _. simpl in Hin.
    repeat (destruct Hin as [Hin | Hin]; [inversion Hin; lia |]). contradiction. }
  rewrite (Bin_InRange_in_row dd CMPR_L1) by (unfold CMPR_L1; lia).
  rewrite (Bin_InRange_in_row dd CMPR_L2) by (unfold CMPR_L2; lia).
  rewrite (Bin_InRange_in_row dd CMPR_L3) by (unfold CMPR_L3; lia).
  rewrite (Bin_InRange_in_row dd CMPR_L4) by (unfold CMPR_L4; lia).
  rewrite (Bin_InRange_in_row dd CMPR_L5) by (unfold CMPR_L5; lia).
  rewrite !int2bin_mod by (unfold_consts; lia).
  unfold_consts.
  assert (H64 : in_row 64 dd = true).
  { unfold in_row. cbn. apply andb_true_iff. split; apply Z.leb_le; cbn in Hdd; lia. }
  assert (Hu : u64 dd = dd mod 2 ^ 64) by reflexivity.
  destruct (in_row 5 dd) eqn:E1.
  { exists 1, 2, 5. split; [simpl; auto 10 |]. split; [exact E1 |].
    split; [| split; reflexivity].
    intros pv' pl' w' Hin Hr. simpl in Hin.
    repeat (destruct Hin as [Hin | Hin];
            [inversion Hin; subst; clear Hin; try lia; in_row_arith; lia |]).
    contradiction. }
  destruct (in_row 8 dd) eqn:E2.
  { exists 3, 3, 8. split; [simpl; auto 10 |]. split; [exact E2 |].
    split; [| split; reflexivity].
    intros pv' pl' w' Hin Hr. simpl in Hin.
    repeat (destruct Hin as [Hin | Hin];
            [inversion Hin; subst; clear Hin; try lia; in_row_arith; lia |]).
    contradiction. }
  destruct (in_row 11 dd) eqn:E3.
  { exists 7, 4, 11. split; [simpl; auto 10 |]. split; [exact E3 |].
    split; [| split; reflexivity].
    intros pv' pl' w' Hin Hr. simpl in Hin.
    repeat (destruct Hin as [Hin | Hin];
            [inversion Hin; subst; clear Hin; try lia; in_row_arith; lia |]).
    contradiction. }
  destruct (in_row 15 dd) eqn:E4.
  { exists 15, 5, 15. split; [simpl; auto 10 |]. split; [exact E4 |].
    split; [| split; reflexivity].
    intros pv' pl' w' Hin Hr. simpl in Hin.
    repeat (destruct Hin as [Hin | Hin];
            [inversion Hin; subst; clear Hin; try lia; in_row_arith; lia |]).
    contradiction. }
  destruct (in_row 32 dd) eqn:E5.
  { exists 31, 6, 32. split; [simpl; auto 10 |]. split; [exact E5 |].
    split; [| split; reflexivity].
    intros pv' pl' w' Hin Hr. simpl in Hin.
    repeat (destruct Hin as [Hin | Hin];
            [inversion Hin; subst; clear Hin; try lia; in_row_arith; lia |]).
    contradiction. }
  exists 63, 6, 64. split; [simpl; auto 10 |]. split; [exact H64 |].
  split; [| split; [rewrite Hu |]; reflexivity].
  intros pv' pl' w' Hin Hr. simpl in Hin.
  repeat (destruct Hin as [Hin | Hin];
          [inversion Hin; subst; clear Hin; try lia; in_row_arith; lia |]).
  contradiction.
Qed.

Lemma appendInteger_witness_eq :
  appendInteger one_sample_chunk 1 = (CR_OK, snd (appendInteger one_sample_chunk 1)).
Proof.
  apply injective_projections; [vm_compute; reflexivity | reflexivity].
Qed.

Lemma one_sample_chunk_clean :
  clean (data one_sample_chunk) (idx one_sample_chunk).
Proof. intros p _. unfold getbit. apply Z.bits_0. Qed.

(** C4. For every timestamp encoded by [appendInteger] (the samples after
    the first), the encoder uses a row of the table of section 4.2 that
    contains the delta-of-delta and has the least width among the rows that
    do.  The [appendBits] calls made are the prefix of that row followed by
    the low w bits of the delta-of-delta; the cursor advances by 1 bit for
    width 0 and by prefix length plus width otherwise (2+5, 3+8, 4+11,
    5+15, 6+32, 6+64); the bits below the old cursor are untouched; and on
    a buffer with no bit set at or beyond the old cursor, the buffer then
    holds at the old cursor the bits of the prefix followed by the w
    payload bits, with no bit set at or beyond the new cursor. *)
Theorem C4_prefix_minimal (c c1 : CompressedChunk) (ts : Z) :
  0 <= idx c <= size c * 8 -> size c * 8 < 2 ^ 64 ->
  appendInteger c ts = (CR_OK, c1) ->
  exists pv pl w,
    In (pv, pl, w) prefix_table /\
    in_row w (doubleDelta_of c ts) = true /\
    (forall pv' pl' w', In (pv', pl', w') prefix_table ->
                        in_row w' (doubleDelta_of c ts) = true -> w <= w') /\
    trace c1 =
    rev (entries (idx c) (row_code (pv, pl, w) (doubleDelta_of c ts))) ++ trace c /\
    idx c1 = idx c + (if w =? 0 then 1 else pl + w) /\
    (forall p, 0 <= p < idx c -> getbit (data c1) p = getbit (data c) p) /\
    (clean (data c) (idx c) ->
     layout (data c1) (idx c) (row_code (pv, pl, w) (doubleDelta_of c ts)) /\
     clean (data c1) (idx c1)).
Proof.
  intros Hi Hs E.
  destruct (appendInteger_cases c ts Hi Hs) as [[_ E'] | [Hsp E']];
    rewrite E' in E; inversion E; subst c1; clear E.
  assert (Hic := int_code_total (doubleDelta_of c ts)).
  destruct (int_post_facts c ts) as (F1&_&_&_&_&_&_&_&_&_&F11&F12); [lia | lia |].
  destruct (emits_spec (int_code (doubleDelta_of c ts)) c) as (_&_&_&A4&A5&A6);
    [lia | apply int_code_ok | lia |].
  destruct (int_code_row (doubleDelta_of c ts) (doubleDelta_of_range c ts))
    as (pv & pl & w & Hin & Hr & Hmin & Hcode & Htot).
  exists pv, pl, w.
  split; [exact Hin |]. split; [exact Hr |]. split; [exact Hmin |].
  split; [rewrite F12, Hcode; reflexivity |].
  split; [rewrite F1, Htot; reflexivity |].
  split.
  - intros p Hp. rewrite F11. apply A4. exact Hp.
  - intros Hcl. split.
    + rewrite F11, <- Hcode. apply A6. exact Hcl.
    + intros p Hp. rewrite F11, A5 by lia. apply Hcl. lia.
Qed.

Lemma C4_witness :
  0 <= idx one_sample_chunk <= size one_sample_chunk * 8 /\
  size one_sample_chunk * 8 < 2 ^ 64 /\
  clean (data one_sample_chunk) (idx one_sample_chunk) /\
  exists pv pl w,
    In (pv, pl, w) prefix_table /\
    in_row w (doubleDelta_of one_sample_chunk 1) = true /\
    (forall pv' pl' w', In (pv', pl', w') prefix_table ->
       in_row w' (doubleDelta_of one_sample_chunk 1) = true -> w <= w') /\
    trace (snd (appendInteger one_sample_chunk 1)) =
    rev (entries (idx one_sample_chunk)
           (row_code (pv, pl, w) (doubleDelta_of one_sample_chunk 1)))
    ++ trace one_sample_chunk /\
    idx (snd (appendInteger one_sample_chunk 1)) =
    idx one_sample_chunk + (if w =? 0 then 1 else pl + w) /\
    layout (data (snd (appendInteger one_sample_chunk 1))) (idx one_sample_chunk)
      (row_code (pv, pl, w) (doubleDelta_of one_sample_chunk 1)).
Proof.
  assert (H1 : 0 <= idx one_sample_chunk <= size one_sample_chunk * 8) by (cbn; lia).
  assert (H2 : size one_sample_chunk * 8 < 2 ^ 64) by (cbn; lia).
  split; [exact H1 | split; [exact H2 | split; [exact one_sample_chunk_clean |]]].
  destruct (C4_prefix_minimal one_sample_chunk _ 1 H1 H2 appendInteger_witness_eq)
    as (pv & pl & w & A1 & A2 & A3 & A4 & A5 & _ & A7).
  exists pv, pl, w.
  split; [exact A1 |]. split; [exact A2 |]. split; [exact A3 |].
  split; [exact A4 |]. split; [exact A5 |].
  exact (proj1 (A7 one_sample_chunk_clean)).
Defined.

(** ** The choice of the window *)

(** C5, as stated, fails when the two encodings have the same length: on
    the chunk holding (0, 0.0), whose window is (0, 0), the value with
    pattern 2^52 + 1 has XOR 2^52 + 1, 11 leading and 0 trailing zeros;
    reuse is possible and costs 65 bits, as many as a new window, and the
    encoder emits a new window and moves prevLeading to 11. *)
Lemma C5_counterexample :
  let c := one_sample_chunk128 in
  let v := 2 ^ 52 + 1 in
  let x := Z.lxor v (prevValue c) in
  x <> 0 /\
  prevLeading c <= leading_of x /\ prevTrailing c <= trailing_of x /\
  reuse_bits (prevLeading c) (prevTrailing c) <= new_bits x /\
  fst (appendFloat c v) = CR_OK /\
  trace (snd (appendFloat c v)) =
    [(13, 2 ^ 52 + 1, 53); (7, 52, 6); (2, 11, 5); (1, 1, 1); (0, 1, 1)] /\
  prevLeading c = 0 /\ prevLeading (snd (appendFloat c v)) = 11 /\
  ~ wrote_reuse c (snd (appendFloat c v)) x.
Proof.
  cbv zeta. split; [vm_compute; discriminate |].
  split; [vm_compute; discriminate |].
  split; [vm_compute; discriminate |].
  split; [vm_compute; discriminate |].
  split; [vm_compute; reflexivity |].
  split; [vm_compute; reflexivity |].
  split; [reflexivity |].
  split; [vm_compute; reflexivity |].
  unfold wrote_reuse. vm_compute. discriminate.
Qed.

(** The test of the code is the comparison of the two lengths, strict. *)
Lemma reuse_test_iff pl pt x :
  0 < x < 2 ^ 64 -> 0 <= pl -> 0 <= pt ->
  reuse_test pl pt x = true <->
  pl <= leading_of x /\ pt <= trailing_of x /\ reuse_bits pl pt < new_bits x.
Proof.
  intros Hx Hpl Hpt.
  destruct (window_facts x Hx) as (Hl & Hl' & Ht & Hs & Hb & Hb' & He).
  unfold reuse_bits, new_bits. split.
  - intros Hr.
    destruct (reuse_facts pl pt x Hx Hpl Hpt Hr) as (H1 & H2 & Hp & Hp' & H3).
    lia.
  - intros (H1 & H2 & H3). unfold reuse_test.
    assert (Hp : prevBlockInfoSize_of pl pt = 64 - pl - pt).
    { unfold prevBlockInfoSize_of, BINW, BIN_NUM_VALUES. apply u8_small. lia. }
    rewrite Hp, He.
    apply andb_true_iff. split; [apply andb_true_iff; split |].
    + apply Z.leb_le. exact H1.
    + apply Z.leb_le. exact H2.
    + apply Z.ltb_lt. lia.
Qed.

Lemma float_code_reuse pl pt x :
  0 < x < 2 ^ 64 -> 0 <= pl -> 0 <= pt -> reuse_test pl pt x = true ->
  float_code pl pt x = reuse_code pl pt x.
Proof.
  intros Hx Hpl Hpt Hr. unfold float_code, reuse_code.
  assert (E : (x =? 0) = false) by (apply Z.eqb_neq; lia).
  rewrite E, Hr.
  destruct (reuse_facts pl pt x Hx Hpl Hpt Hr) as (_ & _ & Hp & _).
  rewrite Hp. reflexivity.
Qed.

(** C5, amended. For every value encoding that returns CR_OK with a
    non-zero XOR: whenever the previous window covers the XOR (its leading
    and trailing counts do not exceed those of the XOR) and reusing it
    produces strictly fewer bits than a new window, the encoder takes the
    reuse branch; and prevLeading/prevTrailing are unchanged if and only if
    the reuse branch was taken. *)
Theorem C5_reuse_when_strictly_shorter (c c' : CompressedChunk) (v : Z) :
  0 <= idx c -> idx c + 1 <= size c * 8 -> size c * 8 < 2 ^ 64 ->
  0 <= prevValue c < 2 ^ 64 -> 0 <= prevLeading c -> 0 <= prevTrailing c ->
  0 <= v < 2 ^ 64 ->
  Z.lxor v (prevValue c) <> 0 ->
  appendFloat c v = (CR_OK, c') ->
  (prevLeading c <= leading_of (Z.lxor v (prevValue c)) ->
   prevTrailing c <= trailing_of (Z.lxor v (prevValue c)) ->
   reuse_bits (prevLeading c) (prevTrailing c) < new_bits (Z.lxor v (prevValue c)) ->
   wrote_reuse c c' (Z.lxor v (prevValue c))) /\
  ((prevLeading c' = prevLeading c /\ prevTrailing c' = prevTrailing c) <->
   wrote_reuse c c' (Z.lxor v (prevValue c))).
Proof.
  intros Hi Hi1 Hs Hpv Hpl Hpt Hv Hx0 E.
  assert (Hx := lxor_u64 v (prevValue c) Hv Hpv).
  set (x := Z.lxor v (prevValue c)) in *.
  assert (Hx' : 0 < x < 2 ^ 64) by lia.
  assert (Hfok := float_code_ok _ _ _ Hx Hpl Hpt).
  destruct (appendFloat_cases c v Hi Hi1 Hs Hpv Hpl Hpt Hv)
    as [(_ & _ & E') | (Hsp & E')];
    rewrite E' in E; inversion E; subst c'; clear E.
  fold x in Hsp |- *.
  set (fc := float_code (prevLeading c) (prevTrailing c) x) in *.
  destruct (emits_spec fc c Hi Hfok ltac:(lia)) as (_ & I2 & I3 & _).
  destruct I3 as (_&_&_&_&_&_&_&I8&I9).
  destruct (float_post_facts c v (emits c fc)) as (_&_&P3&_).
  destruct (window_facts x Hx') as (Hl & Hl' & Ht & Hsum & Hb & Hb' & He).
  unfold wrote_reuse. rewrite P3, I2.
  destruct (reuse_test (prevLeading c) (prevTrailing c) x) eqn:Er.
  - assert (Hfc : fc = reuse_code (prevLeading c) (prevTrailing c) x)
      by (apply float_code_reuse; assumption).
    split; [intros _ _ _; rewrite Hfc; reflexivity |].
    split; [intros _; rewrite Hfc; reflexivity |]. intros _.
    unfold float_post. fold x. apply Z.eqb_neq in Hx0. rewrite Hx0, Er.
    unfold set_prevValue. cbn [prevLeading prevTrailing]. split; assumption.
  - assert (Hne : rev (entries (idx c) fc) ++ trace c <>
                  rev (entries (idx c) (reuse_code (prevLeading c) (prevTrailing c) x))
                  ++ trace c).
    { intros Heq. apply app_inv_tail in Heq.
      apply (f_equal (@length _)) in Heq. rewrite !length_rev in Heq.
      unfold fc, float_code, reuse_code in Heq.
      apply Z.eqb_neq in Hx0. rewrite Hx0, Er in Heq.
      cbn [entries length] in Heq. discriminate. }
    split.
    + intros H1 H2 H3. exfalso.
      assert (Ht' : reuse_test (prevLeading c) (prevTrailing c) x = true)
        by (apply reuse_test_iff; auto).
      congruence.
    + split; [| intros Heq; contradiction].
      intros [H1 H2]. exfalso.
      unfold float_post in H1, H2. fold x in H1, H2.
      apply Z.eqb_neq in Hx0. rewrite Hx0, Er in H1, H2.
      cbn in H1, H2.
      rewrite u8_small in H1 by lia.
      unfold trailing_of in *.
      rewrite u8_small in H2 by lia.
      assert (Ht' : reuse_test (prevLeading c) (prevTrailing c) x = true).
      { apply reuse_test_iff; auto.
        unfold reuse_bits, new_bits, trailing_of. lia. }
      congruence.
Qed.

Lemma c5_appendFloat_eq :
  appendFloat one_sample_chunk128 (2 ^ 64 - 1) =
  (CR_OK, snd (appendFloat one_sample_chunk128 (2 ^ 64 - 1))).
Proof.
  apply injective_projections; [vm_compute; reflexivity | reflexivity].
Qed.

Lemma C5_witness :
  wrote_reuse one_sample_chunk128
    (snd (appendFloat one_sample_chunk128 (2 ^ 64 - 1)))
    (Z.lxor (2 ^ 64 - 1) (prevValue one_sample_chunk128)).
Proof.
  assert (Hv : 0 <= 2 ^ 64 - 1 < 2 ^ 64) by (cbn; lia).
  assert (H0 : 0 <= idx one_sample_chunk128) by (cbn; lia).
  assert (H1 : idx one_sample_chunk128 + 1 <= size one_sample_chunk128 * 8)
    by (cbn; lia).
  assert (H2 : size one_sample_chunk128 * 8 < 2 ^ 64) by (cbn; lia).
  assert (H3 : 0 <= prevValue one_sample_chunk128 < 2 ^ 64) by (cbn; lia).
  assert (H4 : 0 <= prevLeading one_sample_chunk128) by (cbn; lia).
  assert (H5 : 0 <= prevTrailing one_sample_chunk128) by (cbn; lia).
  assert (H6 : Z.lxor (2 ^ 64 - 1) (prevValue one_sample_chunk128) <> 0)
    by (vm_compute; discriminate).
  destruct (C5_reuse_when_strictly_shorter one_sample_chunk128 _ (2 ^ 64 - 1)
              H0 H1 H2 H3 H4 H5 Hv H6 c5_appendFloat_eq) as [Hr _].
  apply Hr; vm_compute; first [reflexivity | discriminate].
Defined.

(** ** Scenario S2 *)

(** C6, as stated, fails: the second sample has delta 10 against a previous
    delta of 0, so its delta-of-delta is 10, not 0; it costs 2 + 5 + 1 = 8
    bits, and after the three appends idx is 10, not 4. *)
Lemma C6_counterexample :
  idx_after_each (Compressed_NewChunk 128) s2_samples = [0; 8; 10] /\
  option_map idx (append_all (Compressed_NewChunk 128) s2_samples) <> Some 4.
Proof.
  split; [vm_compute; reflexivity | vm_compute; discriminate].
Qed.

(** C6, amended. Appending (1000, 5.0), (1010, 5.0), (1020, 5.0) to a fresh
    128-byte chunk writes nothing for the first sample, 8 bits for the
    second (prefix 01 and 5 bits for the delta-of-delta 10, 1 bit for
    XOR = 0) and 2 bits for the third (1 bit for delta-of-delta 0, 1 bit for
    XOR = 0), so idx is 10 after the three appends; iterating yields the
    three samples and then END. *)
Theorem C6_scenario_S2 :
  idx_after_each (Compressed_NewChunk 128) s2_samples = [0; 8; 10] /\
  option_map (fun c => rev (trace c))
    (append_all (Compressed_NewChunk 128) s2_samples)
  = Some [(0, 1, 2); (2, 10, 5); (7, 0, 1); (8, 0, 1); (9, 0, 1)] /\
  option_map (fun c => iterate c 3)
    (append_all (Compressed_NewChunk 128) s2_samples)
  = Some (s2_samples, CR_END).
Proof.
  vm_compute. repeat split; reflexivity.
Qed.

(** ** The first read *)

(** C7, as stated, fails: the first-sample branch of [Compressed_ReadNext]
    assigns nothing but the count.  An iterator created on the empty chunk,
    used after (1000, 5.0) has been appended, emits (1000, 5.0) and keeps
    prevTS = 0 and prevValue = 0. *)
Lemma C7_counterexample :
  0 < numSamples chunk_1000 /\ it_count early_iterator = 0 /\
  baseTimestamp chunk_1000 = 1000 /\ baseValue chunk_1000 = bits_5_0 /\
  fst (Compressed_ReadNext chunk_1000 early_iterator)
    = (CR_OK, Some (1000, bits_5_0)) /\
  it_prevTS (snd (Compressed_ReadNext chunk_1000 early_iterator)) = 0 /\
  it_prevValue (snd (Compressed_ReadNext chunk_1000 early_iterator)) = 0 /\
  it_prevTS (snd (Compressed_ReadNext chunk_1000 early_iterator))
    <> baseTimestamp chunk_1000.
Proof.
  vm_compute. repeat split; try reflexivity; discriminate.
Qed.

(** C7, amended. On a chunk with numSamples >= 1, the call of
    [Compressed_ReadNext] with count = 0 emits (baseTimestamp, baseValue),
    sets count to 1 and leaves idx, prevTS, prevDelta, prevValue and the
    window as they were; for an iterator created on that chunk they are
    baseTimestamp, 0 and baseValue, as the constructor set them. *)
Theorem C7_first_read (c : CompressedChunk) (it : Compressed_Iterator) :
  0 < numSamples c -> it_count it = 0 ->
  Compressed_ReadNext c it =
    (CR_OK, Some (baseTimestamp c, baseValue c),
     mkIter (it_idx it) 1 (it_prevTS it) (it_prevDelta it) (it_prevValue it)
            (it_prevLeading it) (it_prevTrailing it)) /\
  (it = Compressed_NewChunkIterator c ->
   snd (Compressed_ReadNext c it) = mkIter 0 1 (baseTimestamp c) 0 (baseValue c) 0 0).
Proof.
  intros Hn Hc.
  assert (E : Compressed_ReadNext c it =
    (CR_OK, Some (baseTimestamp c, baseValue c),
     mkIter (it_idx it) 1 (it_prevTS it) (it_prevDelta it) (it_prevValue it)
            (it_prevLeading it) (it_prevTrailing it))).
  { unfold Compressed_ReadNext. rewrite Hc.
    assert (E1 : (numSamples c <=? 0) = false) by (apply Z.leb_gt; exact Hn).
    rewrite E1. reflexivity. }
  split; [exact E |].
  intros ->. rewrite E. reflexivity.
Qed.

Lemma C7_witness :
  0 < numSamples chunk_1000 /\ it_count early_iterator = 0 /\
  Compressed_ReadNext chunk_1000 early_iterator =
    (CR_OK, Some (baseTimestamp chunk_1000, baseValue chunk_1000),
     mkIter (it_idx early_iterator) 1 (it_prevTS early_iterator)
            (it_prevDelta early_iterator) (it_prevValue early_iterator)
            (it_prevLeading early_iterator) (it_prevTrailing early_iterator)).
Proof.
  assert (H1 : 0 < numSamples chunk_1000) by (cbn; lia).
  assert (H2 : it_count early_iterator = 0) by reflexivity.
  split; [exact H1 | split; [exact H2 |]].
  exact (proj1 (C7_first_read chunk_1000 early_iterator H1 H2)).
Defined.

(** ** Decoding what was encoded *)

Lemma probe B g pv n k :
  holds B g pv n -> 0 <= k < n -> Bins_bitoff B (g + k) = negb (Z.testbit pv k).
Proof.
  intros H Hk. rewrite Bins_bitoff_getbit, (H k Hk). reflexivity.
Qed.

Lemma probe0 B g pv n :
  holds B g pv n -> 0 < n -> Bins_bitoff B g = negb (Z.testbit pv 0).
Proof.
  intros H Hn. rewrite <- (Z.add_0_r g) at 1. apply (probe B g pv n 0 H). lia.
Qed.

Lemma readBits_layout B g d n :
  0 <= g -> 0 <= n <= 64 -> 0 <= d < 2 ^ n -> g + n < 2 ^ 64 ->
  holds B g d n -> readBits B g n = (d, g + n).
Proof.
  intros Hg Hn Hd Hb Hh. apply injective_projections; cbn [fst snd].
  - apply readBits_holds; assumption.
  - apply readBits_cursor; lia.
Qed.

Ltac norm_cursor g :=
  try rewrite (u64_small (g + 1)) by lia;
  try rewrite (u64_small (g + 1 + 1)) by lia;
  try rewrite (u64_small (g + 1 + 1 + 1)) by lia;
  try rewrite (u64_small (g + 1 + 1 + 1 + 1)) by lia;
  try rewrite (u64_small (g + 1 + 1 + 1 + 1 + 1)) by lia;
  try rewrite (u64_small (g + 1 + 1 + 1 + 1 + 1 + 1)) by lia;
  try replace (g + 1 + 1 + 1 + 1 + 1 + 1) with (g + 6) by lia;
  try replace (g + 1 + 1 + 1 + 1 + 1) with (g + 5) by lia;
  try replace (g + 1 + 1 + 1 + 1) with (g + 4) by lia;
  try replace (g + 1 + 1 + 1) with (g + 3) by lia;
  try replace (g + 1 + 1) with (g + 2) by lia.


Ltac eval_probe :=
  match goal with
  | |- context [negb (Z.testbit ?a ?b)] =>
      let r := eval vm_compute in (negb (Z.testbit a b)) in
      change (negb (Z.testbit a b)) with r
  end; cbv beta iota.

Ltac probe_at H k :=
  first [ rewrite (probe _ _ _ _ k H) by lia | fail 1 "probe" ]; eval_probe.

Ltac probe_first H :=
  rewrite (probe0 _ _ _ _ H) by lia; eval_probe.

Lemma readInteger_layout B it dd :
  - 2 ^ 63 <= dd < 2 ^ 63 ->
  0 <= it_idx it -> it_idx it + total (int_code dd) < 2 ^ 64 ->
  layout B (it_idx it) (int_code dd) ->
  readInteger B it =
  (u64 (it_prevTS it + i64 (it_prevDelta it + dd)),
   mkIter (it_idx it + total (int_code dd)) (it_count it)
          (u64 (it_prevTS it + i64 (it_prevDelta it + dd)))
          (i64 (it_prevDelta it + dd)) (it_prevValue it)
          (it_prevLeading it) (it_prevTrailing it)).
Proof.
  intros Hdd Hg Hb Hl. unfold readInteger. cbv zeta.
  set (g := it_idx it) in *.
  unfold int_code in *.
  destruct (dd =? 0) eqn:E0.
  { apply Z.eqb_eq in E0. subst dd. cbn [total layout] in *.
    destruct Hl as (Hp & _).
    norm_cursor g. probe_first Hp.
    rewrite ?Z.add_0_r, ?Z.add_assoc. reflexivity. }
  destruct (Bin_InRange dd CMPR_L1) eqn:E1.
  { apply Bin_InRange_iff in E1; [| unfold CMPR_L1; lia].
    cbn [total layout] in *. destruct Hl as (Hp & Hd & _).
    unfold CMPR_L1 in *.
    norm_cursor g. probe_first Hp. probe_at Hp 1.
    rewrite (readBits_layout B (g + 2) (int2bin dd 5) 5);
      [| lia | lia | apply int2bin_range; lia | lia | exact Hd].
    rewrite bin2int_int2bin by lia.
    rewrite ?Z.add_0_r, ?Z.add_assoc. reflexivity. }
  destruct (Bin_InRange dd CMPR_L2) eqn:E2.
  { apply Bin_InRange_iff in E2; [| unfold CMPR_L2; lia].
    cbn [total layout] in *. destruct Hl as (Hp & Hd & _).
    unfold CMPR_L2 in *.
    norm_cursor g. probe_first Hp. probe_at Hp 1. probe_at Hp 2.
    rewrite (readBits_layout B (g + 3) (int2bin dd 8) 8);
      [| lia | lia | apply int2bin_range; lia | lia | exact Hd].
    rewrite bin2int_int2bin by lia.
    rewrite ?Z.add_0_r, ?Z.add_assoc. reflexivity. }
  destruct (Bin_InRange dd CMPR_L3) eqn:E3.
  { apply Bin_InRange_iff in E3; [| unfold CMPR_L3; lia].
    cbn [total layout] in *. destruct Hl as (Hp & Hd & _).
    unfold CMPR_L3 in *.
    norm_cursor g. probe_first Hp. probe_at Hp 1. probe_at Hp 2. probe_at Hp 3.
    rewrite (readBits_layout B (g + 4) (int2bin dd 11) 11);
      [| lia | lia | apply int2bin_range; lia | lia | exact Hd].
    rewrite bin2int_int2bin by lia.
    rewrite ?Z.add_0_r, ?Z.add_assoc. reflexivity. }
  destruct (Bin_InRange dd CMPR_L4) eqn:E4.
  { apply Bin_InRange_iff in E4; [| unfold CMPR_L4; lia].
    cbn [total layout] in *. destruct Hl as (Hp & Hd & _).
    unfold CMPR_L4 in *.
    norm_cursor g. probe_first Hp. probe_at Hp 1. probe_at Hp 2. probe_at Hp 3. probe_at Hp 4.
    rewrite (readBits_layout B (g + 5) (int2bin dd 15) 15);
      [| lia | lia | apply int2bin_range; lia | lia | exact Hd].
    rewrite bin2int_int2bin by lia.
    rewrite ?Z.add_0_r, ?Z.add_assoc. reflexivity. }
  destruct (Bin_InRange dd CMPR_L5) eqn:E5.
  { apply Bin_InRange_iff in E5; [| unfold CMPR_L5; lia].
    cbn [total layout] in *. destruct Hl as (Hp & Hd & _).
    unfold CMPR_L5 in *.
    norm_cursor g. probe_first Hp. probe_at Hp 1. probe_at Hp 2. probe_at Hp 3. probe_at Hp 4. probe_at Hp 5.
    rewrite (readBits_layout B (g + 6) (int2bin dd 32) 32);
      [| lia | lia | apply int2bin_range; lia | lia | exact Hd].
    rewrite bin2int_int2bin by lia.
    rewrite ?Z.add_0_r, ?Z.add_assoc. reflexivity. }
  cbn [total layout] in *. destruct Hl as (Hp & Hd & _).
  norm_cursor g.
  probe_first Hp. probe_at Hp 1. probe_at Hp 2. probe_at Hp 3. probe_at Hp 4.
  probe_at Hp 5.
  rewrite (readBits_layout B (g + 6) (u64 dd) 64);
    [| lia | lia | apply u64_range | lia | exact Hd].
  rewrite i64_u64, (i64_small dd) by lia.
  rewrite ?Z.add_0_r, ?Z.add_assoc. reflexivity.
Qed.

Lemma readFloat_layout B it x :
  0 <= x < 2 ^ 64 ->
  0 <= it_prevLeading it -> 0 <= it_prevTrailing it ->
  0 <= it_idx it ->
  it_idx it + total (float_code (it_prevLeading it) (it_prevTrailing it) x) < 2 ^ 64 ->
  layout B (it_idx it) (float_code (it_prevLeading it) (it_prevTrailing it) x) ->
  readFloat B it =
  (Z.lxor x (it_prevValue it),
   mkIter (it_idx it + total (float_code (it_prevLeading it) (it_prevTrailing it) x))
          (it_count it) (it_prevTS it) (it_prevDelta it)
          (Z.lxor x (it_prevValue it))
          (fst (window_after (it_prevLeading it) (it_prevTrailing it) x))
          (snd (window_after (it_prevLeading it) (it_prevTrailing it) x))).
Proof.
  intros Hx Hpl Hpt Hg Hb Hl. unfold readFloat, window_after. cbv zeta.
  set (g := it_idx it) in *.
  set (pl := it_prevLeading it) in *. set (pt := it_prevTrailing it) in *.
  assert (Hok := float_code_ok pl pt x Hx Hpl Hpt).
  unfold float_code in *.
  destruct (x =? 0) eqn:E0.
  { apply Z.eqb_eq in E0. subst x. cbn [total layout] in *.
    destruct Hl as (Hp & _).
    norm_cursor g. probe_first Hp.
    unfold set_it_idx. cbn [fst snd Z.lxor].
    rewrite ?Z.add_0_r, ?Z.add_assoc. destruct it; reflexivity. }
  apply Z.eqb_neq in E0.
  assert (Hx' : 0 < x < 2 ^ 64) by lia.
  destruct (window_facts x Hx') as (Hwl & Hwl' & Hwt & Hws & Hwb & Hwb' & Hwe).
  destruct (reuse_test pl pt x) eqn:Er.
  - destruct (reuse_facts pl pt x Hx' Hpl Hpt Er) as (H1 & H2 & Hp & Hp' & _).
    cbn [total layout] in *. destruct Hl as (L1 & L2 & L3 & _).
    inversion Hok as [| ? ? _ Hok1]; subst.
    inversion Hok1 as [| ? ? _ Hok2]; subst.
    inversion Hok2 as [| ? ? [_ Hd] _]; subst. cbn [fst snd] in Hd.
    fold (prevBlockInfoSize_of pl pt).
    norm_cursor g. replace (g + 1 + 1) with (g + 2) in * by lia.
    probe_first L1.
    rewrite (probe0 _ _ _ _ L2) by lia; eval_probe.
    rewrite (readBits_layout B (g + 2) (Z.shiftr x pt) (prevBlockInfoSize_of pl pt));
      [| lia | lia | exact Hd | lia | exact L3].
    rewrite shift_back by (unfold trailing_of in *; lia).
    rewrite (u64_small x) by lia.
    cbn [fst snd]. rewrite ?Z.add_0_r, ?Z.add_assoc.
    replace (g + 1 + 1) with (g + 2) by lia. reflexivity.
  - cbn [total layout] in *. destruct Hl as (L1 & L2 & L3 & L4 & L5 & _).
    inversion Hok as [| ? ? _ Hok1]; subst.
    inversion Hok1 as [| ? ? _ Hok2]; subst.
    inversion Hok2 as [| ? ? [_ Hd3] Hok3]; subst.
    inversion Hok3 as [| ? ? [_ Hd4] Hok4]; subst.
    inversion Hok4 as [| ? ? [_ Hd5] _]; subst. cbn [fst snd] in *.
    unfold_consts.
    norm_cursor g. replace (g + 1 + 1) with (g + 2) in * by lia.
    probe_first L1.
    rewrite (probe0 _ _ _ _ L2) by lia; eval_probe.
    rewrite (readBits_layout B (g + 2) (leading_of x) 5);
      [| lia | lia | exact Hd3 | lia | exact L3].
    rewrite (readBits_layout B (g + 2 + 5) (u64 (blockSize_of x - 1)) 6);
      [| lia | lia | exact Hd4 | lia | exact L4].
    rewrite (u64_small (blockSize_of x - 1)) by lia.
    replace (blockSize_of x - 1 + 1) with (blockSize_of x) by lia.
    rewrite (u64_small (blockSize_of x)) by lia.
    replace (64 - leading_of x - blockSize_of x) with (trailing_of x) by lia.
    rewrite (u64_small (trailing_of x)) by (unfold trailing_of, LeadingZeros64 in *; lia).
    rewrite (readBits_layout B (g + 2 + 5 + 6) (Z.shiftr x (trailing_of x)) (blockSize_of x));
      [| lia | lia | exact Hd5 | lia | exact L5].
    rewrite shift_back by (unfold trailing_of in *; lia).
    rewrite (u64_small x) by lia.
    cbn [fst snd]. rewrite ?Z.add_0_r, ?Z.add_assoc.
    replace (g + 1 + 1) with (g + 2) by lia. reflexivity.
Qed.

Lemma window_after_nonneg pl pt x :
  0 <= x < 2 ^ 64 -> 0 <= pl -> 0 <= pt ->
  0 <= fst (window_after pl pt x) /\ 0 <= snd (window_after pl pt x).
Proof.
  intros Hx Hpl Hpt. unfold window_after.
  destruct (x =? 0) eqn:E0; [cbn; lia |].
  destruct (reuse_test pl pt x); [cbn; lia |].
  cbn [fst snd]. unfold u8.
  split; apply Z.mod_pos_bound; reflexivity.
Qed.

Lemma append_ok_facts c ts v c' :
  chunk_inv c -> clean (data c) (idx c) -> 0 <= v < 2 ^ 64 ->
  numSamples c <> 0 ->
  Compressed_Append c ts v = (CR_OK, c') ->
  let ic := int_code (doubleDelta_of c ts) in
  let x := Z.lxor v (prevValue c) in
  let fc := float_code (prevLeading c) (prevTrailing c) x in
  idx c' = idx c + total ic + total fc /\ idx c' <= size c * 8 /\
  size c' = size c /\ numSamples c' = u64 (numSamples c + 1) /\
  baseTimestamp c' = baseTimestamp c /\ baseValue c' = baseValue c /\
  prevTimestamp c' = ts /\ prevTimestampDelta c' = i64 (curDelta_of c ts) /\
  prevValue c' = v /\
  prevLeading c' = fst (window_after (prevLeading c) (prevTrailing c) x) /\
  prevTrailing c' = snd (window_after (prevLeading c) (prevTrailing c) x) /\
  clean (data c') (idx c') /\
  (forall p, 0 <= p < idx c -> getbit (data c') p = getbit (data c) p) /\
  layout (data c') (idx c) ic /\ layout (data c') (idx c + total ic) fc.
Proof.
  intros Hinv Hcl Hv Hn E ic x fc.
  pose proof Hinv as (Hi & Hs & Hpv & Hpl & Hpt).
  assert (Hic := int_code_total (doubleDelta_of c ts)). fold ic in Hic.
  assert (Hx := lxor_u64 v (prevValue c) Hv Hpv). fold x in Hx.
  assert (Hfok := float_code_ok _ _ _ Hx Hpl Hpt). fold fc in Hfok.
  assert (Hft := total_nonneg _ Hfok).
  destruct (Compressed_Append_cases c ts v Hinv Hv Hn)
    as [(_ & Ec) | [(_ & _ & _ & Ec) | (Hsp & Ec)]];
    rewrite Ec in E; inversion E; subst c'; clear E Ec.
  fold ic in Hsp |- *. fold x in Hsp |- *. fold fc in Hsp |- *.
  set (c1 := int_post c ts).
  destruct (int_post_facts c ts) as (F1&F2&F3&F4&F5&F6&F7&F8&F9&F10&F11&_);
    [lia | fold ic; lia |].
  fold c1 ic in F1, F2, F3, F4, F5, F6, F7, F8, F9, F10, F11.
  destruct (emits_spec ic c) as (_&_&_&A4&A5&A6); [lia | apply int_code_ok | lia |].
  destruct (emits_spec fc c1) as (B1&_&B3&B4&B5&B6); [lia | exact Hfok | lia |].
  destruct B3 as (G1&G2&G3&G4&G5&G6&G7&G8&G9).
  destruct (float_post_facts c1 v (emits c1 fc)) as (P1&P2&_&P4&P5&P6&P7&P8&P9).
  assert (Hc1 : clean (data c1) (idx c1)).
  { intros p Hp. rewrite F11, A5 by lia. apply Hcl. lia. }
  cbn [idx size numSamples baseTimestamp baseValue prevTimestamp
       prevTimestampDelta prevValue prevLeading prevTrailing data set_numSamples].
  rewrite P1, P2, P4, P5, P6, P7, P8, P9, B1, F1, G1, G2, G3, G4, G5, G6.
  rewrite F2, F3, F4, F5, F9, F10.
  split; [lia |]. split; [lia |].
  do 6 (split; [reflexivity |]).
  assert (Hwin : prevValue (float_post c1 v (emits c1 fc)) = v /\
     prevLeading (float_post c1 v (emits c1 fc)) =
       fst (window_after (prevLeading c) (prevTrailing c) x) /\
     prevTrailing (float_post c1 v (emits c1 fc)) =
       snd (window_after (prevLeading c) (prevTrailing c) x)).
  { unfold float_post, window_after. rewrite F6, F7, F8. fold x.
    destruct (x =? 0) eqn:E0.
    - apply Z.eqb_eq in E0. unfold x in E0. apply Z.lxor_eq in E0.
      cbn [fst snd]. rewrite G7, G8, G9, F6, F7, F8. auto.
    - destruct (reuse_test (prevLeading c) (prevTrailing c) x);
        cbn [fst snd prevValue prevLeading prevTrailing set_prevValue set_window];
        rewrite ?G8, ?G9, ?F7, ?F8; auto. }
  destruct Hwin as (W1 & W2 & W3).
  split; [exact W1 |]. split; [exact W2 |]. split; [exact W3 |].
  split.
  { intros p Hp. rewrite B5 by lia. apply Hc1. lia. }
  split.
  { intros p Hp. rewrite B4 by lia. rewrite F11. apply A4. exact Hp. }
  split.
  { apply (layout_transfer ic (data (emits c ic))); [apply int_code_ok | | apply A6; exact Hcl].
    intros p Hp. rewrite B4 by lia. rewrite F11. reflexivity. }
  rewrite <- F1. apply B6. exact Hc1.
Qed.

Lemma u64_idem z : u64 (u64 z) = u64 z.
Proof. unfold u64. apply Z.mod_mod. lia. Qed.

Lemma decode_delta pT pD ts :
  i64 (pD + i64 (u64 (u64 (ts - pT) - pD))) = i64 (u64 (ts - pT)).
Proof.
  apply i64_congr.
  rewrite <- u64_add_r, u64_i64, u64_idem, u64_add_r, u64_idem.
  rewrite <- (u64_idem (ts - pT)) at 2. f_equal. lia.
Qed.

Lemma decode_ts pT pD ts :
  0 <= ts < 2 ^ 64 ->
  u64 (pT + i64 (pD + i64 (u64 (u64 (ts - pT) - pD)))) = ts.
Proof.
  intros Hts. rewrite decode_delta.
  rewrite <- u64_add_r, u64_i64, u64_idem, u64_add_r.
  replace (pT + (ts - pT)) with ts by lia. apply u64_small. exact Hts.
Qed.

Lemma ReadNext_eq c it :
  it_count it < numSamples c -> it_count it <> 0 ->
  Compressed_ReadNext c it =
  (CR_OK,
   Some (fst (readInteger (data c) it),
         fst (readFloat (data c)
                (mkIter (it_idx (snd (readInteger (data c) it)))
                        (it_count (snd (readInteger (data c) it)))
                        (fst (readInteger (data c) it))
                        (it_prevDelta (snd (readInteger (data c) it)))
                        (it_prevValue (snd (readInteger (data c) it)))
                        (it_prevLeading (snd (readInteger (data c) it)))
                        (it_prevTrailing (snd (readInteger (data c) it)))))),
   let it2 := snd (readFloat (data c)
                (mkIter (it_idx (snd (readInteger (data c) it)))
                        (it_count (snd (readInteger (data c) it)))
                        (fst (readInteger (data c) it))
                        (it_prevDelta (snd (readInteger (data c) it)))
                        (it_prevValue (snd (readInteger (data c) it)))
                        (it_prevLeading (snd (readInteger (data c) it)))
                        (it_prevTrailing (snd (readInteger (data c) it))))) in
   mkIter (it_idx it2) (u64 (it_count it2 + 1)) (it_prevTS it2)
          (it_prevDelta it2)
          (fst (readFloat (data c)
                (mkIter (it_idx (snd (readInteger (data c) it)))
                        (it_count (snd (readInteger (data c) it)))
                        (fst (readInteger (data c) it))
                        (it_prevDelta (snd (readInteger (data c) it)))
                        (it_prevValue (snd (readInteger (data c) it)))
                        (it_prevLeading (snd (readInteger (data c) it)))
                        (it_prevTrailing (snd (readInteger (data c) it))))))
          (it_prevLeading it2) (it_prevTrailing it2)).
Proof.
  intros H1 H2. unfold Compressed_ReadNext.
  assert (E1 : (numSamples c <=? it_count it) = false) by (apply Z.leb_gt; exact H1).
  assert (E2 : (it_count it =? 0) = false) by (apply Z.eqb_neq; exact H2).
  rewrite E1, E2.
  destruct (readInteger (data c) it) as [ts it1]. cbn [fst snd].
  destruct (readFloat (data c) _) as [v it2]. reflexivity.
Qed.

Lemma step_read c ts v c' it cf :
  chunk_inv c -> clean (data c) (idx c) -> 1 <= numSamples c ->
  0 <= ts < 2 ^ 64 -> 0 <= v < 2 ^ 64 ->
  Compressed_Append c ts v = (CR_OK, c') -> sync c it ->
  numSamples c < numSamples cf ->
  (forall p, idx c <= p < idx c' -> getbit (data cf) p = getbit (data c') p) ->
  exists it', Compressed_ReadNext cf it = (CR_OK, Some (ts, v), it') /\ sync c' it'.
Proof.
  intros Hinv Hcl Hn Hts Hv E Hs Hcf Hag.
  pose proof Hinv as (Hi & Hsz & Hpv & Hpl & Hpt).
  destruct (append_ok_facts c ts v c' Hinv Hcl Hv ltac:(lia) E)
    as (K1&K2&K3&K4&K5&K6&K7&K8&K9&K10&K11&K12&K13&K14&K15).
  set (ic := int_code (doubleDelta_of c ts)) in *.
  set (x := Z.lxor v (prevValue c)) in *.
  set (fc := float_code (prevLeading c) (prevTrailing c) x) in *.
  assert (Hic := int_code_total (doubleDelta_of c ts)). fold ic in Hic.
  assert (Hx := lxor_u64 v (prevValue c) Hv Hpv). fold x in Hx.
  assert (Hfok := float_code_ok _ _ _ Hx Hpl Hpt). fold fc in Hfok.
  assert (Hft := total_nonneg _ Hfok).
  destruct it as [i n pts pd pv pl pt].
  unfold sync in Hs. cbn [it_idx it_count it_prevTS it_prevDelta it_prevValue
                          it_prevLeading it_prevTrailing] in Hs.
  destruct Hs as (-> & -> & -> & -> & -> & -> & ->).
  assert (L1 : layout (data cf) (idx c) ic).
  { apply (layout_transfer ic (data c')); [apply int_code_ok | | exact K14].
    intros p Hp. apply Hag. lia. }
  assert (L2 : layout (data cf) (idx c + total ic) fc).
  { apply (layout_transfer fc (data c')); [exact Hfok | | exact K15].
    intros p Hp. apply Hag. lia. }
  rewrite ReadNext_eq; cbn [it_count]; [| lia | lia].
  rewrite (readInteger_layout (data cf) _ (doubleDelta_of c ts));
    cbn [it_idx it_count it_prevTS it_prevDelta it_prevValue
         it_prevLeading it_prevTrailing];
    [| apply doubleDelta_of_range | lia | fold ic; lia | exact L1].
  cbn [fst snd it_idx it_count it_prevTS it_prevDelta it_prevValue
       it_prevLeading it_prevTrailing].
  fold ic.
  rewrite (readFloat_layout (data cf) _ x);
    cbn [it_idx it_count it_prevTS it_prevDelta it_prevValue
         it_prevLeading it_prevTrailing];
    [| exact Hx | exact Hpl | exact Hpt | lia | fold fc; lia | exact L2].
  cbn [fst snd it_idx it_count it_prevTS it_prevDelta it_prevValue
       it_prevLeading it_prevTrailing].
  fold fc.
  unfold doubleDelta_of, curDelta_of.
  rewrite decode_ts by exact Hts. rewrite decode_delta.
  unfold x. rewrite lxor_cancel.
  eexists. split; [reflexivity |].
  unfold sync. cbn [it_idx it_count it_prevTS it_prevDelta it_prevValue
                    it_prevLeading it_prevTrailing].
  rewrite K1, K4, K7, K8, K9, K10, K11. unfold curDelta_of.
  repeat split; reflexivity.
Qed.

Lemma u8_nonneg z : 0 <= u8 z.
Proof. unfold u8. apply Z.mod_pos_bound. reflexivity. Qed.

Lemma float_code_total_pos pl pt x :
  0 <= x < 2 ^ 64 -> 0 <= pl -> 0 <= pt -> 1 <= total (float_code pl pt x).
Proof.
  intros Hx Hpl Hpt. rewrite float_code_total by assumption.
  destruct (x =? 0); [lia |].
  destruct (reuse_test pl pt x).
  - pose proof (u8_nonneg (BINW - pl - pt)). unfold prevBlockInfoSize_of. lia.
  - pose proof (u8_nonneg (BINW - leading_of x - trailing_of x)).
    unfold blockSize_of. lia.
Qed.

Lemma append_preserves c ts v c' :
  enc_inv c -> 0 <= v < 2 ^ 64 ->
  Compressed_Append c ts v = (CR_OK, c') ->
  enc_inv c' /\ numSamples c' = numSamples c + 1 /\ idx c <= idx c' /\
  baseTimestamp c' = baseTimestamp c /\ baseValue c' = baseValue c /\
  (forall p, 0 <= p < idx c -> getbit (data c') p = getbit (data c) p).
Proof.
  intros (Hinv & Hcl & Hn & Hb) Hv E.
  pose proof Hinv as (Hi & Hsz & Hpv & Hpl & Hpt).
  destruct (append_ok_facts c ts v c' Hinv Hcl Hv ltac:(lia) E)
    as (K1&K2&K3&K4&K5&K6&K7&K8&K9&K10&K11&K12&K13&_).
  assert (Hic := int_code_total (doubleDelta_of c ts)).
  assert (Hx := lxor_u64 v (prevValue c) Hv Hpv).
  assert (Hft := float_code_total_pos _ _ _ Hx Hpl Hpt).
  destruct (window_after_nonneg _ _ _ Hx Hpl Hpt) as [W1 W2].
  assert (Hns : numSamples c' = numSamples c + 1).
  { rewrite K4. apply u64_small. lia. }
  split.
  { split.
    - unfold chunk_inv. rewrite K3, K9, K10, K11. repeat split; lia.
    - split; [exact K12 |]. rewrite Hns. lia. }
  split; [exact Hns |]. split; [lia |].
  split; [exact K5 |]. split; [exact K6 | exact K13].
Qed.

Lemma append_all_preserves l : forall c cf,
  enc_inv c -> Forall sample_ok l -> append_all c l = Some cf ->
  enc_inv cf /\ numSamples cf = numSamples c + Z.of_nat (length l) /\
  idx c <= idx cf /\
  baseTimestamp cf = baseTimestamp c /\ baseValue cf = baseValue c /\
  (forall p, 0 <= p < idx c -> getbit (data cf) p = getbit (data c) p).
Proof.
  induction l as [| [ts v] l IH]; intros c cf Hinv Hok E.
  - cbn in E. inversion E; subst. cbn [length Z.of_nat].
    rewrite Z.add_0_r. repeat split; try reflexivity; try lia; apply Hinv.
  - inversion Hok as [| ? ? [_ Hv] Hok']; subst. cbn [fst snd] in Hv.
    cbn [append_all] in E.
    destruct (Compressed_Append c ts v) as [r c1] eqn:Ea.
    destruct r; try discriminate.
    destruct (append_preserves c ts v c1 Hinv Hv Ea) as (P1&P2&P3&P4&P5&P6).
    destruct (IH c1 cf P1 Hok' E) as (Q1&Q2&Q3&Q4&Q5&Q6).
    assert (Hi : 0 <= idx c) by apply Hinv.
    split; [exact Q1 |]. split.
    { rewrite Q2, P2. cbn [length]. lia. }
    split; [lia |]. split; [congruence |]. split; [congruence |].
    intros p Hp. rewrite Q6 by lia. apply P6. exact Hp.
Qed.

Lemma roundtrip_from l : forall c it cf,
  enc_inv c -> sync c it -> Forall sample_ok l ->
  append_all c l = Some cf ->
  exists it', read_n cf it (length l) = (l, it') /\ sync cf it'.
Proof.
  induction l as [| [ts v] l IH]; intros c it cf Hinv Hs Hok E.
  - cbn in E. inversion E; subst. exists it. split; [reflexivity | exact Hs].
  - inversion Hok as [| ? ? [Hts Hv] Hok']; subst. cbn [fst snd] in Hts, Hv.
    cbn [append_all] in E.
    destruct (Compressed_Append c ts v) as [r c1] eqn:Ea.
    destruct r; try discriminate.
    destruct (append_preserves c ts v c1 Hinv Hv Ea) as (P1&P2&P3&_).
    destruct (append_all_preserves l c1 cf P1 Hok' E) as (Q1&Q2&Q3&_&_&Q6).
    destruct Hinv as (Hci & Hcl & Hn & Hb).
    assert (Hi : 0 <= idx c) by apply Hci.
    destruct (step_read c ts v c1 it cf Hci Hcl Hn Hts Hv Ea Hs) as (it1 & R1 & R2).
    { rewrite Q2, P2. lia. }
    { intros p Hp. apply Q6. lia. }
    destruct (IH c1 it1 cf P1 R2 Hok' E) as (it' & R3 & R4).
    exists it'. split; [| exact R4].
    cbn [length read_n]. rewrite R1, R3. reflexivity.
Qed.

Lemma roundtrip_general C l cf :
  0 <= C * 8 < 2 ^ 64 -> Forall sample_ok l ->
  append_all (Compressed_NewChunk C) l = Some cf ->
  iterate cf (length l) = (l, CR_END).
Proof.
  intros HC Hok E. unfold iterate.
  destruct l as [| [t0 v0] l].
  - cbn in E. inversion E; subst. reflexivity.
  - inversion Hok as [| ? ? [Hts Hv] Hok']; subst. cbn [fst snd] in Hts, Hv.
    cbn [append_all] in E.
    set (c1 := set_numSamples (set_first_sample (Compressed_NewChunk C) t0 v0)
                 (u64 (numSamples (Compressed_NewChunk C) + 1))) in *.
    change (Compressed_Append (Compressed_NewChunk C) t0 v0) with (CR_OK, c1) in E.
    assert (Hinv : enc_inv c1).
    { unfold enc_inv, chunk_inv, clean. cbn. repeat split; try lia.
      intros p _. unfold getbit. apply Z.bits_0. }
    destruct (append_all_preserves l c1 cf Hinv Hok' E) as (Q1&Q2&_&Q4&Q5&_).
    set (it1 := mkIter 0 1 t0 0 v0 0 0).
    assert (Hs : sync c1 it1) by (unfold sync; cbn; repeat split).
    destruct (roundtrip_from l c1 it1 cf Hinv Hs Hok' E) as (it' & R1 & R2).
    assert (Hfirst : Compressed_ReadNext cf (Compressed_NewChunkIterator cf)
                     = (CR_OK, Some (t0, v0), it1)).
    { unfold Compressed_ReadNext, Compressed_NewChunkIterator.
      cbn [it_count it_idx it_prevTS it_prevDelta it_prevValue it_prevLeading
           it_prevTrailing].
      assert (E1 : (numSamples cf <=? 0) = false).
      { apply Z.leb_gt. rewrite Q2. change (numSamples c1) with 1. lia. }
      rewrite E1, Q4, Q5. reflexivity. }
    cbn [length read_n]. rewrite Hfirst, R1.
    unfold Compressed_ReadNext.
    destruct R2 as (_ & Hc & _). rewrite Hc.
    rewrite Z.leb_refl. reflexivity.
Qed.

(** C1. For every zero-initialized chunk of capacity C (with 8 * C a u64)
    and every list of samples, 64-bit timestamps that never decrease and
    64-bit value patterns, for which every [Compressed_Append] returns
    CR_OK, a fresh iterator on the resulting chunk yields exactly the
    samples, in order, timestamps and value patterns equal bit for bit, and
    then CR_END. *)
Theorem C1_roundtrip (C : Z) (l : list (Z * Z)) (cf : CompressedChunk) :
  0 <= C * 8 < 2 ^ 64 ->
  Forall sample_ok l ->
  nondecreasing (map fst l) ->
  append_all (Compressed_NewChunk C) l = Some cf ->
  iterate cf (length l) = (l, CR_END).
Proof.
  intros HC Hok _ E. exact (roundtrip_general C l cf HC Hok E).
Qed.

Lemma s2_append_all : append_all (Compressed_NewChunk 128) s2_samples = Some s2_chunk.
Proof. vm_compute. reflexivity. Qed.

Lemma C1_witness :
  0 <= 128 * 8 < 2 ^ 64 /\ Forall sample_ok s2_samples /\
  nondecreasing (map fst s2_samples) /\
  iterate s2_chunk (length s2_samples) = (s2_samples, CR_END).
Proof.
  assert (H1 : 0 <= 128 * 8 < 2 ^ 64) by lia.
  assert (H2 : Forall sample_ok s2_samples).
  { unfold s2_samples, bits_5_0. forall_pieces; unfold sample_ok; cbn [fst snd]; lia. }
  assert (H3 : nondecreasing (map fst s2_samples)) by (cbn; lia).
  split; [exact H1 | split; [exact H2 | split; [exact H3 |]]].
  exact (C1_roundtrip 128 s2_samples s2_chunk H1 H2 H3 s2_append_all).
Defined.

(** ** Further properties of the encoder *)

Lemma float_code_total_le pl pt x :
  0 <= x < 2 ^ 64 -> 0 <= pl -> 0 <= pt -> total (float_code pl pt x) <= 77.
Proof.
  intros Hx Hpl Hpt. rewrite float_code_total by assumption.
  destruct (x =? 0) eqn:E0; [lia |].
  apply Z.eqb_neq in E0. assert (Hx' : 0 < x < 2 ^ 64) by lia.
  destruct (window_facts x Hx') as (_ & _ & _ & _ & _ & Hb & _).
  destruct (reuse_test pl pt x) eqn:Er; [| lia].
  destruct (reuse_facts pl pt x Hx' Hpl Hpt Er) as (_ & _ & _ & Hp & _). lia.
Qed.

(** The fields and the earlier bits after a successful append that is not
    the first, with no assumption on the bits at or beyond the cursor. *)
Lemma append_ok_fields c ts v c' :
  chunk_inv c -> 0 <= v < 2 ^ 64 -> numSamples c <> 0 ->
  Compressed_Append c ts v = (CR_OK, c') ->
  let ic := int_code (doubleDelta_of c ts) in
  let x := Z.lxor v (prevValue c) in
  let fc := float_code (prevLeading c) (prevTrailing c) x in
  idx c' = idx c + total ic + total fc /\ idx c' <= size c * 8 /\
  size c' = size c /\ numSamples c' = u64 (numSamples c + 1) /\
  baseTimestamp c' = baseTimestamp c /\ baseValue c' = baseValue c /\
  prevTimestamp c' = ts /\ prevTimestampDelta c' = i64 (curDelta_of c ts) /\
  prevValue c' = v /\
  prevLeading c' = fst (window_after (prevLeading c) (prevTrailing c) x) /\
  prevTrailing c' = snd (window_after (prevLeading c) (prevTrailing c) x) /\
  (forall p, 0 <= p < idx c -> getbit (data c') p = getbit (data c) p).
Proof.
  intros Hinv Hv Hn E ic x fc.
  pose proof Hinv as (Hi & Hs & Hpv & Hpl & Hpt).
  assert (Hic := int_code_total (doubleDelta_of c ts)). fold ic in Hic.
  assert (Hx := lxor_u64 v (prevValue c) Hv Hpv). fold x in Hx.
  assert (Hfok := float_code_ok _ _ _ Hx Hpl Hpt). fold fc in Hfok.
  assert (Hft := total_nonneg _ Hfok).
  destruct (Compressed_Append_cases c ts v Hinv Hv Hn)
    as [(_ & Ec) | [(_ & _ & _ & Ec) | (Hsp & Ec)]];
    rewrite Ec in E; inversion E; subst c'; clear E Ec.
  fold ic in Hsp |- *. fold x in Hsp |- *. fold fc in Hsp |- *.
  set (c1 := int_post c ts).
  destruct (int_post_facts c ts) as (F1&F2&F3&F4&F5&F6&F7&F8&F9&F10&F11&_);
    [lia | fold ic; lia |].
  fold c1 ic in F1, F2, F3, F4, F5, F6, F7, F8, F9, F10, F11.
  destruct (emits_spec ic c) as (_&_&_&A4&_); [lia | apply int_code_ok | lia |].
  destruct (emits_spec fc c1) as (B1&_&B3&B4&_); [lia | exact Hfok | lia |].
  destruct B3 as (G1&G2&G3&G4&G5&G6&G7&G8&G9).
  destruct (float_post_facts c1 v (emits c1 fc)) as (P1&P2&_&P4&P5&P6&P7&P8&P9).
  cbn [idx size numSamples baseTimestamp baseValue prevTimestamp
       prevTimestampDelta prevValue prevLeading prevTrailing data set_numSamples].
  rewrite P1, P2, P4, P5, P6, P7, P8, P9, B1, F1, G1, G2, G3, G4, G5, G6.
  rewrite F2, F3, F4, F5, F9, F10.
  split; [lia |]. split; [lia |].
  do 6 (split; [reflexivity |]).
  assert (Hwin : prevValue (float_post c1 v (emits c1 fc)) = v /\
     prevLeading (float_post c1 v (emits c1 fc)) =
       fst (window_after (prevLeading c) (prevTrailing c) x) /\
     prevTrailing (float_post c1 v (emits c1 fc)) =
       snd (window_after (prevLeading c) (prevTrailing c) x)).
  { unfold float_post, window_after. rewrite F6, F7, F8. fold x.
    destruct (x =? 0) eqn:E0.
    - apply Z.eqb_eq in E0. unfold x in E0. apply Z.lxor_eq in E0.
      cbn [fst snd]. rewrite G7, G8, G9, F6, F7, F8. auto.
    - destruct (reuse_test (prevLeading c) (prevTrailing c) x);
        cbn [fst snd prevValue prevLeading prevTrailing set_prevValue set_window];
        rewrite ?G8, ?G9, ?F7, ?F8; auto. }
  destruct Hwin as (W1 & W2 & W3).
  split; [exact W1 |]. split; [exact W2 |]. split; [exact W3 |].
  intros p Hp. rewrite B4 by lia. rewrite F11. apply A4. exact Hp.
Qed.

(** The fields after a failed append. *)
Lemma append_end_fields c ts v c' :
  chunk_inv c -> 0 <= v < 2 ^ 64 ->
  Compressed_Append c ts v = (CR_END, c') ->
  numSamples c <> 0 /\ same_header c c' /\ idx c' = idx c /\
  (forall p, 0 <= p < idx c -> getbit (data c') p = getbit (data c) p).
Proof.
  intros Hinv Hv E.
  destruct (Z.eq_dec (numSamples c) 0) as [H0 | H0].
  { pose proof (first_append_ok c ts v H0) as F. rewrite E in F. discriminate. }
  split; [exact H0 |].
  pose proof Hinv as (Hi & Hs & Hpv & Hpl & Hpt).
  assert (Hic := int_code_total (doubleDelta_of c ts)).
  destruct (Compressed_Append_cases c ts v Hinv Hv H0)
    as [(Hsp & Ec) | [(Hsp & Hsf & Hx & Ec) | (Hsp & Ec)]];
    rewrite Ec in E; inversion E; subst c'; clear E.
  - split; [| split; [reflexivity | reflexivity]].
    unfold same_header. cbn. repeat split.
  - destruct (int_post_facts c ts) as (F1&F2&F3&F4&F5&F6&F7&F8&_&_&F11&_);
      [lia | lia |].
    destruct (header_cab (int_post c ts) 1 1) as (G1&G2&G3&G4&_&_&G7&G8&G9).
    destruct (emits_spec (int_code (doubleDelta_of c ts)) c) as (_&_&_&I4&_);
      [lia | apply int_code_ok | lia |].
    split; [| split; [reflexivity |]].
    + unfold same_header. cbn. repeat split; congruence.
    + intros p Hp. cbn. rewrite data_cab.
      rewrite appendBits_below by lia.
      rewrite F11. apply I4. exact Hp.
Qed.

Lemma window_after_sum pl pt x :
  0 <= x < 2 ^ 64 -> 0 <= pl -> 0 <= pt -> pl + pt <= 64 ->
  fst (window_after pl pt x) + snd (window_after pl pt x) <= 64.
Proof.
  intros Hx Hpl Hpt Hs. unfold window_after.
  destruct (x =? 0) eqn:E0; [cbn [fst snd]; lia |].
  destruct (reuse_test pl pt x); [cbn [fst snd]; lia |].
  apply Z.eqb_neq in E0. assert (Hx' : 0 < x < 2 ^ 64) by lia.
  destruct (window_facts x Hx') as (Hl & Hl' & Ht & Hsum & _).
  cbn [fst snd]. unfold trailing_of in *.
  rewrite !u8_small by lia. lia.
Qed.

(** A non-first append succeeds exactly when the whole encoding fits. *)
Lemma append_ok_iff c ts v :
  chunk_inv c -> 0 <= v < 2 ^ 64 -> numSamples c <> 0 ->
  (fst (Compressed_Append c ts v) = CR_OK <->
   idx c + total (int_code (doubleDelta_of c ts)) +
   total (float_code (prevLeading c) (prevTrailing c) (Z.lxor v (prevValue c)))
   <= size c * 8) /\
  (fst (Compressed_Append c ts v) = CR_OK \/
   fst (Compressed_Append c ts v) = CR_END).
Proof.
  intros Hinv Hv Hn.
  pose proof Hinv as (Hi & Hs & Hpv & Hpl & Hpt).
  assert (Hx := lxor_u64 v (prevValue c) Hv Hpv).
  assert (Hft := float_code_total_pos _ _ _ Hx Hpl Hpt).
  destruct (Compressed_Append_cases c ts v Hinv Hv Hn)
    as [(Hsp & Ec) | [(Hsp & Hsf & _ & Ec) | (Hsp & Ec)]];
    rewrite Ec; cbn [fst].
  - split; [| right; reflexivity]. split; [discriminate | lia].
  - split; [| right; reflexivity]. split; [discriminate | lia].
  - split; [| left; reflexivity]. split; [intros _; exact Hsp | reflexivity].
Qed.

Lemma ok_append_eq :
  Compressed_Append one_sample_chunk128 10 0 =
  (CR_OK, snd (Compressed_Append one_sample_chunk128 10 0)).
Proof.
  apply injective_projections; [vm_compute; reflexivity | reflexivity].
Qed.

Lemma one_sample_chunk128_inv : chunk_inv one_sample_chunk128.
Proof. unfold chunk_inv. cbn. lia. Qed.

(** X1. A successful append that is not the first moves the cursor forward
    by at least 2 and at most 147 bits (1 to 70 for the timestamp, 1 to 77
    for the value), never past 8 * size, and leaves size alone. *)
Theorem X1_append_cursor_growth (c c' : CompressedChunk) (ts v : Z) :
  chunk_inv c -> 0 <= v < 2 ^ 64 -> numSamples c <> 0 ->
  Compressed_Append c ts v = (CR_OK, c') ->
  idx c + 2 <= idx c' <= idx c + 147 /\ idx c' <= size c * 8 /\
  size c' = size c.
Proof.
  intros Hinv Hv Hn E.
  pose proof Hinv as (Hi & Hs & Hpv & Hpl & Hpt).
  destruct (append_ok_fields c ts v c' Hinv Hv Hn E) as (K1&K2&K3&_).
  assert (Hic := int_code_total (doubleDelta_of c ts)).
  assert (Hx := lxor_u64 v (prevValue c) Hv Hpv).
  assert (Hf1 := float_code_total_pos _ _ _ Hx Hpl Hpt).
  assert (Hf2 := float_code_total_le _ _ _ Hx Hpl Hpt).
  repeat split; lia.
Qed.

Lemma X1_witness :
  idx one_sample_chunk128 + 2
  <= idx (snd (Compressed_Append one_sample_chunk128 10 0))
  <= idx one_sample_chunk128 + 147.
Proof.
  assert (Hv : 0 <= 0 < 2 ^ 64) by lia.
  assert (Hn : numSamples one_sample_chunk128 <> 0) by (cbn; lia).
  exact (proj1 (X1_append_cursor_growth one_sample_chunk128 _ 10 0
                  one_sample_chunk128_inv Hv Hn ok_append_eq)).
Defined.

(** X2. On a chunk that holds at least one sample, for a timestamp not
    below prevTimestamp and a previous window with
    prevLeading + prevTrailing <= 64 (the two assertions of the encoder),
    [Compressed_Append] returns CR_OK exactly when the timestamp encoding
    plus the value encoding fit between the cursor and 8 * size, and CR_END
    otherwise; the CR_ERR of the two helpers never reaches the caller. *)
Theorem X2_append_ok_iff_fits (c : CompressedChunk) (ts v : Z) :
  chunk_inv c -> 0 <= v < 2 ^ 64 -> numSamples c <> 0 ->
  prevTimestamp c <= ts < 2 ^ 64 ->
  prevLeading c + prevTrailing c <= 64 ->
  (fst (Compressed_Append c ts v) = CR_OK <->
   idx c + total (int_code (doubleDelta_of c ts)) +
   total (float_code (prevLeading c) (prevTrailing c) (Z.lxor v (prevValue c)))
   <= size c * 8) /\
  (fst (Compressed_Append c ts v) <> CR_OK ->
   fst (Compressed_Append c ts v) = CR_END).
Proof.
  intros Hinv Hv Hn _ _.
  destruct (append_ok_iff c ts v Hinv Hv Hn) as [H1 [H2 | H2]].
  - split; [exact H1 | intros H; contradiction].
  - split; [exact H1 | intros _; exact H2].
Qed.

Lemma X2_witness :
  fst (Compressed_Append one_sample_chunk 1 (2 ^ 64 - 1)) = CR_OK <->
  idx one_sample_chunk + total (int_code (doubleDelta_of one_sample_chunk 1)) +
  total (float_code (prevLeading one_sample_chunk) (prevTrailing one_sample_chunk)
           (Z.lxor (2 ^ 64 - 1) (prevValue one_sample_chunk)))
  <= size one_sample_chunk * 8.
Proof.
  assert (Hv : 0 <= 2 ^ 64 - 1 < 2 ^ 64) by lia.
  assert (Hn : numSamples one_sample_chunk <> 0) by (cbn; lia).
  assert (Ht : prevTimestamp one_sample_chunk <= 1 < 2 ^ 64) by (cbn; lia).
  assert (Hw : prevLeading one_sample_chunk + prevTrailing one_sample_chunk <= 64)
    by (cbn; lia).
  exact (proj1 (X2_append_ok_iff_fits one_sample_chunk 1 (2 ^ 64 - 1)
                  one_sample_chunk_inv Hv Hn Ht Hw)).
Defined.

(** X3. [Compressed_Append] keeps the invariant of the data model,
    whatever it returns: afterwards the cursor is still within 8 * size,
    prevValue is a 64-bit pattern, and prevLeading + prevTrailing <= 64,
    which is what the assertion of [appendFloat] on the previous window
    asks for. *)
Theorem X3_append_keeps_invariant (c c' : CompressedChunk) (r : ChunkResult)
    (ts v : Z) :
  chunk_inv c -> prevLeading c + prevTrailing c <= 64 -> 0 <= v < 2 ^ 64 ->
  Compressed_Append c ts v = (r, c') ->
  chunk_inv c' /\ prevLeading c' + prevTrailing c' <= 64.
Proof.
  intros Hinv Hw Hv E.
  pose proof Hinv as (Hi & Hs & Hpv & Hpl & Hpt).
  destruct (Z.eq_dec (numSamples c) 0) as [H0 | H0].
  { unfold Compressed_Append in E. rewrite H0 in E. cbn [Z.eqb] in E.
    inversion E; subst. unfold chunk_inv. cbn. repeat split; lia. }
  destruct (append_ok_iff c ts v Hinv Hv H0) as [_ [Hr | Hr]];
    rewrite E in Hr; cbn [fst] in Hr; subst r.
  - destruct (append_ok_fields c ts v c' Hinv Hv H0 E)
      as (K1&K2&K3&_&_&_&_&_&K9&K10&K11&_).
    assert (Hx := lxor_u64 v (prevValue c) Hv Hpv).
    destruct (window_after_nonneg _ _ _ Hx Hpl Hpt) as [W1 W2].
    assert (W3 := window_after_sum _ _ _ Hx Hpl Hpt Hw).
    assert (Hic := int_code_total (doubleDelta_of c ts)).
    assert (Hf1 := float_code_total_pos _ _ _ Hx Hpl Hpt).
    unfold chunk_inv. rewrite K3, K9, K10, K11. repeat split; lia.
  - destruct (append_end_fields c ts v c' Hinv Hv E)
      as (_ & (G1&_&_&_&_&_&G7&G8&G9) & Gi & _).
    unfold chunk_inv. rewrite G1, G7, G8, G9, Gi. repeat split; lia.
Qed.

Lemma X3_witness :
  chunk_inv failed_chunk /\
  prevLeading failed_chunk + prevTrailing failed_chunk <= 64.
Proof.
  assert (Hv : 0 <= 2 ^ 64 - 1 < 2 ^ 64) by lia.
  assert (Hw : prevLeading one_sample_chunk + prevTrailing one_sample_chunk <= 64)
    by (cbn; lia).
  exact (X3_append_keeps_invariant one_sample_chunk failed_chunk CR_END 1
           (2 ^ 64 - 1) one_sample_chunk_inv Hw Hv failed_append_eq).
Defined.

(** X4. When the value pattern equals the previous one, a successful
    append that is not the first costs the timestamp encoding plus exactly
    one bit; with a delta-of-delta of 0 as well it costs exactly 2 bits.
    prevValue and the window are left as they were. *)
Theorem X4_equal_value_costs_one_bit (c c' : CompressedChunk) (ts : Z) :
  chunk_inv c -> numSamples c <> 0 ->
  Compressed_Append c ts (prevValue c) = (CR_OK, c') ->
  idx c' = idx c + total (int_code (doubleDelta_of c ts)) + 1 /\
  (doubleDelta_of c ts = 0 -> idx c' = idx c + 2) /\
  prevValue c' = prevValue c /\
  prevLeading c' = prevLeading c /\ prevTrailing c' = prevTrailing c.
Proof.
  intros Hinv Hn E.
  pose proof Hinv as (Hi & Hs & Hpv & Hpl & Hpt).
  destruct (append_ok_fields c ts (prevValue c) c' Hinv Hpv Hn E)
    as (K1&_&_&_&_&_&_&_&K9&K10&K11&_).
  rewrite Z.lxor_nilpotent in K1, K10, K11.
  unfold float_code, window_after in K1, K10, K11.
  cbn [Z.eqb total fst snd] in K1, K10, K11.
  split; [lia |]. split.
  - intros H0. rewrite H0 in K1. unfold int_code in K1.
    cbn [Z.eqb total] in K1. lia.
  - split; [exact K9 | split; [exact K10 | exact K11]].
Qed.

Lemma X4_witness :
  idx (snd (Compressed_Append one_sample_chunk128 10 0)) =
  idx one_sample_chunk128 + total (int_code (doubleDelta_of one_sample_chunk128 10)) + 1.
Proof.
  assert (Hn : numSamples one_sample_chunk128 <> 0) by (cbn; lia).
  exact (proj1 (X4_equal_value_costs_one_bit one_sample_chunk128 _ 10
                  one_sample_chunk128_inv Hn ok_append_eq)).
Defined.

(** X5. [Compressed_Append] is append-only: whatever it returns, every
    payload bit below the pre-call cursor keeps its value and size is
    unchanged; once the chunk holds a sample, baseTimestamp and baseValue
    are never written again. *)
Theorem X5_append_only (c c' : CompressedChunk) (r : ChunkResult) (ts v : Z) :
  chunk_inv c -> 0 <= v < 2 ^ 64 ->
  Compressed_Append c ts v = (r, c') ->
  (forall p, 0 <= p < idx c -> getbit (data c') p = getbit (data c) p) /\
  size c' = size c /\
  (numSamples c <> 0 ->
   baseTimestamp c' = baseTimestamp c /\ baseValue c' = baseValue c).
Proof.
  intros Hinv Hv E.
  destruct (Z.eq_dec (numSamples c) 0) as [H0 | H0].
  { unfold Compressed_Append in E. rewrite H0 in E. cbn [Z.eqb] in E.
    inversion E; subst. cbn.
    split; [reflexivity | split; [reflexivity | intros H; contradiction]]. }
  destruct (append_ok_iff c ts v Hinv Hv H0) as [_ [Hr | Hr]];
    rewrite E in Hr; cbn [fst] in Hr; subst r.
  - destruct (append_ok_fields c ts v c' Hinv Hv H0 E)
      as (_&_&K3&_&K5&K6&_&_&_&_&_&K12).
    split; [exact K12 | split; [exact K3 | intros _; split; assumption]].
  - destruct (append_end_fields c ts v c' Hinv Hv E)
      as (_ & (G1&_&G3&G4&_) & _ & Gb).
    split; [exact Gb | split; [exact G1 | intros _; split; assumption]].
Qed.

Lemma X5_witness :
  size failed_chunk = size one_sample_chunk.
Proof.
  assert (Hv : 0 <= 2 ^ 64 - 1 < 2 ^ 64) by lia.
  destruct (X5_append_only one_sample_chunk failed_chunk CR_END 1 (2 ^ 64 - 1)
              one_sample_chunk_inv Hv failed_append_eq) as (_ & H & _).
  exact H.
Defined.

(** X6. A failed append does not change what later appends return: on the
    chunk it leaves behind, any append returns the result it would have
    returned on the chunk before the failed call. *)
Theorem X6_failed_append_transparent (c c' : CompressedChunk)
    (ts v ts2 v2 : Z) :
  chunk_inv c -> 0 <= v < 2 ^ 64 -> 0 <= v2 < 2 ^ 64 ->
  Compressed_Append c ts v = (CR_END, c') ->
  fst (Compressed_Append c' ts2 v2) = fst (Compressed_Append c ts2 v2).
Proof.
  intros Hinv Hv Hv2 E.
  destruct (append_end_fields c ts v c' Hinv Hv E)
    as (Hn & (G1&G2&_&_&G5&G6&G7&G8&G9) & Gi & _).
  assert (Hinv' : chunk_inv c').
  { destruct Hinv as (Hi & Hs & Hpv & Hpl & Hpt).
    unfold chunk_inv. rewrite G1, G7, G8, G9, Gi. repeat split; lia. }
  assert (Hn' : numSamples c' <> 0) by (rewrite G2; exact Hn).
  destruct (append_ok_iff c ts2 v2 Hinv Hv2 Hn) as [A1 A2].
  destruct (append_ok_iff c' ts2 v2 Hinv' Hv2 Hn') as [B1 B2].
  assert (Hdd : doubleDelta_of c' ts2 = doubleDelta_of c ts2).
  { unfold doubleDelta_of, curDelta_of. rewrite G5, G6. reflexivity. }
  rewrite Hdd, G1, G7, G8, G9, Gi in B1.
  destruct A2 as [A2 | A2], B2 as [B2 | B2]; try congruence.
  - apply A1 in A2. apply B1 in A2. congruence.
  - apply B1 in B2. apply A1 in B2. congruence.
Qed.

Lemma X6_witness :
  fst (Compressed_Append failed_chunk 0 0) =
  fst (Compressed_Append one_sample_chunk 0 0).
Proof.
  assert (Hv : 0 <= 2 ^ 64 - 1 < 2 ^ 64) by lia.
  assert (Hv2 : 0 <= 0 < 2 ^ 64) by lia.
  exact (X6_failed_append_transparent one_sample_chunk failed_chunk 1
           (2 ^ 64 - 1) 0 0 one_sample_chunk_inv Hv Hv2 failed_append_eq).
Defined.

(** X7. For every non-zero 64-bit XOR the window computed by [appendFloat]
    fits the fields it is written to: the clamped leading count is at most
    31 and fits 5 bits, leading + trailing <= 63 (the assertion before the
    block size never fails), the block size is between 1 and 64 so that
    block size - 1 fits 6 bits, and the block, the XOR shifted right by the
    trailing count, fits the block size and gives the XOR back when shifted
    left again. *)
Theorem X7_window_fits (x : Z) :
  0 < x < 2 ^ 64 ->
  0 <= leading_of x <= 31 /\ leading_of x < 2 ^ DOUBLE_LEADING /\
  0 <= trailing_of x /\ leading_of x + trailing_of x <= 63 /\
  blockSize_of x = 64 - leading_of x - trailing_of x /\
  1 <= blockSize_of x <= 64 /\
  0 <= blockSize_of x - DOUBLE_BLOCK_ADJUST < 2 ^ DOUBLE_BLOCK_SIZE /\
  0 <= Z.shiftr x (trailing_of x) < 2 ^ blockSize_of x /\
  Z.shiftl (Z.shiftr x (trailing_of x)) (trailing_of x) = x.
Proof.
  intros Hx.
  destruct (window_facts x Hx) as (Hl & Hl' & Ht & Hs & Hb & Hb' & He).
  assert (Hlb := LeadingZeros64_bound x Hx).
  assert (E5 : 2 ^ DOUBLE_LEADING = 32) by reflexivity.
  assert (E6 : 2 ^ DOUBLE_BLOCK_SIZE = 64) by reflexivity.
  unfold DOUBLE_BLOCK_ADJUST.
  split; [lia |]. split; [lia |]. split; [lia |]. split; [lia |].
  split; [exact Hb |]. split; [lia |]. split; [lia |]. split.
  - apply shiftr_bound; try lia. split; [lia |].
    eapply Z.lt_le_trans; [exact Hlb |].
    apply Z.pow_le_mono_r; lia.
  - apply shift_back; [lia |]. unfold trailing_of in *. lia.
Qed.

Lemma X7_witness :
  Z.shiftl (Z.shiftr (2 ^ 52) (trailing_of (2 ^ 52))) (trailing_of (2 ^ 52)) = 2 ^ 52.
Proof.
  assert (Hx : 0 < 2 ^ 52 < 2 ^ 64) by (cbn; lia).
  destruct (X7_window_fits (2 ^ 52) Hx) as (_&_&_&_&_&_&_&_&H).
  exact H.
Defined.

(** ** Further properties of chunks built by appends *)

Lemma append_all_size l : forall c cf,
  enc_inv c -> Forall sample_ok l -> append_all c l = Some cf ->
  size cf = size c.
Proof.
  induction l as [| [ts v] l IH]; intros c cf Hinv Hok E.
  - cbn in E. inversion E; subst. reflexivity.
  - inversion Hok as [| ? ? [_ Hv] Hok']; subst. cbn [fst snd] in Hv.
    cbn [append_all] in E.
    destruct (Compressed_Append c ts v) as [r c1] eqn:Ea.
    destruct r; try discriminate.
    destruct (append_preserves c ts v c1 Hinv Hv Ea) as (P1&_).
    destruct Hinv as (Hci & _ & Hn & _).
    destruct (append_ok_fields c ts v c1 Hci Hv ltac:(lia) Ea) as (_&_&K3&_).
    rewrite (IH c1 cf P1 Hok' E). exact K3.
Qed.

Lemma new_chunk_first_sample C t0 v0 :
  0 <= C * 8 < 2 ^ 64 -> 0 <= v0 < 2 ^ 64 ->
  enc_inv (snd (Compressed_Append (Compressed_NewChunk C) t0 v0)) /\
  fst (Compressed_Append (Compressed_NewChunk C) t0 v0) = CR_OK.
Proof.
  intros HC Hv. split; [| reflexivity].
  unfold enc_inv, chunk_inv, clean. cbn. repeat split; try lia.
  intros p _. unfold getbit. apply Z.bits_0.
Qed.

(** X8. A chunk built from a zero-initialized chunk of capacity C by
    appends that all returned CR_OK counts exactly the samples appended,
    keeps its size, has its cursor within 8 * C, holds at most 4 * C + 1
    samples, and has no bit set at or beyond the cursor. *)
Theorem X8_built_chunk (C : Z) (l : list (Z * Z)) (cf : CompressedChunk) :
  0 <= C * 8 < 2 ^ 64 -> Forall sample_ok l ->
  append_all (Compressed_NewChunk C) l = Some cf ->
  numSamples cf = Z.of_nat (length l) /\ size cf = C /\
  0 <= idx cf <= C * 8 /\ numSamples cf <= 4 * C + 1 /\
  clean (data cf) (idx cf).
Proof.
  intros HC Hok E.
  destruct l as [| [t0 v0] l].
  - cbn in E. inversion E; subst.
    unfold Compressed_NewChunk. cbn [numSamples size idx data length Z.of_nat].
    split; [reflexivity |]. split; [reflexivity |].
    split; [lia |]. split; [lia |].
    intros p _. unfold getbit. apply Z.bits_0.
  - inversion Hok as [| ? ? [Hts Hv] Hok']; subst. cbn [fst snd] in Hts, Hv.
    destruct (new_chunk_first_sample C t0 v0 HC Hv) as [Hinv _].
    cbn [append_all] in E.
    set (c1 := snd (Compressed_Append (Compressed_NewChunk C) t0 v0)) in *.
    change (Compressed_Append (Compressed_NewChunk C) t0 v0) with (CR_OK, c1) in E.
    destruct (append_all_preserves l c1 cf Hinv Hok' E)
      as ((Qi & Qc & Qn & Qb) & Q2 & _).
    assert (Qs := append_all_size l c1 cf Hinv Hok' E).
    change (size c1) with C in Qs. change (numSamples c1) with 1 in Q2.
    destruct Qi as (Qi & _). rewrite Qs in Qi.
    split; [rewrite Q2; cbn [length]; lia |].
    split; [exact Qs |]. split; [exact Qi |]. split; [lia | exact Qc].
Qed.

Lemma X8_witness :
  numSamples s2_chunk = Z.of_nat (length s2_samples) /\ size s2_chunk = 128.
Proof.
  assert (H1 : 0 <= 128 * 8 < 2 ^ 64) by lia.
  assert (H2 : Forall sample_ok s2_samples).
  { unfold s2_samples, bits_5_0. forall_pieces; unfold sample_ok; cbn [fst snd]; lia. }
  destruct (X8_built_chunk 128 s2_samples s2_chunk H1 H2 s2_append_all)
    as (A & B & _).
  split; [exact A | exact B].
Defined.

Lemma read_n_more n : forall c it l it',
  read_n c it n = (l, it') -> numSamples c <= it_count it' ->
  forall k, read_n c it (n + k) = (l, it').
Proof.
  induction n as [| n IH]; intros c it l it' E Hc k.
  - cbn in E. inversion E; subst. cbn [Nat.add].
    destruct k as [| k]; [reflexivity |].
    cbn [read_n]. unfold Compressed_ReadNext.
    apply Z.leb_le in Hc. rewrite Hc. reflexivity.
  - cbn [Nat.add read_n] in *.
    destruct (Compressed_ReadNext c it) as [[r o] it1].
    destruct r; try exact E.
    destruct o as [s |]; try exact E.
    destruct (read_n c it1 n) as [l1 it2] eqn:E1.
    inversion E; subst.
    rewrite (IH c it1 l1 it' E1 Hc k). reflexivity.
Qed.

Lemma roundtrip_state C l cf :
  0 <= C * 8 < 2 ^ 64 -> Forall sample_ok l ->
  append_all (Compressed_NewChunk C) l = Some cf ->
  exists it',
    read_n cf (Compressed_NewChunkIterator cf) (length l) = (l, it') /\
    sync cf it'.
Proof.
  intros HC Hok E.
  destruct l as [| [t0 v0] l].
  - cbn in E. inversion E; subst.
    exists (Compressed_NewChunkIterator (Compressed_NewChunk C)).
    split; [reflexivity |]. unfold sync. cbn. repeat split.
  - inversion Hok as [| ? ? [Hts Hv] Hok']; subst. cbn [fst snd] in Hts, Hv.
    destruct (new_chunk_first_sample C t0 v0 HC Hv) as [Hinv _].
    cbn [append_all] in E.
    set (c1 := snd (Compressed_Append (Compressed_NewChunk C) t0 v0)) in *.
    change (Compressed_Append (Compressed_NewChunk C) t0 v0) with (CR_OK, c1) in E.
    destruct (append_all_preserves l c1 cf Hinv Hok' E) as (Q1&Q2&_&Q4&Q5&_).
    set (it1 := mkIter 0 1 t0 0 v0 0 0).
    assert (Hs : sync c1 it1) by (unfold sync; cbn; repeat split).
    destruct (roundtrip_from l c1 it1 cf Hinv Hs Hok' E) as (it' & R1 & R2).
    assert (Hfirst : Compressed_ReadNext cf (Compressed_NewChunkIterator cf)
                     = (CR_OK, Some (t0, v0), it1)).
    { unfold Compressed_ReadNext, Compressed_NewChunkIterator.
      cbn [it_count it_idx it_prevTS it_prevDelta it_prevValue it_prevLeading
           it_prevTrailing].
      assert (E1 : (numSamples cf <=? 0) = false).
      { apply Z.leb_gt. rewrite Q2. change (numSamples c1) with 1. lia. }
      rewrite E1, Q4, Q5. reflexivity. }
    exists it'. split; [| exact R2].
    cbn [length read_n]. rewrite Hfirst, R1. reflexivity.
Qed.

(** X9. On a chunk built from a zero-initialized chunk by appends that all
    returned CR_OK, a fresh iterator that has been called at least as many
    times as there are samples has yielded exactly the samples, however
    many more calls were made (CR_END repeats and changes nothing), and its
    cursor, count and rolling state are those of the encoder. *)
Theorem X9_iterator_ends_in_sync (C : Z) (l : list (Z * Z))
    (cf : CompressedChunk) :
  0 <= C * 8 < 2 ^ 64 -> Forall sample_ok l ->
  append_all (Compressed_NewChunk C) l = Some cf ->
  exists it',
    (forall k, read_n cf (Compressed_NewChunkIterator cf) (length l + k)
               = (l, it')) /\
    it_idx it' = idx cf /\ it_count it' = numSamples cf /\
    it_prevTS it' = prevTimestamp cf /\
    it_prevDelta it' = prevTimestampDelta cf /\
    it_prevValue it' = prevValue cf /\
    it_prevLeading it' = prevLeading cf /\
    it_prevTrailing it' = prevTrailing cf.
Proof.
  intros HC Hok E.
  destruct (roundtrip_state C l cf HC Hok E) as (it' & R & S).
  exists it'. split; [| exact S].
  intros k. apply read_n_more; [exact R |].
  destruct S as (_ & Sc & _). rewrite Sc. lia.
Qed.

Lemma X9_witness :
  exists it',
    (forall k, read_n s2_chunk (Compressed_NewChunkIterator s2_chunk)
                 (length s2_samples + k) = (s2_samples, it')) /\
    it_idx it' = idx s2_chunk.
Proof.
  assert (H1 : 0 <= 128 * 8 < 2 ^ 64) by lia.
  assert (H2 : Forall sample_ok s2_samples).
  { unfold s2_samples, bits_5_0. forall_pieces; unfold sample_ok; cbn [fst snd]; lia. }
  destruct (X9_iterator_ends_in_sync 128 s2_samples s2_chunk H1 H2 s2_append_all)
    as (it' & A & B & _).
  exists it'. split; [exact A | exact B].
Defined.

(** ** Further properties of the decoder and of the bit buffer *)

Ltac rd_cursor g k w :=
  match goal with
  | |- context [readBits ?B (g + k) w] =>
      rewrite (surjective_pairing (readBits B (g + k) w));
      rewrite (readBits_cursor B (g + k) w) by lia
  end.

(** X10. Whatever the buffer holds, [readInteger] consumes one of the
    seven lengths of the prefix table: 1, 7, 11, 15, 20, 38 or 70 bits. *)
Theorem X10_readInteger_consumes_table_length (B : bins_t)
    (it : Compressed_Iterator) :
  0 <= it_idx it -> it_idx it + 70 < 2 ^ 64 ->
  In (it_idx (snd (readInteger B it)) - it_idx it) [1; 7; 11; 15; 20; 38; 70].
Proof.
  intros Hg Hb. unfold readInteger. cbv zeta.
  set (g := it_idx it) in *. unfold_consts.
  norm_cursor g.
  destruct (Bins_bitoff B g).
  { cbn [snd it_idx]. left. lia. }
  destruct (Bins_bitoff B (g + 1)).
  { rd_cursor g 2 5. cbn [snd it_idx]. right. left. lia. }
  destruct (Bins_bitoff B (g + 2)).
  { rd_cursor g 3 8. cbn [snd it_idx]. do 2 right. left. lia. }
  destruct (Bins_bitoff B (g + 3)).
  { rd_cursor g 4 11. cbn [snd it_idx]. do 3 right. left. lia. }
  destruct (Bins_bitoff B (g + 4)).
  { rd_cursor g 5 15. cbn [snd it_idx]. do 4 right. left. lia. }
  destruct (Bins_bitoff B (g + 5)).
  { rd_cursor g 6 32. cbn [snd it_idx]. do 5 right. left. lia. }
  rd_cursor g 6 64. cbn [snd it_idx]. do 6 right. left. lia.
Qed.

Lemma X10_witness :
  In (it_idx (snd (readInteger (data s2_chunk)
                     (Compressed_NewChunkIterator s2_chunk)))
      - it_idx (Compressed_NewChunkIterator s2_chunk))
     [1; 7; 11; 15; 20; 38; 70].
Proof.
  apply X10_readInteger_consumes_table_length; cbn; lia.
Defined.

(** X11. [readBits] returns exactly bits [g, g + n) of the buffer, whatever
    the buffer holds: bit i of the result is buffer bit g + i for i < n and
    0 from n on, so the result is below 2^n; the cursor advances by n.
    This covers reads that span two bins. *)
Theorem X11_readBits_bits (B : bins_t) (g n : Z) :
  0 <= g -> 0 <= n <= 64 -> g + n < 2 ^ 64 ->
  (forall i, 0 <= i ->
     Z.testbit (fst (readBits B g n)) i = (i <? n) && getbit B (g + i)) /\
  0 <= fst (readBits B g n) < 2 ^ n /\
  snd (readBits B g n) = g + n.
Proof.
  intros Hg Hn Hb. split; [| split].
  - intros i Hi. apply readBits_testbit; assumption.
  - apply readBits_range; assumption.
  - apply readBits_cursor; assumption.
Qed.

Lemma X11_witness :
  0 <= fst (readBits (data s2_chunk) 60 10) < 2 ^ 10 /\
  snd (readBits (data s2_chunk) 60 10) = 60 + 10.
Proof.
  destruct (X11_readBits_bits (data s2_chunk) 60 10) as (_ & H1 & H2);
    [lia | lia | lia |].
  split; [exact H1 | exact H2].
Defined.

(** X12. Reads compose: reading n1 + n2 bits at g gives the n1 bits read at
    g in the low positions and the n2 bits read at g + n1 above them. *)
Theorem X12_readBits_split (B : bins_t) (g n1 n2 : Z) :
  0 <= g -> 0 <= n1 -> 0 <= n2 -> n1 + n2 <= 64 ->
  fst (readBits B g (n1 + n2)) =
  Z.lor (fst (readBits B g n1))
        (Z.shiftl (fst (readBits B (g + n1) n2)) n1).
Proof.
  intros Hg H1 H2 Hs. apply Z.bits_inj'. intros i Hi.
  rewrite Z.lor_spec, Z.shiftl_spec by lia.
  rewrite !readBits_testbit by lia.
  destruct (Z_lt_le_dec i n1) as [Hlt | Hge].
  - rewrite (Z.testbit_neg_r _ (i - n1)) by lia.
    assert (E1 : (i <? n1 + n2) = true) by (apply Z.ltb_lt; lia).
    assert (E2 : (i <? n1) = true) by (apply Z.ltb_lt; lia).
    rewrite E1, E2. cbn [andb]. symmetry. apply orb_false_r.
  - rewrite readBits_testbit by lia.
    assert (E2 : (i <? n1) = false) by (apply Z.ltb_ge; lia).
    rewrite E2. cbn [andb orb].
    replace (g + n1 + (i - n1)) with (g + i) by lia.
    f_equal.
    destruct (i <? n1 + n2) eqn:E1; symmetry.
    + apply Z.ltb_lt. apply Z.ltb_lt in E1. lia.
    + apply Z.ltb_ge. apply Z.ltb_ge in E1. lia.
Qed.

Lemma X12_witness :
  fst (readBits (data s2_chunk) 0 (2 + 5)) =
  Z.lor (fst (readBits (data s2_chunk) 0 2))
        (Z.shiftl (fst (readBits (data s2_chunk) (0 + 2) 5)) 2).
Proof.
  apply X12_readBits_split; lia.
Defined.

(** X13. [appendBits] never changes a bit below the cursor, whatever the
    data and the length. *)
Theorem X13_appendBits_below (B : bins_t) (g d n p : Z) :
  0 <= p < g ->
  getbit (fst (appendBits B g d n)) p = getbit B p.
Proof.
  intros Hp. apply appendBits_below. exact Hp.
Qed.

Lemma X13_witness :
  getbit (fst (appendBits (data s2_chunk) 10 (2 ^ 64 - 1) 64)) 9 =
  getbit (data s2_chunk) 9.
Proof.
  apply X13_appendBits_below. lia.
Defined.

(** X14. For data that fits its length, [appendBits] into zero bits
    followed by [readBits] at the same cursor gives the data back, both
    cursors advance by the length, and no bit outside [g, g + n) changes;
    this includes appends that span two bins. *)
Theorem X14_appendBits_readBits (B : bins_t) (g d n : Z) :
  0 <= g -> 0 <= n <= 64 -> 0 <= d < 2 ^ n -> g + n < 2 ^ 64 ->
  (forall p, g <= p < g + n -> getbit B p = false) ->
  snd (appendBits B g d n) = g + n /\
  readBits (fst (appendBits B g d n)) g n = (d, g + n) /\
  forall p, 0 <= p -> p < g \/ g + n <= p ->
            getbit (fst (appendBits B g d n)) p = getbit B p.
Proof.
  intros Hg Hn Hd Hb Hz. apply appendBits_readBits_fit; assumption.
Qed.

Lemma X14_witness :
  readBits (fst (appendBits (fun _ => 0) 60 1000 10)) 60 10 = (1000, 60 + 10).
Proof.
  destruct (X14_appendBits_readBits (fun _ => 0) 60 1000 10) as (_ & H & _);
    [lia | lia | cbn; lia | lia | | exact H].
  intros p _. unfold getbit. apply Z.bits_0.
Defined.

(** ** Further properties of the integer helpers *)

Lemma land_pow2_eqb w m :
  0 <= m -> (Z.land w (2 ^ m) =? 0) = negb (Z.testbit w m).
Proof.
  intros Hm. destruct (Z.testbit w m) eqn:E; cbn [negb].
  - apply Z.eqb_neq. intros H.
    assert (Ht : Z.testbit (Z.land w (2 ^ m)) m = true).
    { rewrite Z.land_spec, E, Z.pow2_bits_true by lia. reflexivity. }
    rewrite H, Z.bits_0 in Ht. discriminate.
  - apply Z.eqb_eq. apply Z.bits_inj'. intros n Hn.
    rewrite Z.land_spec, Z.bits_0.
    destruct (Z.eq_dec n m) as [-> | Hne].
    + rewrite E. reflexivity.
    + rewrite Z.pow2_bits_false by lia. apply andb_false_r.
Qed.

Lemma top_bit_iff bin l :
  1 <= l -> 0 <= bin < 2 ^ l ->
  (Z.testbit bin (l - 1) = true <-> 2 ^ (l - 1) <= bin).
Proof.
  intros Hl Hb.
  assert (Hp : 0 < 2 ^ (l - 1)) by (apply Z.pow_pos_nonneg; lia).
  assert (Hpw : 2 ^ l = 2 * 2 ^ (l - 1)).
  { replace l with (1 + (l - 1)) at 1 by lia.
    rewrite Z.pow_add_r by lia. reflexivity. }
  rewrite Z.testbit_true by lia.
  destruct (Z_lt_le_dec bin (2 ^ (l - 1))) as [Hlt | Hge].
  - rewrite Z.div_small by lia. cbn. split; [discriminate | lia].
  - replace bin with ((bin - 2 ^ (l - 1)) + 1 * 2 ^ (l - 1)) at 1 by lia.
    rewrite Z.div_add by lia. rewrite Z.div_small by lia.
    split; [intros _; exact Hge | reflexivity].
Qed.

(** X15. [int2bin] keeps the low [l] bits of the two's-complement
    representation: for 0 <= l <= 64 the result is x mod 2^l, a value below
    2^l (at l = 64, where BIT returns 0 and the mask wraps to all ones, it
    is the whole 64-bit pattern). *)
Theorem X15_int2bin_low_bits (x l : Z) :
  0 <= l <= 64 ->
  int2bin x l = x mod 2 ^ l /\ 0 <= int2bin x l < 2 ^ l.
Proof.
  intros Hl. split; [apply int2bin_mod; exact Hl | apply int2bin_range; exact Hl].
Qed.

Lemma X15_witness : int2bin (-7) 10 = (-7) mod 2 ^ 10 /\ int2bin (-7) 10 = 1017.
Proof.
  split; [| reflexivity].
  apply (proj1 (X15_int2bin_low_bits (-7) 10 ltac:(lia))).
Defined.

(** X16. [int2bin] and [bin2int] mirror each other at every width l from 1
    to 63: an integer of the signed range of the width is encoded and
    decoded back to itself, and every l-bit pattern decodes into the signed
    range of the width and encodes back to itself. *)
Theorem X16_int2bin_bin2int_mirror (l : Z) :
  1 <= l <= 63 ->
  (forall x, - 2 ^ (l - 1) <= x <= 2 ^ (l - 1) - 1 ->
             bin2int (int2bin x l) l = x) /\
  (forall bin, 0 <= bin < 2 ^ l ->
             - 2 ^ (l - 1) <= bin2int bin l <= 2 ^ (l - 1) - 1 /\
             int2bin (bin2int bin l) l = bin).
Proof.
  intros Hl. split.
  - intros x Hx. apply bin2int_int2bin; assumption.
  - intros bin Hb.
    assert (Hp : 0 < 2 ^ (l - 1) <= 2 ^ 62).
    { split; [apply Z.pow_pos_nonneg; lia | apply Z.pow_le_mono_r; lia]. }
    assert (Hpw : 2 ^ l = 2 * 2 ^ (l - 1)).
    { replace l with (1 + (l - 1)) at 1 by lia.
      rewrite Z.pow_add_r by lia. reflexivity. }
    assert (H62 : 2 ^ 62 * 4 = 2 ^ 64) by reflexivity.
    assert (H63 : 2 ^ 62 * 2 = 2 ^ 63) by reflexivity.
    unfold bin2int.
    rewrite (u64_small (l - 1)) by lia.
    rewrite (BIT_pow2 (l - 1)), (BIT_pow2 l) by lia.
    rewrite land_pow2_eqb by lia.
    destruct (Z.testbit bin (l - 1)) eqn:E; cbn [negb].
    + apply (top_bit_iff bin l ltac:(lia) Hb) in E.
      rewrite (i64_small bin) by lia.
      rewrite i64_u64. rewrite (i64_small (bin - 2 ^ l)) by lia.
      split; [lia |].
      rewrite int2bin_mod by lia.
      symmetry. apply Z.mod_unique with (q := -1); lia.
    + assert (Hlt : bin < 2 ^ (l - 1)).
      { destruct (Z_lt_le_dec bin (2 ^ (l - 1))) as [H | H]; [exact H |].
        apply (top_bit_iff bin l ltac:(lia) Hb) in H. congruence. }
      rewrite (i64_small bin) by lia.
      split; [lia |].
      rewrite int2bin_mod by lia. apply Z.mod_small. lia.
Qed.

Lemma X16_witness :
  bin2int (int2bin (-7) 10) 10 = -7 /\ int2bin (bin2int 1017 10) 10 = 1017.
Proof.
  destruct (X16_int2bin_bin2int_mirror 10 ltac:(lia)) as [H1 H2].
  split.
  - apply H1. cbn. lia.
  - apply H2. cbn. lia.
Defined.

(** X17. [Bin_InRange] decides the signed range of a width, as its comment
    says: for 1 <= nbits <= 64 it is true exactly on
    [-2^(nbits-1), 2^(nbits-1) - 1], the bounds being computed in u64 and
    read back as int64. *)
Theorem X17_Bin_InRange_range (x nbits : Z) :
  1 <= nbits <= 64 ->
  Bin_MinVal nbits = - 2 ^ (nbits - 1) /\
  Bin_MaxVal nbits = 2 ^ (nbits - 1) - 1 /\
  (Bin_InRange x nbits = true <->
   - 2 ^ (nbits - 1) <= x <= 2 ^ (nbits - 1) - 1).
Proof.
  intros H. split; [apply Bin_MinVal_eq; exact H |].
  split; [apply Bin_MaxVal_eq; exact H | apply Bin_InRange_iff; exact H].
Qed.

Lemma X17_witness :
  Bin_InRange 31 6 = true <-> - 2 ^ (6 - 1) <= 31 <= 2 ^ (6 - 1) - 1.
Proof.
  apply (X17_Bin_InRange_range 31 6). lia.
Defined.

(** X18. [MASK] and [LSB] at every width from 0 to 64: MASK(bits) is
    2^bits - 1, including bits = 64 where BIT returns 0 and the subtraction
    wraps to all ones, and LSB(x, bits) is x mod 2^bits, so LSB(x, 64)
    leaves a 64-bit pattern as it is. *)
Theorem X18_MASK_LSB (x bits : Z) :
  0 <= bits <= 64 ->
  MASK bits = 2 ^ bits - 1 /\ LSB x bits = x mod 2 ^ bits /\
  (0 <= x < 2 ^ 64 -> LSB x 64 = x).
Proof.
  intros H. split; [| split].
  - rewrite MASK_ones by exact H. rewrite Z.ones_equiv. lia.
  - apply LSB_mod. exact H.
  - intros Hx. apply LSB_small; [lia | exact Hx].
Qed.

Lemma X18_witness : MASK 64 = 2 ^ 64 - 1 /\ BIT 64 = 0.
Proof.
  split; [| reflexivity].
  apply (proj1 (X18_MASK_LSB 0 64 ltac:(lia))).
Defined.

(** ** The two codecs, each on its own *)

Lemma appendInteger_witness_clean : clean (data one_sample_chunk) (idx one_sample_chunk).
Proof. intros p _. unfold getbit. apply Z.bits_0. Qed.

(** X19. The integer codec round-trips on its own: after [appendInteger]
    has returned CR_OK on a chunk with no bit set at or beyond the cursor,
    [readInteger] run on the new buffer by an iterator that stood at the
    old cursor with the encoder's previous timestamp and delta returns the
    timestamp and ends at the new cursor with the encoder's new timestamp
    and delta. *)
Theorem X19_integer_codec_roundtrip (c c1 : CompressedChunk) (ts : Z)
    (it : Compressed_Iterator) :
  0 <= idx c <= size c * 8 -> size c * 8 < 2 ^ 64 ->
  clean (data c) (idx c) -> 0 <= ts < 2 ^ 64 ->
  appendInteger c ts = (CR_OK, c1) ->
  it_idx it = idx c -> it_prevTS it = prevTimestamp c ->
  it_prevDelta it = prevTimestampDelta c ->
  fst (readInteger (data c1) it) = ts /\
  it_idx (snd (readInteger (data c1) it)) = idx c1 /\
  it_prevTS (snd (readInteger (data c1) it)) = prevTimestamp c1 /\
  it_prevDelta (snd (readInteger (data c1) it)) = prevTimestampDelta c1.
Proof.
  intros Hi Hs Hcl Hts E Ei Et Ed.
  destruct (appendInteger_cases c ts Hi Hs) as [[_ E'] | [Hsp E']];
    rewrite E' in E; inversion E; subst c1; clear E.
  assert (Hic := int_code_total (doubleDelta_of c ts)).
  destruct (int_post_facts c ts) as (F1&_&_&_&_&_&_&_&F9&F10&F11&_); [lia | lia |].
  destruct (emits_spec (int_code (doubleDelta_of c ts)) c) as (_&_&_&_&_&A6);
    [lia | apply int_code_ok | lia |].
  rewrite (readInteger_layout (data (int_post c ts)) it (doubleDelta_of c ts));
    [| apply doubleDelta_of_range | lia | lia | rewrite Ei, F11; apply A6; exact Hcl].
  cbn [fst snd it_idx it_prevTS it_prevDelta].
  rewrite Et, Ed, Ei, F1, F9, F10.
  unfold doubleDelta_of, curDelta_of.
  rewrite !decode_ts by exact Hts. rewrite ?decode_delta.
  repeat split; reflexivity.
Qed.

Lemma X19_witness :
  fst (readInteger (data (snd (appendInteger one_sample_chunk 1)))
         (mkIter 0 1 0 0 0 0 0)) = 1.
Proof.
  assert (H1 : 0 <= idx one_sample_chunk <= size one_sample_chunk * 8) by (cbn; lia).
  assert (H2 : size one_sample_chunk * 8 < 2 ^ 64) by (cbn; lia).
  assert (H3 : 0 <= 1 < 2 ^ 64) by lia.
  exact (proj1 (X19_integer_codec_roundtrip one_sample_chunk _ 1
                  (mkIter 0 1 0 0 0 0 0) H1 H2 appendInteger_witness_clean H3
                  appendInteger_witness_eq eq_refl eq_refl eq_refl)).
Defined.

(** X20. The double codec round-trips on its own: after [appendFloat] has
    returned CR_OK on a chunk with no bit set at or beyond the cursor,
    [readFloat] run on the new buffer by an iterator that stood at the old
    cursor with the encoder's previous value and window returns the value
    pattern and ends at the new cursor with the encoder's new previous
    value and window. *)
Theorem X20_double_codec_roundtrip (c c' : CompressedChunk) (v : Z)
    (it : Compressed_Iterator) :
  0 <= idx c -> idx c + 1 <= size c * 8 -> size c * 8 < 2 ^ 64 ->
  clean (data c) (idx c) ->
  0 <= prevValue c < 2 ^ 64 -> 0 <= prevLeading c -> 0 <= prevTrailing c ->
  0 <= v < 2 ^ 64 ->
  appendFloat c v = (CR_OK, c') ->
  it_idx it = idx c -> it_prevValue it = prevValue c ->
  it_prevLeading it = prevLeading c -> it_prevTrailing it = prevTrailing c ->
  fst (readFloat (data c') it) = v /\
  it_idx (snd (readFloat (data c') it)) = idx c' /\
  it_prevValue (snd (readFloat (data c') it)) = prevValue c' /\
  it_prevLeading (snd (readFloat (data c') it)) = prevLeading c' /\
  it_prevTrailing (snd (readFloat (data c') it)) = prevTrailing c'.
Proof.
  intros Hi Hi1 Hs Hcl Hpv Hpl Hpt Hv E Ei Ev El Et.
  assert (Hx := lxor_u64 v (prevValue c) Hv Hpv).
  set (x := Z.lxor v (prevValue c)) in *.
  assert (Hfok := float_code_ok _ _ _ Hx Hpl Hpt).
  destruct (appendFloat_cases c v Hi Hi1 Hs Hpv Hpl Hpt Hv)
    as [(_ & _ & E') | (Hsp & E')];
    rewrite E' in E; inversion E; subst c'; clear E.
  fold x in Hsp |- *.
  set (fc := float_code (prevLeading c) (prevTrailing c) x) in *.
  destruct (emits_spec fc c Hi Hfok ltac:(lia)) as (B1 & _ & B3 & _ & _ & B6).
  destruct B3 as (_&_&_&_&_&_&G7&G8&G9).
  destruct (float_post_facts c v (emits c fc)) as (P1&P2&_).
  rewrite P1, P2.
  rewrite (readFloat_layout (data (emits c fc)) it x);
    rewrite ?Ei, ?El, ?Et; fold fc;
    [| exact Hx | exact Hpl | exact Hpt | lia | lia | apply B6; exact Hcl].
  cbn [fst snd it_idx it_prevValue it_prevLeading it_prevTrailing].
  rewrite Ev, B1. unfold x at 1 2. rewrite lxor_cancel.
  split; [reflexivity |]. split; [reflexivity |].
  unfold float_post, window_after. fold x.
  destruct (x =? 0) eqn:E0.
  - apply Z.eqb_eq in E0. unfold x in E0. apply Z.lxor_eq in E0.
    cbn [fst snd]. rewrite G7, G8, G9. auto.
  - destruct (reuse_test (prevLeading c) (prevTrailing c) x);
      cbn [fst snd prevValue prevLeading prevTrailing set_prevValue set_window];
      rewrite ?G8, ?G9; auto.
Qed.

Lemma X20_witness :
  fst (readFloat (data (snd (appendFloat one_sample_chunk128 (2 ^ 64 - 1))))
         (mkIter 0 1 0 0 0 0 0)) = 2 ^ 64 - 1.
Proof.
  assert (Hv : 0 <= 2 ^ 64 - 1 < 2 ^ 64) by lia.
  assert (H0 : 0 <= idx one_sample_chunk128) by (cbn; lia).
  assert (H1 : idx one_sample_chunk128 + 1 <= size one_sample_chunk128 * 8)
    by (cbn; lia).
  assert (H2 : size one_sample_chunk128 * 8 < 2 ^ 64) by (cbn; lia).
  assert (H3 : 0 <= prevValue one_sample_chunk128 < 2 ^ 64) by (cbn; lia).
  assert (H4 : 0 <= prevLeading one_sample_chunk128) by (cbn; lia).
  assert (H5 : 0 <= prevTrailing one_sample_chunk128) by (cbn; lia).
  assert (Hc : clean (data one_sample_chunk128) (idx one_sample_chunk128)).
  { intros p _. unfold getbit. apply Z.bits_0. }
  exact (proj1 (X20_double_codec_roundtrip one_sample_chunk128 _ (2 ^ 64 - 1)
                  (mkIter 0 1 0 0 0 0 0) H0 H1 H2 Hc H3 H4 H5 Hv
                  c5_appendFloat_eq eq_refl eq_refl eq_refl eq_refl)).
Defined.
